(** * CycleMAE: masking bookkeeping, multi-domain decoding and loss assembly

    A shallow embedding of [cyclemae.py].  Tensors are nested lists in
    row-major order, tensor entries are exact rationals, and every place
    where PyTorch or Python would raise is an explicit [Raise].  The one
    number that is truncated to an integer, the count of kept patches
    [int(L * (1 - mask_ratio))], is computed as Python computes it, with
    both operations rounded to binary64.  The layers
    that the file imports (transformer blocks, patch embedding, linear and
    normalisation layers, [log_softmax], the power function) are fields of
    the module records or section variables: the development is about the
    index bookkeeping around them. *)

From Stdlib Require Import QArith Qround ZArith List Lia Lqa Permutation Sorted.
From Stdlib Require Floats.
From stdpp Require Import base option list sorting gmap strings pretty.

Local Open Scope Q_scope.
Local Open Scope nat_scope.

(** ** Errors and the two monads *)

Inductive exn : Set :=
  | AssertionError
  | KeyError
  | IndexError
  | ZeroDivisionError
  | OverflowError
  | RuntimeError.

Inductive result (A : Type) : Type :=
  | Ok (a : A)
  | Raise (e : exn).
Arguments Ok {A} a.
Arguments Raise {A} e.

#[global] Instance result_ret : MRet result := λ A a, Ok a.
#[global] Instance result_bind : MBind result := λ A B f r,
  match r with
  | Ok a => f a
  | Raise e => Raise e
  end.

(** Computations that draw random noise thread the number of draws made so
    far: [torch.rand] is the only effect of the forward pass. *)
Definition M (A : Type) : Type := nat → result (A * nat).

#[global] Instance M_ret : MRet M := λ A a k, Ok (a, k).
#[global] Instance M_bind : MBind M := λ A B f c k,
  match c k with
  | Ok (a, k') => f a k'
  | Raise e => Raise e
  end.

Definition lift {A} (r : result A) : M A := λ k,
  match r with
  | Ok a => Ok (a, k)
  | Raise e => Raise e
  end.

(** A scalar (0-d tensor) produced by a division: a finite number, or the
    [nan]/[inf] that floating point division by zero yields.  Sums and
    products with a non-finite operand stay non-finite. *)
Inductive scalar : Set :=
  | Fin (q : Q)
  | NonFinite.

Definition sdiv (a b : Q) : scalar :=
  if Qeq_bool b 0 then NonFinite else Fin (a / b).

Definition sadd (a b : scalar) : scalar :=
  match a, b with
  | Fin x, Fin y => Fin (x + y)
  | _, _ => NonFinite
  end.

Definition smul (c : Q) (a : scalar) : scalar :=
  match a with
  | Fin x => Fin (c * x)
  | NonFinite => NonFinite
  end.

(** ** Tensors as nested lists *)

Definition vec : Type := list Q.                    (* [D] *)
Definition image : Type := list (list (list Q)).    (* [C, H, W] *)

(** [t.shape[1]] of a batch; an empty batch reports 0. *)
Definition dim1 {A} (t : list (list A)) : nat :=
  match t with
  | [] => 0
  | s :: _ => length s
  end.

Definition Qsum (l : list Q) : Q := foldr Qplus 0%Q l.
Definition sum2 (t : list (list Q)) : Q := Qsum (concat t).

(** Python's [int(...)] on a float: truncation towards zero. *)
Definition py_int (q : Q) : Z := Z.quot (Qnum q) (Zpos (Qden q)).

(** ** Python floats

    A finite Python float is a binary64 number, here its rational value.
    The arithmetic of floats rounds the exact result to the nearest
    binary64 number, ties to the even mantissa: 53 bits of precision, the
    unit in the last place not below [2 ^ -1074], and a result of
    magnitude [2 ^ 1024] or more is the infinity, which [int(...)] turns
    into [OverflowError]. *)

(** [num / den] rounded to the nearest integer, ties to even
    ([den > 0]). *)
Definition div_half_even (num den : Z) : Z :=
  let f := (num / den)%Z in
  let r := (num mod den)%Z in
  match (2 * r ?= den)%Z with
  | Lt => f
  | Gt => (f + 1)%Z
  | Eq => if Z.even f then f else (f + 1)%Z
  end.

(** The binary64 number nearest to [q].  With [q = ± a / b] and [lg] the
    floor of the binary logarithm of [a / b], the unit in the last place
    is [2 ^ e] for [e = max (lg - 52) (-1074)] and the result is
    [± n * 2 ^ e] for [n] the integer nearest to [a / (b * 2 ^ e)]. *)
Definition round64 (q : Q) : result Q :=
  let q := Qred q in
  let a := Z.abs (Qnum q) in
  let b := Zpos (Qden q) in
  if (a =? 0)%Z then Ok 0%Q else
  let g := (Z.log2 a - Z.log2 b)%Z in
  let lg := if (if (0 <=? g)%Z then (2 ^ g * b <=? a)%Z
                else (b <=? a * 2 ^ (- g))%Z)
            then g else (g - 1)%Z in
  let e := Z.max (lg - 52) (-1074) in
  let n := div_half_even (a * 2 ^ Z.max 0 (- e)) (b * 2 ^ Z.max 0 e) in
  if (2 ^ 1024 * 2 ^ Z.max 0 (- e) <=? n * 2 ^ Z.max 0 e)%Z
  then Raise OverflowError else
  Ok (Qred (Qmake (Z.sgn (Qnum q) * n * 2 ^ Z.max 0 e)
              (Z.to_pos (2 ^ Z.max 0 (- e))))).

(** [a - b] and [a * b] on floats, and the conversion of an [int]. *)
Definition fsub (a b : Q) : result Q := round64 (a - b).
Definition fmul (a b : Q) : result Q := round64 (a * b).
Definition float_of_int (z : Z) : result Q := round64 (inject_Z z).

(** [l[:k]] and [l[a:b]] with Python's clamping; a negative [k] counts
    from the end. *)
Definition py_slice_to {A} (k : Z) (l : list A) : list A :=
  if (0 <=? k)%Z then take (Z.to_nat k) l
  else take (length l - Z.to_nat (- k)) l.

Definition py_slice {A} (a b : nat) (l : list A) : list A :=
  take (b - a) (drop a l).

(** Python list indexing. *)
Definition index {A} (l : list A) (i : nat) : result A :=
  match l !! i with
  | Some a => Ok a
  | None => Raise IndexError
  end.

(** Elementwise binary operation along one dimension with PyTorch's
    broadcasting rule: equal sizes, or one of the sizes is 1. *)
Fixpoint zipM {A B C} (f : A → B → result C) (a : list A) (b : list B)
  : result (list C) :=
  match a, b with
  | x :: a', y :: b' => c ← f x y; cs ← zipM f a' b'; Ok (c :: cs)
  | _, _ => Ok []
  end.

Definition broadcast {A B C} (f : A → B → result C) (a : list A) (b : list B)
  : result (list C) :=
  if decide (length a = length b) then zipM f a b
  else match a, b with
       | [a0], _ => mapM (f a0) b
       | _, [b0] => mapM (λ x, f x b0) a
       | _, _ => Raise RuntimeError
       end.

Definition lift2 (f : Q → Q → Q) (a b : Q) : result Q := Ok (f a b).

(** [a + b], [a - b], [a * b] on tensors of rank 1, 2 and 3. *)
Definition badd1 : vec → vec → result vec := broadcast (lift2 Qplus).
Definition badd2 : list vec → list vec → result (list vec) := broadcast badd1.
Definition bmul2 : list (list Q) → list (list Q) → result (list (list Q)) :=
  broadcast (broadcast (lift2 Qmult)).
Definition bsub3 : list (list vec) → list (list vec) → result (list (list vec)) :=
  broadcast (broadcast (broadcast (lift2 Qminus))).

(** [torch.cat([a, b], dim=1)]: the batch sizes must agree. *)
Definition cat_dim1 {A} (a b : list (list A)) : result (list (list A)) :=
  if decide (length a = length b) then Ok (zip_with app a b)
  else Raise RuntimeError.

(** [torch.gather] along the token dimension of one sample, and of a batch.
    An index outside the input raises; the output has the index's shape. *)
Definition gather {A} (x : list A) (ids : list nat) : result (list A) :=
  mapM (λ i, match x !! i with
             | Some a => Ok a
             | None => Raise RuntimeError
             end) ids.

Fixpoint gather_dim1 {A} (x : list (list A)) (ids : list (list nat))
  : result (list (list A)) :=
  match ids, x with
  | [], _ => Ok []
  | i :: ids', s :: x' => r ← gather s i; rs ← gather_dim1 x' ids'; Ok (r :: rs)
  | _ :: _, [] => Raise RuntimeError
  end.

(** [torch.argsort] (ascending) of one row: insertion of the indexed keys,
    equal keys keeping their order. *)
Fixpoint insert_key {K} (leb : K → K → bool) (x : K * nat) (l : list (K * nat))
  : list (K * nat) :=
  match l with
  | [] => [x]
  | y :: l' => if leb x.1 y.1 then x :: l else y :: insert_key leb x l'
  end.

(** The order of the indexed keys under which the insertion sorts. *)
Definition key_le {K} (leb : K → K → bool) (x y : K * nat) : Prop :=
  leb x.1 y.1 = true.

Definition argsort {K} (leb : K → K → bool) (keys : list K) : list nat :=
  (foldr (insert_key leb) [] (zip keys (seq 0 (length keys)))).*2.

(** ** Decoder *)

Record Decoder : Type := {
  num_patches : nat;
  decoder_embed : vec → vec;                    (* nn.Linear, per token *)
  mask_token : vec;
  decoder_pos_embed : list vec;                 (* [num_patches + 1, D] *)
  decoder_blocks : list (list vec → list vec);  (* Block, per sample *)
  decoder_norm : vec → vec;
  decoder_pred : vec → vec
}.

(** The part of [Decoder.forward] up to the re-attached cls token:
    embed, append mask tokens, unshuffle through [ids_restore]. *)
Definition Decoder_restore (self : Decoder) (x : list (list vec))
    (ids_restore : list (list nat)) : result (list (list vec)) :=
  let x := fmap (M := list) (fmap (M := list) self.(decoder_embed)) x in
  let n_mask := (Z.of_nat (dim1 ids_restore) + 1 - Z.of_nat (dim1 x))%Z in
  if (n_mask <? 0)%Z then Raise RuntimeError else
  let mask_tokens := replicate (Z.to_nat n_mask) self.(mask_token) in
  let x_ := (λ s, drop 1 s ++ mask_tokens) <$> x in
  x_ ← gather_dim1 x_ ids_restore;
  cat_dim1 (take 1 <$> x) x_.

Definition Decoder_forward (self : Decoder) (x : list (list vec))
    (ids_restore : list (list nat))
  : result (list (list vec) * list (list vec)) :=
  x ← Decoder_restore self x ids_restore;
  x ← mapM (λ s, badd2 s self.(decoder_pos_embed)) x;
  match self.(decoder_blocks) with
  | [] => Raise IndexError
  | blk0 :: blks =>
      let x_mid := blk0 <$> x in
      let x := foldl (λ x blk, blk <$> x) x_mid blks in
      let x := fmap (M := list) (fmap (M := list) self.(decoder_norm)) x in
      let x := fmap (M := list) (fmap (M := list) self.(decoder_pred)) x in
      let x := drop 1 <$> x in
      Ok (x, x_mid)
  end.

(** ** Encoder *)

Record Encoder : Type := {
  patch_embed : image → list vec;               (* PatchEmbed, per image *)
  patch_size : nat;                             (* patch_embed.patch_size[0] *)
  cls_token : vec;
  pos_embed : list vec;                         (* [num_patches + 1, D] *)
  blocks : list (list vec → list vec);
  norm : vec → vec
}.

Section Forward.

(** The random source: entry [(n, l)] of the [k]-th [torch.rand] draw. *)
Variable rand_source : nat → nat → nat → Q.
(** [torch.nn.functional.log_softmax] over a vector, and [x ** .5]. *)
Variable log_softmax : list Q → list Q.
Variable pow_half : Q → Q.

Definition torch_rand (N L : nat) : M (list (list Q)) := λ k,
  Ok ((λ n, rand_source k n <$> seq 0 L) <$> seq 0 N, S k).

(** [mask = ones(L); mask[:len_keep] = 0] for one row. *)
Definition mask_base (L : nat) (len_keep : Z) : list Q :=
  let ones := replicate L 1%Q in
  let c := length (py_slice_to len_keep ones) in
  replicate c 0%Q ++ drop c ones.

(** [int(L * (1 - mask_ratio))] for the float [mask_ratio]. *)
Definition len_keep_of (L : nat) (mask_ratio : Q) : result Z :=
  d ← fsub 1 mask_ratio;
  l ← float_of_int (Z.of_nat L);
  p ← fmul l d;
  Ok (py_int p).

(** [random_masking] once the noise is drawn. *)
Definition masking_of_noise (x : list (list vec)) (mask_ratio : Q)
    (noise : list (list Q))
  : result (list (list vec) * list (list Q) * list (list nat)) :=
  let N := length x in
  let L := dim1 x in
  len_keep ← len_keep_of L mask_ratio;
  let ids_shuffle := argsort Qle_bool <$> noise in
  let ids_restore := argsort Nat.leb <$> ids_shuffle in
  let ids_keep := py_slice_to len_keep <$> ids_shuffle in
  x_masked ← gather_dim1 x ids_keep;
  let mask := replicate N (mask_base L len_keep) in
  mask ← gather_dim1 mask ids_restore;
  Ok (x_masked, mask, ids_restore).

Definition random_masking (x : list (list vec)) (mask_ratio : Q)
  : M (list (list vec) * list (list Q) * list (list nat)) :=
  noise ← torch_rand (length x) (dim1 x);
  lift (masking_of_noise x mask_ratio noise).

Definition Encoder_forward (self : Encoder) (x : list image) (mask_ratio : Q)
  : M (list (list vec) * list (list Q) * list (list nat)) :=
  let x := self.(patch_embed) <$> x in
  x ← lift (mapM (λ s, badd2 s (drop 1 self.(pos_embed))) x);
  '(x, mask, ids_restore) ← random_masking x mask_ratio;
  cls_token ← lift (badd2 [self.(cls_token)] (take 1 self.(pos_embed)));
  let cls_tokens := replicate (length x) cls_token in
  x ← lift (cat_dim1 cls_tokens x);
  let x := foldl (λ x blk, blk <$> x) x self.(blocks) in
  let x := fmap (M := list) (fmap (M := list) self.(norm)) x in
  mret (x, mask, ids_restore).

(** ** CycleMAE *)

Record CycleMAE : Type := {
  num_domains : nat;
  encoder : Encoder;
  multi_domain_decoders : gmap string Decoder;  (* nn.ModuleDict *)
  norm_pix_loss : bool
}.

Definition decoder_name (i : nat) : string := "decoder_" +:+ pretty i.

(** [__init__]: one freshly initialised decoder per domain, stored under
    the key [decoder_i].  [new_decoder i] is the [i]-th decoder built; the
    encoder is the one loaded from the checkpoint. *)
Definition CycleMAE_init (num_domains : nat) (enc : Encoder)
    (new_decoder : nat → Decoder) (norm_pix_loss : bool) : CycleMAE :=
  {| num_domains := num_domains;
     encoder := enc;
     multi_domain_decoders :=
       foldl (λ d i, <[decoder_name i := new_decoder i]> d) ∅ (seq 0 num_domains);
     norm_pix_loss := norm_pix_loss |}.

Definition get_decoder (self : CycleMAE) (i : nat) : result Decoder :=
  match self.(multi_domain_decoders) !! decoder_name i with
  | Some d => Ok d
  | None => Raise KeyError
  end.

(** [imgs.shape[2]] and [imgs.shape[3]]. *)
Definition dimH (imgs : list image) : nat :=
  match imgs with
  | img :: _ => dim1 img
  | [] => 0
  end.

Definition dimW (imgs : list image) : nat :=
  match imgs with
  | (ch :: _) :: _ => dim1 ch
  | _ => 0
  end.

(** Row-major data of one image [C, H, W]. *)
Definition flat3 (img : image) : list Q := concat (concat img).

(** One sample of [patchify]: the data viewed as [3, h, p, w, p], permuted
    to [h, w, p, p, 3] and regrouped as [h * w, p * p * 3].  Entry [t] of
    patch [k] has patch row [k / w], patch column [k mod w], pixel row
    [t / (p * 3)], pixel column [(t / 3) mod p] and channel [t mod 3]. *)
Definition patchify_sample (p h w : nat) (data : list Q) : list vec :=
  (λ k, (λ t, let hi := k / w in
              let wi := k mod w in
              let pi := t / (p * 3) in
              let qi := (t / 3) mod p in
              let c := t mod 3 in
              nth ((((c * h + hi) * p + pi) * w + wi) * p + qi) data 0%Q)
        <$> seq 0 (p * p * 3))
  <$> seq 0 (h * w).

Definition patchify (self : CycleMAE) (imgs : list image)
  : result (list (list vec)) :=
  let p := self.(encoder).(patch_size) in
  if negb (bool_decide (dimH imgs = dimW imgs)) then Raise AssertionError else
  if bool_decide (p = 0) then Raise ZeroDivisionError else
  if negb (bool_decide (dimH imgs mod p = 0)) then Raise AssertionError else
  let h := dimH imgs / p in
  let w := h in
  mapM (λ img,
          let data := flat3 img in
          if bool_decide (length data = 3 * h * p * w * p)
          then Ok (patchify_sample p h w data)
          else Raise RuntimeError) imgs.

(** One sample of [unpatchify]: the data viewed as [h, w, p, p, 3],
    permuted to [3, h, p, w, p] and regrouped as [3, h * p, h * p]. *)
Definition unpatchify_sample (p h w : nat) (data : list Q) : image :=
  (λ c, (λ row, (λ col, let hi := row / p in
                        let pi := row mod p in
                        let wi := col / p in
                        let qi := col mod p in
                        nth ((((hi * w + wi) * p + pi) * p + qi) * 3 + c) data 0%Q)
                <$> seq 0 (h * p))
        <$> seq 0 (h * p))
  <$> seq 0 3.

Definition unpatchify (self : CycleMAE) (x : list (list vec))
  : result (list image) :=
  let p := self.(encoder).(patch_size) in
  let h := Nat.sqrt (dim1 x) in
  let w := h in
  if negb (bool_decide (h * w = dim1 x)) then Raise AssertionError else
  mapM (λ s,
          let data := concat s in
          if bool_decide (length data = h * w * p * p * 3)
          then Ok (unpatchify_sample p h w data)
          else Raise RuntimeError) x.

Definition mean (l : list Q) : Q :=
  (Qsum l / inject_Z (Z.of_nat (length l)))%Q.

(** [torch.var]: the unbiased estimator. *)
Definition var (l : list Q) : Q :=
  let m := mean l in
  (Qsum ((λ v, (v - m) ^ 2) <$> l) / inject_Z (Z.of_nat (length l) - 1))%Q.

Definition normalize_target (t : vec) : vec :=
  let m := mean t in
  let v := var t in
  (λ a, ((a - m) / pow_half (v + 1 / 1000000))%Q) <$> t.

(** [forward_loss]: the per-patch mean squared error, [N, L]; the [mask]
    argument is not used. *)
Definition forward_loss (self : CycleMAE) (imgs : list image)
    (pred : list (list vec)) (mask : list (list Q)) : result (list (list Q)) :=
  target ← patchify self imgs;
  let target :=
    if self.(norm_pix_loss)
    then fmap (M := list) (fmap (M := list) normalize_target) target
    else target in
  loss ← bsub3 pred target;
  Ok (fmap (M := list) (fmap (M := list) (λ v, mean ((λ d, d ^ 2)%Q <$> v))) loss).

(** The first loop of [forward]: every decoder reconstructs the whole
    batch. *)
Definition decode_all (self : CycleMAE) (latent : list (list vec))
    (ids_restore : list (list nat)) (original_x : list image)
    (mask : list (list Q))
  : result (list (list (list vec) * list (list Q))) :=
  mapM (λ i,
          dec ← get_decoder self i;
          '(pred, _) ← Decoder_forward dec latent ids_restore;
          loss_recons ← forward_loss self original_x pred mask;
          Ok (pred, loss_recons)) (seq 0 3).

(** [(torch.cat(l) * mask).sum() / mask.sum()]. *)
Definition masked_mean (l : list (list (list Q))) (mask : list (list Q))
  : result scalar :=
  prod ← bmul2 (concat l) mask;
  Ok (sdiv (sum2 prod) (sum2 mask)).

Definition recons_loss (loss_recons_list : list (list (list Q))) (bz : nat)
    (mask : list (list Q)) : result scalar :=
  loss_recons_list_useful ←
    mapM (λ i, l ← index loss_recons_list i;
               Ok (py_slice (i * bz) ((i + 1) * bz) l)) (seq 0 3);
  masked_mean loss_recons_list_useful mask.

(** One iteration of the cycle loop for the prediction of decoder [i]:
    its contribution to [loss_cycle] and the three mid features. *)
Definition cycle_step (self : CycleMAE) (original_x : list image)
    (mask_ratio : Q) (bz : nat) (pred_i : list (list vec))
  : M (scalar * list (list (list vec))) :=
  imgs ← lift (unpatchify self pred_i);
  '(latent, mask, ids_restore) ← Encoder_forward self.(encoder) imgs mask_ratio;
  r ← lift (mapM (λ j,
          dec ← get_decoder self j;
          '(pred, decoder_mid_feature) ← Decoder_forward dec latent ids_restore;
          loss_cycle_tmp ←
            forward_loss self (py_slice (j * bz) ((j + 1) * bz) original_x)
                              (py_slice (j * bz) ((j + 1) * bz) pred)
                              (py_slice (j * bz) ((j + 1) * bz) mask);
          Ok (loss_cycle_tmp, decoder_mid_feature)) (seq 0 3));
  c ← lift (masked_mean r.*1 mask);
  mret (c, r.*2).

(** Regrouping of a flat list into rows of [k] entries. *)
Fixpoint chunks {A} (fuel k : nat) (l : list A) : list (list A) :=
  match fuel with
  | 0 => []
  | S fuel' => take k l :: chunks fuel' k (drop k l)
  end.

Fixpoint transpose {A} (n : nat) (t : list (list A)) : list (list A) :=
  match n with
  | 0 => []
  | S n' => omap head t :: transpose n' (drop 1 <$> t)
  end.

(** [stack], [reshape([3, 3, -1, S, D])], [permute(1, 0, 2, 3, 4)] and
    [flatten(1, 2)] of the mid features gathered for one decoder: the bank
    has one row per batch group, holding that group's rows of every cycle
    pass. *)
Definition feature_bank (feats : list (list (list vec)))
  : result (list (list (list vec))) :=
  let stacked := concat feats in
  if negb (bool_decide (length stacked mod 9 = 0)) then Raise RuntimeError else
  let k := length stacked / 9 in
  let grouped := chunks 3 3 (chunks 9 k stacked) in
  Ok ((λ g, concat g) <$> transpose 3 grouped).

Definition dot (a b : list (list vec)) : Q :=
  Qsum (zip_with Qmult (concat (concat a)) (concat (concat b))).

Definition tao : Q := 100000%Q.

Definition contrastive_step (decoder_mid_feature_list : list (list (list (list vec))))
    (i : nat) : result Q :=
  feats ← index decoder_mid_feature_list i;
  decoder_mid_feature ← feature_bank feats;
  row ← index decoder_mid_feature i;
  let logits := (λ g, (dot row g / tao)%Q) <$> decoder_mid_feature in
  v ← index (log_softmax logits) i;
  Ok ((-1) * v)%Q.

Definition contrastive_loss (decoder_mid_feature_list : list (list (list (list vec))))
  : result scalar :=
  terms ← mapM (contrastive_step decoder_mid_feature_list) (seq 0 3);
  Ok (foldl (λ acc t, sadd acc (Fin t)) (Fin 0) terms).

(** The reconstruction part of [forward]: encode once, decode with the
    decoders, keep the slice [i * bz, (i + 1) * bz) of decoder [i]. *)
Definition forward_recons (self : CycleMAE) (x original_x : list image)
    (mask_ratio : Q) : M (list (list (list vec)) * nat * scalar) :=
  '(latent, mask, ids_restore) ← Encoder_forward self.(encoder) x mask_ratio;
  first ← lift (decode_all self latent ids_restore original_x mask);
  let pred_list := first.*1 in
  let loss_recons_list := first.*2 in
  l0 ← lift (index loss_recons_list 0);
  let bz := length l0 / 3 in
  loss_recons ← lift (recons_loss loss_recons_list bz mask);
  mret (pred_list, bz, loss_recons).

(** The cycle part: [loss_cycle] and [decoder_mid_feature_list], whose
    entry [j] lists the mid features of decoder [j] over the passes. *)
Definition forward_cycle (self : CycleMAE) (original_x : list image)
    (mask_ratio : Q) (bz : nat) (pred_list : list (list (list vec)))
  : M (scalar * list (list (list (list vec)))) :=
  cyc ← mapM (λ i, pred_i ← lift (index pred_list i);
                   cycle_step self original_x mask_ratio bz pred_i) (seq 0 3);
  let loss_cycle := foldl sadd (Fin 0) cyc.*1 in
  let decoder_mid_feature_list :=
    (λ j, omap (λ mids : list (list (list vec)), mids !! j) cyc.*2) <$> seq 0 3 in
  mret (loss_cycle, decoder_mid_feature_list).

(** The three loss terms of [forward], in the order they are computed. *)
Definition forward_terms (self : CycleMAE) (x original_x : list image)
    (mask_ratio : Q) : M (scalar * scalar * scalar) :=
  '(pred_list, bz, loss_recons) ← forward_recons self x original_x mask_ratio;
  '(loss_cycle, decoder_mid_feature_list) ←
    forward_cycle self original_x mask_ratio bz pred_list;
  loss_contrastive ← lift (contrastive_loss decoder_mid_feature_list);
  mret (loss_recons, loss_cycle, loss_contrastive).

Definition forward (self : CycleMAE) (x original_x : list image)
    (mask_ratio : Q) : M scalar :=
  '(loss_recons, loss_cycle, loss_contrastive) ←
    forward_terms self x original_x mask_ratio;
  mret (sadd (sadd loss_recons (smul 2 loss_cycle)) (smul 2 loss_contrastive)).

(** ** The forward pass as the specification words it

    The specification describes the same computation with the number of
    domains the model was built with in the place of the literal 3: one
    decode per domain, groups of [N / num_domains] rows, a feature bank of
    [num_domains] rows.  The definitions below follow its sections 4.6 and
    4.7; they are compared with the definitions above, never used by
    them. *)

Definition spec_decode_all (nd : nat) (self : CycleMAE)
    (latent : list (list vec)) (ids_restore : list (list nat))
    (original_x : list image) (mask : list (list Q))
  : result (list (list (list vec) * list (list Q))) :=
  mapM (λ d,
          dec ← get_decoder self d;
          '(pred, _) ← Decoder_forward dec latent ids_restore;
          loss_recons ← forward_loss self original_x pred mask;
          Ok (pred, loss_recons)) (seq 0 nd).

Definition spec_recons_loss (nd : nat) (loss_recons_list : list (list (list Q)))
    (bz : nat) (mask : list (list Q)) : result scalar :=
  useful ←
    mapM (λ d, l ← index loss_recons_list d;
               Ok (py_slice (d * bz) ((d + 1) * bz) l)) (seq 0 nd);
  masked_mean useful mask.

Definition spec_cycle_step (nd : nat) (self : CycleMAE)
    (original_x : list image) (mask_ratio : Q) (bz : nat)
    (pred_d : list (list vec))
  : M (scalar * list (list (list vec))) :=
  imgs ← lift (unpatchify self pred_d);
  '(latent, mask, ids_restore) ← Encoder_forward self.(encoder) imgs mask_ratio;
  r ← lift (mapM (λ j,
          dec ← get_decoder self j;
          '(pred, mid_feature) ← Decoder_forward dec latent ids_restore;
          loss ←
            forward_loss self (py_slice (j * bz) ((j + 1) * bz) original_x)
                              (py_slice (j * bz) ((j + 1) * bz) pred)
                              (py_slice (j * bz) ((j + 1) * bz) mask);
          Ok (loss, mid_feature)) (seq 0 nd));
  c ← lift (masked_mean r.*1 mask);
  mret (c, r.*2).

Definition spec_feature_bank (nd : nat) (feats : list (list (list vec)))
  : result (list (list (list vec))) :=
  let stacked := concat feats in
  if negb (bool_decide (length stacked mod (nd * nd) = 0))
  then Raise RuntimeError else
  let k := length stacked / (nd * nd) in
  let grouped := chunks nd nd (chunks (nd * nd) k stacked) in
  Ok ((λ g, concat g) <$> transpose nd grouped).

Definition spec_contrastive_step (nd : nat)
    (mid_feature_list : list (list (list (list vec)))) (d : nat) : result Q :=
  feats ← index mid_feature_list d;
  bank ← spec_feature_bank nd feats;
  row ← index bank d;
  let logits := (λ g, (dot row g / tao)%Q) <$> bank in
  v ← index (log_softmax logits) d;
  Ok ((-1) * v)%Q.

Definition spec_contrastive_loss (nd : nat)
    (mid_feature_list : list (list (list (list vec)))) : result scalar :=
  terms ← mapM (spec_contrastive_step nd mid_feature_list) (seq 0 nd);
  Ok (foldl (λ acc t, sadd acc (Fin t)) (Fin 0) terms).

Definition spec_forward_recons (nd : nat) (self : CycleMAE)
    (x original_x : list image) (mask_ratio : Q)
  : M (list (list (list vec)) * nat * scalar) :=
  '(latent, mask, ids_restore) ← Encoder_forward self.(encoder) x mask_ratio;
  first ← lift (spec_decode_all nd self latent ids_restore original_x mask);
  let pred_list := first.*1 in
  let loss_recons_list := first.*2 in
  l0 ← lift (index loss_recons_list 0);
  let bz := length l0 / nd in
  loss_recons ← lift (spec_recons_loss nd loss_recons_list bz mask);
  mret (pred_list, bz, loss_recons).

Definition spec_forward_cycle (nd : nat) (self : CycleMAE)
    (original_x : list image) (mask_ratio : Q) (bz : nat)
    (pred_list : list (list (list vec)))
  : M (scalar * list (list (list (list vec)))) :=
  cyc ← mapM (λ d, pred_d ← lift (index pred_list d);
                   spec_cycle_step nd self original_x mask_ratio bz pred_d)
             (seq 0 nd);
  let loss_cycle := foldl sadd (Fin 0) cyc.*1 in
  let mid_feature_list :=
    (λ j, omap (λ mids : list (list (list vec)), mids !! j) cyc.*2) <$> seq 0 nd in
  mret (loss_cycle, mid_feature_list).

Definition spec_forward_terms (self : CycleMAE) (x original_x : list image)
    (mask_ratio : Q) : M (scalar * scalar * scalar) :=
  let nd := self.(num_domains) in
  '(pred_list, bz, loss_recons) ←
    spec_forward_recons nd self x original_x mask_ratio;
  '(loss_cycle, mid_feature_list) ←
    spec_forward_cycle nd self original_x mask_ratio bz pred_list;
  loss_contrastive ← lift (spec_contrastive_loss nd mid_feature_list);
  mret (loss_recons, loss_cycle, loss_contrastive).

End Forward.

(** ** Shapes

    Nested lists can be ragged, tensors cannot: statements about whole
    tensors say which shape their arguments have. *)

Definition shape2 {A} (n m : nat) (t : list (list A)) : Prop :=
  length t = n ∧ Forall (λ r, length r = m) t.

Definition image_shape (C H W : nat) (img : image) : Prop :=
  length img = C ∧ Forall (shape2 H W) img.

(** Row [r] of the scored tensor when the batch is cut into groups of [bz]
    rows and group [g] is scored on the per-patch losses [f g]: row [r]
    of the losses of decoder [r / bz], in the original row order. *)
Definition diagonal_rows (bz : nat) (f : nat → list (list Q)) (N : nat)
  : list (list Q) :=
  (λ r, nth r (f (r / bz)) []) <$> seq 0 N.

(** The per-patch mean squared error over the pixel dimension, for a
    prediction and a target of one shape. *)
Definition same_shape3 (a b : list (list vec)) : Prop :=
  Forall2 (Forall2 (λ u v : vec, length u = length v)) a b.

Definition per_patch_mse (pred target : list (list vec)) : list (list Q) :=
  zip_with (zip_with (λ u v, mean ((λ d, d ^ 2)%Q <$> zip_with Qminus u v)))
    pred target.

(** [sum(l * mask) / sum(mask)] on tensors of one shape. *)
Definition masked_average (l mask : list (list Q)) : scalar :=
  sdiv (sum2 (zip_with (zip_with Qmult) l mask)) (sum2 mask).

(** ** A small instance

    Patches of one pixel, images of 2 x 2 pixels (four patches), identity
    layers throughout; decoder [i] is told apart by its mask token. *)

Definition ex_zero : vec := [0%Q; 0%Q; 0%Q].

Definition ex_encoder : Encoder :=
  {| patch_embed := λ img, patchify_sample 1 2 2 (flat3 img);
     patch_size := 1;
     cls_token := ex_zero;
     pos_embed := replicate 5 ex_zero;
     blocks := [id];
     norm := id |}.

Definition ex_decoder (i : nat) : Decoder :=
  {| num_patches := 4;
     decoder_embed := id;
     mask_token := [inject_Z (Z.of_nat i); 9%Q; 9%Q];
     decoder_pos_embed := replicate 5 ex_zero;
     decoder_blocks := [id];
     decoder_norm := id;
     decoder_pred := id |}.

Definition ex_rand (k n l : nat) : Q :=
  inject_Z (Z.of_nat ((k * 7 + n * 3 + l * 5) mod 11)).

(** The image whose pixel [(c, r, w)] is [a + 4 c + 2 r + w]. *)
Definition ex_img (a : Z) : image :=
  (λ c, (λ r, (λ w, inject_Z (a + Z.of_nat (c * 4 + r * 2 + w)))
              <$> seq 0 2) <$> seq 0 2) <$> seq 0 3.

Definition ex_batch (n : nat) : list image :=
  (λ i, ex_img (Z.of_nat i)) <$> seq 0 n.

Definition ex_model (num_domains : nat) : CycleMAE :=
  CycleMAE_init num_domains ex_encoder ex_decoder false.

(** Stand-ins for the two library functions, enough to run the instance. *)
Definition ex_log_softmax (l : list Q) : list Q := l.
Definition ex_pow_half (q : Q) : Q := q.

(** The values the forward pass goes through on the three-domain model
    and three images with a mask ratio of 3/4. *)
Definition unOk {A} (d : A) (r : result A) : A :=
  match r with
  | Ok a => a
  | Raise _ => d
  end.

Definition ex_preds : list (list (list vec)) :=
  (unOk (([], 0, NonFinite), 0)
     (forward_recons ex_rand ex_pow_half (ex_model 3)
        (ex_batch 3) (ex_batch 3) (3 # 4) 0)).1.1.1.

Definition ex_imgs (d : nat) : list image :=
  unOk [] (unpatchify (ex_model 3) (nth d ex_preds [])).

Definition ex_pass (d : nat)
  : list (list vec) * list (list Q) * list (list nat) :=
  (unOk (([], [], []), 0)
     (Encoder_forward ex_rand ex_encoder (ex_imgs d) (3 # 4) (1 + d))).1.

Definition ex_latent (d : nat) : list (list vec) := (ex_pass d).1.1.
Definition ex_mask (d : nat) : list (list Q) := (ex_pass d).1.2.
Definition ex_ids (d : nat) : list (list nat) := (ex_pass d).2.

Definition ex_decoded (d j : nat) : list (list vec) * list (list vec) :=
  unOk ([], []) (Decoder_forward (ex_decoder j) (ex_latent d) (ex_ids d)).

Definition ex_full (d j : nat) : list (list Q) :=
  unOk [] (forward_loss ex_pow_half (ex_model 3) (ex_batch 3)
             (ex_decoded d j).1 (ex_mask d)).

(** A grey-scale image: one channel of 1 x 1 pixels. *)
Definition ex_grey : image := [[[1%Q]]].

(** The first pass of the forward pass on the three-domain model and three
    images: what the encoder returns, what decoder [d] makes of it, and the
    per-patch losses of its prediction. *)
Definition ex_first : list (list vec) * list (list Q) * list (list nat) :=
  (unOk (([], [], []), 0)
     (Encoder_forward ex_rand ex_encoder (ex_batch 3) (3 # 4) 0)).1.

Definition ex_first_decoded (d : nat) : list (list vec) * list (list vec) :=
  unOk ([], []) (Decoder_forward (ex_decoder d) ex_first.1.1 ex_first.2).

Definition ex_first_loss (d : nat) : list (list Q) :=
  unOk [] (forward_loss ex_pow_half (ex_model 3) (ex_batch 3)
             (ex_first_decoded d).1 ex_first.1.2).

(** The mid features of the three cycle passes, listed per decoder, and
    the feature bank of each decoder. *)
Definition ex_dmfl : list (list (list (list vec))) :=
  (λ j, (λ d, (ex_decoded d j).2) <$> seq 0 3) <$> seq 0 3.

Definition ex_bank (d : nat) : list (list (list vec)) :=
  unOk [] (feature_bank (nth d ex_dmfl [])).

(** A mid feature of one row, told apart by its entry. *)
Definition ex_feat (a : Z) : list (list vec) := [[[inject_Z a]]].

(** The number of entries that [l[:k]] selects from a list of [n]
    entries: [k] clamped to [n], and for a negative [k] all but the last
    [-k] entries. *)
Definition slice_len (k : Z) (n : nat) : nat :=
  if (0 <=? k)%Z then Z.to_nat k `min` n else n - Z.to_nat (- k).

(** The token counts of an encoder convert to floats without rounding:
    the count of patch tokens of an image and the count of rows of the
    positional embedding are below [2 ^ 53], as the counts of every
    tensor that fits a memory are, so that [L] in
    [L * (1 - mask_ratio)] is the float it is converted to. *)
Definition token_counts_exact (enc : Encoder) : Prop :=
  (∀ img, (Z.of_nat (length (enc.(patch_embed) img)) < 2 ^ 53)%Z) ∧
  (Z.of_nat (length enc.(pos_embed)) <= 2 ^ 53)%Z.

(** At this mask ratio the encoder masks no patch: every mask it returns
    is all zero. *)
Definition masks_nothing (rand_source : nat → nat → nat → Q) (enc : Encoder)
    (mask_ratio : Q) : Prop :=
  ∀ imgs k k' latent mask ids,
    Encoder_forward rand_source enc imgs mask_ratio k
    = Ok ((latent, mask, ids), k') →
    Forall (Forall (λ v, v = 0%Q)) mask.

(** Two floats: [0.30000000000000004], the float after [0.3], and the
    float nearest to [1e-17]. *)
Definition ex_ratio_03 : Q := (1351079888211149 # 4503599627370496)%Q.
Definition ex_ratio_tiny : Q :=
  (6490371073168535 # 649037107316853453566312041152512)%Q.

(** ** Hardware floats

    The kernel's primitive floats are binary64.  [SF2Q] is the rational
    value of a finite float, and [float_agrees] compares an operation of
    the hardware on two floats with [round64] of the exact result: the
    same reduced fraction, or infinity on the one side and
    [OverflowError] on the other. *)
Definition SF2Q (x : SpecFloat.spec_float) : option Q :=
  match x with
  | SpecFloat.S754_zero _ => Some 0%Q
  | SpecFloat.S754_finite s m e =>
      let v := if (0 <=? e)%Z then inject_Z (Zpos m * 2 ^ e)
               else Qmake (Zpos m) (Z.to_pos (2 ^ (- e))) in
      Some (Qred (if s then Qopp v else v))
  | _ => None
  end.

Definition float_agrees (op : PrimFloat.float → PrimFloat.float → PrimFloat.float)
    (opQ : Q → Q → Q) (a b : SpecFloat.spec_float) : bool :=
  match SF2Q a, SF2Q b with
  | Some qa, Some qb =>
      match SF2Q (FloatOps.Prim2SF (op (FloatOps.SF2Prim a) (FloatOps.SF2Prim b))),
            round64 (opQ qa qb) with
      | Some r, Ok r' => (Qnum r =? Qnum r')%Z && (Qden r =? Qden r')%positive
      | None, Raise OverflowError => true
      | _, _ => false
      end
  | _, _ => false
  end.

(** The floats 0, 1, 0.75, 0.3, 0.30000000000000004, 1e-17, 0.9, 0.1, 10,
    4, 7, [2 ^ 53 - 1], [2 ^ 1023], the least positive float, and -1.5. *)
Definition ex_floats : list SpecFloat.spec_float :=
  [SpecFloat.S754_zero false;
   SpecFloat.S754_finite false 1 0;
   SpecFloat.S754_finite false 3 (-2);
   SpecFloat.S754_finite false 5404319552844595 (-54);
   SpecFloat.S754_finite false 1351079888211149 (-52);
   SpecFloat.S754_finite false 6490371073168535 (-109);
   SpecFloat.S754_finite false 8106479329266893 (-53);
   SpecFloat.S754_finite false 3602879701896397 (-55);
   SpecFloat.S754_finite false 5 1;
   SpecFloat.S754_finite false 1 2;
   SpecFloat.S754_finite false 7 0;
   SpecFloat.S754_finite false 9007199254740991 0;
   SpecFloat.S754_finite false 1 1023;
   SpecFloat.S754_finite false 1 (-1074);
   SpecFloat.S754_finite true 3 (-1)].

(** * Facts *)

(** ** The error monad *)

Lemma bind_Ok {A B} (f : A → result B) (r : result A) (b : B) :
  r ≫= f = Ok b ↔ ∃ a, r = Ok a ∧ f a = Ok b.
Proof.
  destruct r as [a|e]; simpl; split.
  - eauto.
  - intros (a' & [= ->] & H). exact H.
  - discriminate.
  - intros (a' & [=] & _).
Qed.

Lemma M_bind_run {A B} (f : A → M B) (c : M A) (k : nat) :
  (c ≫= f) k = match c k with
               | Ok (a, k') => f a k'
               | Raise e => Raise e
               end.
Proof. reflexivity. Qed.

Lemma M_bind_Ok {A B} (f : A → M B) (c : M A) (k k2 : nat) (b : B) :
  (c ≫= f) k = Ok (b, k2) ↔ ∃ a k1, c k = Ok (a, k1) ∧ f a k1 = Ok (b, k2).
Proof.
  rewrite M_bind_run. destruct (c k) as [[a k1]|e]; split.
  - eauto.
  - intros (a' & k1' & [= -> ->] & H). exact H.
  - discriminate.
  - intros (a' & k1' & [=] & _).
Qed.

Lemma lift_Ok {A} (r : result A) (k k' : nat) (a : A) :
  lift r k = Ok (a, k') ↔ r = Ok a ∧ k' = k.
Proof.
  unfold lift. destruct r; split.
  - by intros [= -> ->].
  - by intros [[= ->] ->].
  - discriminate.
  - by intros [[=] _].
Qed.

Lemma lift_run_Ok {A} (a : A) (k : nat) : lift (Ok a) k = Ok (a, k).
Proof. reflexivity. Qed.

Lemma bind_Ok_run {A B} (f : A → result B) (a : A) : Ok a ≫= f = f a.
Proof. reflexivity. Qed.

Lemma mapM_cons {A B} (f : A → result B) (x : A) (l : list A) :
  mapM f (x :: l) = y ← f x; k ← mapM f l; Ok (y :: k).
Proof. reflexivity. Qed.

Lemma mapM_Ok {A B} (f : A → result B) (l : list A) (k : list B) :
  mapM f l = Ok k ↔ Forall2 (λ x y, f x = Ok y) l k.
Proof.
  revert k. induction l as [|x l IH]; intros k.
  - split.
    + intros [= <-]. constructor.
    + intros H. inversion H. reflexivity.
  - rewrite mapM_cons. split.
    + intros H. apply bind_Ok in H as (y & Hy & H).
      apply bind_Ok in H as (k' & Hk & [= <-]).
      constructor; [exact Hy | by apply IH].
    + intros H. inversion H as [|? y ? k' Hy Hk]; subst.
      apply IH in Hk. rewrite Hy, Hk. reflexivity.
Qed.

Lemma mapM_Ok_length {A B} (f : A → result B) (l : list A) (k : list B) :
  mapM f l = Ok k → length k = length l.
Proof. intros H. apply mapM_Ok in H. symmetry. exact (Forall2_length _ _ _ H). Qed.

Lemma mapM_total {A B} (f : A → result B) (g : A → B) (l : list A) :
  (∀ x, x ∈ l → f x = Ok (g x)) → mapM f l = Ok (g <$> l).
Proof.
  intros H. apply mapM_Ok. induction l as [|x l IH]; simpl; constructor.
  - apply H. left.
  - apply IH. intros y Hy. apply H. by right.
Qed.

Lemma mapM_Raise {A B} (f : A → result B) (l : list A) (x : A) (e : exn) :
  x ∈ l → f x = Raise e → ∃ e', mapM f l = Raise e'.
Proof.
  intros Hin Hx. destruct (mapM f l) as [k|e'] eqn:Hm; [|eauto].
  apply mapM_Ok in Hm. apply list_elem_of_lookup in Hin as [i Hi].
  destruct (Forall2_lookup_l _ _ _ _ _ Hm Hi) as (y & _ & Hy). congruence.
Qed.

(** ** Gather *)

Lemma gather_Ok {A} (x : list A) (ids : list nat) (r : list A) :
  gather x ids = Ok r ↔ Forall2 (λ i a, x !! i = Some a) ids r.
Proof.
  unfold gather. rewrite mapM_Ok.
  split; intros H; (eapply Forall2_impl; [exact H|]); intros i a; simpl.
  - destruct (x !! i); [intros [= ->]; reflexivity | discriminate].
  - intros ->. reflexivity.
Qed.

Lemma gather_length {A} (x : list A) (ids : list nat) (r : list A) :
  gather x ids = Ok r → length r = length ids.
Proof. apply mapM_Ok_length. Qed.

Lemma gather_lookup {A} (x : list A) (ids : list nat) (r : list A) (n i : nat) :
  gather x ids = Ok r → ids !! n = Some i → r !! n = x !! i.
Proof.
  intros H Hi. apply gather_Ok in H.
  destruct (Forall2_lookup_l _ _ _ _ _ H Hi) as (a & -> & Ha). by rewrite Ha.
Qed.

Lemma gather_total {A} (x : list A) (ids : list nat) :
  Forall (λ i, i < length x) ids → ∃ r, gather x ids = Ok r.
Proof.
  induction 1 as [|i ids Hi _ [r Hr]].
  - by exists [].
  - apply lookup_lt_is_Some in Hi as [a Ha]. exists (a :: r).
    apply gather_Ok. apply gather_Ok in Hr. by constructor.
Qed.

Lemma gather_dim1_Ok {A} (x : list (list A)) (ids : list (list nat))
    (rs : list (list A)) :
  gather_dim1 x ids = Ok rs ↔
  length ids ≤ length x ∧ Forall2 (λ p r, gather p.1 p.2 = Ok r) (zip x ids) rs.
Proof.
  revert x rs. induction ids as [|i ids IH]; intros x rs.
  - destruct x; simpl; (split; [intros [= <-]; split; [lia | constructor]|]).
    + intros [_ H]. inversion H. reflexivity.
    + intros [_ H]. inversion H. reflexivity.
  - destruct x as [|s x]; simpl.
    + split; [discriminate | intros [? _]; lia].
    + split.
      * intros H. apply bind_Ok in H as (r & Hr & H).
        apply bind_Ok in H as (rs' & Hrs & [= <-]).
        apply IH in Hrs as [? ?]. split; [lia|]. by constructor.
      * intros [Hl H]. inversion H as [|? r ? rs' Hr Hrs]; subst.
        simpl in Hr. rewrite Hr. simpl.
        assert (gather_dim1 x ids = Ok rs') as ->; [|reflexivity].
        apply IH. split; [lia | done].
Qed.

Lemma gather_dim1_length {A} (x : list (list A)) (ids : list (list nat))
    (rs : list (list A)) :
  gather_dim1 x ids = Ok rs → length rs = length ids ∧ length ids ≤ length x.
Proof.
  intros H. apply gather_dim1_Ok in H as [Hl H].
  apply Forall2_length in H. rewrite length_zip in H. lia.
Qed.

Lemma gather_dim1_lookup {A} (x : list (list A)) (ids : list (list nat))
    (rs : list (list A)) (n : nat) (r : list A) :
  gather_dim1 x ids = Ok rs → rs !! n = Some r →
  ∃ s i, x !! n = Some s ∧ ids !! n = Some i ∧ gather s i = Ok r.
Proof.
  intros H Hr. apply gather_dim1_Ok in H as [_ H].
  destruct (Forall2_lookup_r _ _ _ _ _ H Hr) as ([s i] & Hz & Hg).
  apply lookup_zip_Some in Hz as [? ?]. eauto.
Qed.

Lemma gather_dim1_total {A} (x : list (list A)) (ids : list (list nat)) :
  length ids ≤ length x →
  (∀ n s i, x !! n = Some s → ids !! n = Some i → Forall (λ j, j < length s) i) →
  ∃ rs, gather_dim1 x ids = Ok rs.
Proof.
  revert x. induction ids as [|i ids IH]; intros x Hl H.
  - destruct x; by exists [].
  - destruct x as [|s x]; simpl in Hl; [lia|].
    destruct (gather_total s i) as [r Hr]; [by apply (H 0)|].
    destruct (IH x) as [rs Hrs]; [lia | intros n; apply (H (S n)) |].
    exists (r :: rs). simpl. rewrite Hr. simpl. rewrite Hrs. reflexivity.
Qed.

(** ** Argsort *)

Section Argsort.
Context {K : Type} (leb : K → K → bool).

Lemma insert_key_perm (x : K * nat) (l : list (K * nat)) :
  insert_key leb x l ≡ₚ x :: l.
Proof.
  induction l as [|y l IH]; simpl; [done|].
  destruct (leb x.1 y.1); [done|].
  rewrite IH. apply Permutation_swap.
Qed.

Lemma insertion_sort_perm (l : list (K * nat)) :
  foldr (insert_key leb) [] l ≡ₚ l.
Proof.
  induction l as [|x l IH]; simpl; [done|].
  by rewrite insert_key_perm, IH.
Qed.

Lemma argsort_perm (keys : list K) :
  argsort leb keys ≡ₚ seq 0 (length keys).
Proof.
  unfold argsort. rewrite insertion_sort_perm.
  rewrite snd_zip; [done|]. by rewrite length_seq.
Qed.

Lemma argsort_length (keys : list K) :
  length (argsort leb keys) = length keys.
Proof. by rewrite argsort_perm, length_seq. Qed.

Context (leb_total : ∀ a b, leb a b = true ∨ leb b a = true).
Context (leb_trans : ∀ a b c, leb a b = true → leb b c = true → leb a c = true).

Lemma insert_key_sorted (x : K * nat) (l : list (K * nat)) :
  Sorted (key_le leb) l → Sorted (key_le leb) (insert_key leb x l).
Proof.
  induction l as [|y l IH]; simpl; intros Hs.
  - repeat constructor.
  - destruct (leb x.1 y.1) eqn:Hxy.
    + constructor; [done|]. by constructor.
    + apply Sorted_inv in Hs as [Hs Hhd]. constructor; [by apply IH|].
      assert (key_le leb y x) as Hyx.
      { unfold key_le. destruct (leb_total x.1 y.1); congruence. }
      destruct l as [|z l]; simpl.
      * by constructor.
      * destruct (leb x.1 z.1); constructor; [done|].
        by apply HdRel_inv in Hhd.
Qed.

Lemma insertion_sort_sorted (l : list (K * nat)) :
  Sorted (key_le leb) (foldr (insert_key leb) [] l).
Proof.
  induction l as [|x l IH]; simpl; [constructor|].
  by apply insert_key_sorted.
Qed.
End Argsort.

Lemma Sorted_le_seq (j n : nat) : Sorted le (seq j n).
Proof.
  revert j. induction n as [|n IH]; intros j; simpl; [constructor|].
  constructor; [apply IH|]. destruct n; simpl; constructor. lia.
Qed.

(** Sorting a permutation of [0, L) by value puts value [j] at position
    [j]: the argsort of a permutation is its inverse. *)
Lemma argsort_inverse_at (p : list nat) (L j : nat) :
  p ≡ₚ seq 0 L → j < L →
  ∃ i, argsort Nat.leb p !! j = Some i ∧ p !! i = Some j.
Proof.
  intros Hp Hj. unfold argsort.
  set (s := foldr (insert_key Nat.leb) [] (zip p (seq 0 (length p)))).
  assert (s ≡ₚ zip p (seq 0 (length p))) as Hperm
    by apply insertion_sort_perm.
  assert (s.*1 = seq 0 L) as Hfst.
  { apply (Sorted_unique le).
    - apply (Sorted_fmap _ (key_le Nat.leb)); [|apply insertion_sort_sorted].
      + intros x y H. by apply Nat.leb_le.
      + intros a b. destruct (Nat.leb_spec a b), (Nat.leb_spec b a); auto; lia.
    - apply Sorted_le_seq.
    - rewrite Hperm, fst_zip; [done|]. by rewrite length_seq. }
  assert (s.*1 !! j = Some j) as Hl.
  { rewrite Hfst. by apply lookup_seq_lt. }
  rewrite list_lookup_fmap in Hl.
  destruct (s !! j) as [[v i]|] eqn:Hs; [|discriminate].
  simpl in Hl. injection Hl as ->.
  exists i. split.
  - by rewrite list_lookup_fmap, Hs.
  - assert ((j, i) ∈ zip p (seq 0 (length p))) as Hin.
    { rewrite <- Hperm. by apply list_elem_of_lookup_2 in Hs. }
    apply list_elem_of_lookup in Hin as [n Hn].
    apply lookup_zip_Some in Hn as [Hpn Hsn].
    apply lookup_seq in Hsn as [-> _]. exact Hpn.
Qed.

Lemma argsort_inverse (p : list nat) (L i j : nat) :
  p ≡ₚ seq 0 L → p !! i = Some j → argsort Nat.leb p !! j = Some i.
Proof.
  intros Hp Hi.
  assert (j < L) as Hj.
  { apply list_elem_of_lookup_2 in Hi. rewrite Hp in Hi.
    apply elem_of_seq in Hi. lia. }
  destruct (argsort_inverse_at p L j Hp Hj) as (i' & Hs & Hi').
  assert (NoDup p) as Hnd by (rewrite Hp; apply NoDup_seq).
  by rewrite (NoDup_lookup _ _ _ _ Hnd Hi Hi').
Qed.

(** ** Exact sums *)

Lemma Qplus_swap (x y z : Q) : (x + (y + z) = y + (x + z))%Q.
Proof.
  destruct x as [a b], y as [c d], z as [e f]. unfold Qplus; simpl.
  f_equal.
  - rewrite !Pos2Z.inj_mul. ring.
  - rewrite !Pos.mul_assoc. f_equal. apply Pos.mul_comm.
Qed.

Lemma Qsum_Permutation (l k : list Q) : l ≡ₚ k → Qsum l = Qsum k.
Proof.
  induction 1 as [|x l k _ IH|x y l|l k k' _ IH1 _ IH2]; simpl.
  - reflexivity.
  - by rewrite IH.
  - apply Qplus_swap.
  - by rewrite IH1.
Qed.


Lemma Qsum_zeros (l : list Q) : Forall (λ v, v = 0%Q) l → Qsum l = 0%Q.
Proof. induction 1 as [|x l -> _ IH]; simpl; [done|]. by rewrite IH. Qed.

Lemma Qsum_zeros_ones (c n : nat) :
  Qsum (replicate c 0%Q ++ replicate n 1%Q) = inject_Z (Z.of_nat n).
Proof.
  induction c as [|c IH]; simpl.
  - induction n as [|n IH]; [done|].
    change (replicate (S n) 1%Q) with (1%Q :: replicate n 1%Q).
    simpl. rewrite IH. unfold Qplus, inject_Z; simpl. f_equal. lia.
  - rewrite IH. unfold Qplus, inject_Z; simpl. f_equal. lia.
Qed.

(** ** The number of kept patches *)

Lemma py_int_nonneg (q : Q) : (0 <= q)%Q → py_int q = Qfloor q.
Proof.
  destruct q as [n d]. unfold py_int, Qfloor, Qle; simpl. intros H.
  apply Z.quot_div_nonneg; lia.
Qed.

Lemma div_half_even_bounds (num den lo hi : Z) :
  (0 < den)%Z → (lo * den <= num)%Z → (num <= hi * den)%Z →
  (lo <= div_half_even num den <= hi)%Z.
Proof.
  intros Hd Hlo Hhi. unfold div_half_even.
  pose proof (Z.div_mod num den ltac:(lia)) as Hdm.
  pose proof (Z.mod_pos_bound num den Hd) as Hr.
  set (f := (num / den)%Z) in *. set (r := (num mod den)%Z) in *.
  destruct (Z.compare_spec (2 * r) den); [destruct (Z.even f)| |]; nia.
Qed.

Lemma round64_comp (q q' : Q) : (q == q')%Q → round64 q = round64 q'.
Proof. intros H. unfold round64. by rewrite (Qred_complete _ _ H). Qed.

(** Rounding keeps a number between two integers that are floats. *)
Lemma round64_bounds (q : Q) (lo hi : Z) :
  (0 <= lo)%Z → (hi < 2 ^ 53)%Z →
  (inject_Z lo <= q)%Q → (q <= inject_Z hi)%Q →
  ∃ r, round64 q = Ok r ∧ (inject_Z lo <= r)%Q ∧ (r <= inject_Z hi)%Q ∧
       Qred r = r.
Proof.
  intros Hlo Hhi Hq1 Hq2. unfold round64.
  rewrite <- (Qred_correct q) in Hq1, Hq2.
  destruct (Qred q) as [a b]. unfold Qle in Hq1, Hq2. simpl in Hq1, Hq2.
  cbn [Qnum Qden].
  assert (0 <= a)%Z as Ha by nia.
  rewrite (Z.abs_eq a Ha).
  destruct (Z.eqb_spec a 0) as [->|Hne].
  { exists 0%Q. split; [done|]. unfold Qle; simpl. split; [lia|]. split; [lia|done]. }
  assert (0 < a)%Z as Hapos by lia.
  rewrite (Z.sgn_pos a Hapos).
  set (g := (Z.log2 a - Z.log2 (Z.pos b))%Z).
  set (lg := if (if (0 <=? g)%Z then (2 ^ g * Z.pos b <=? a)%Z
                 else (Z.pos b <=? a * 2 ^ (- g))%Z)
             then g else (g - 1)%Z).
  assert (lg <= 52)%Z as Hlg.
  { unfold lg. destruct (0 <=? g)%Z eqn:Hg0.
    - apply Z.leb_le in Hg0. destruct (2 ^ g * Z.pos b <=? a)%Z eqn:Hc.
      + apply Z.leb_le in Hc.
        destruct (Z.le_gt_cases 53 g) as [Hbig|]; [|lia].
        pose proof (Z.pow_le_mono_r 2 53 g ltac:(lia) Hbig). nia.
      + assert (g < 54)%Z; [|lia]. unfold g.
        pose proof (Z.log2_spec (Z.pos b) ltac:(lia)) as [_ Hb].
        assert (a < 2 ^ (Z.log2 (Z.pos b) + 54))%Z as Hlt.
        { replace (Z.log2 (Z.pos b) + 54)%Z with (Z.succ (Z.log2 (Z.pos b)) + 53)%Z
            by lia.
          rewrite Z.pow_add_r by (pose proof (Z.log2_nonneg (Z.pos b)); lia).
          nia. }
        apply Z.log2_lt_pow2 in Hlt; lia.
    - apply Z.leb_gt in Hg0. destruct (Z.pos b <=? a * 2 ^ (- g))%Z; lia. }
  set (e := Z.max (lg - 52) (-1074)).
  assert (e <= 0)%Z as He by lia.
  rewrite (Z.max_l 0 e) by lia. rewrite (Z.max_r 0 (- e)) by lia.
  rewrite Z.pow_0_r, !Z.mul_1_r, Z.mul_1_l.
  assert (0 < 2 ^ (- e))%Z as Hp by (apply Z.pow_pos_nonneg; lia).
  destruct (div_half_even_bounds (a * 2 ^ (- e)) (Z.pos b)
              (lo * 2 ^ (- e)) (hi * 2 ^ (- e))) as [Hn1 Hn2]; [lia | nia | nia |].
  set (n := div_half_even (a * 2 ^ (- e)) (Z.pos b)) in *.
  destruct (Z.leb_spec (2 ^ 1024 * 2 ^ (- e)) n) as [Hov|_].
  { exfalso. assert (2 ^ 53 <= 2 ^ 1024)%Z by (apply Z.pow_le_mono_r; lia). nia. }
  eexists. split; [reflexivity|].
  split; [|split; [|apply Qcanon.Qred_involutive]].
  - rewrite Qred_correct. unfold Qle; simpl. rewrite Z2Pos.id by lia. lia.
  - rewrite Qred_correct. unfold Qle; simpl. rewrite Z2Pos.id by lia. lia.
Qed.

Lemma float_of_int_exact (z : Z) :
  (0 <= z < 2 ^ 53)%Z → float_of_int z = Ok (inject_Z z).
Proof.
  intros Hz. unfold float_of_int.
  destruct (round64_bounds (inject_Z z) z z) as (r & Hr & H1 & H2 & Hred);
    [lia | lia | apply Qle_refl | apply Qle_refl |].
  rewrite Hr. f_equal. rewrite <- Hred, <- (inject_Z_Qred z).
  apply Qred_complete. by apply Qle_antisym.
Qed.

Lemma py_int_bounds (q : Q) (hi : Z) :
  (0 <= q)%Q → (q <= inject_Z hi)%Q → (0 <= py_int q <= hi)%Z.
Proof.
  destruct q as [n d]. unfold py_int, Qle; simpl. intros H0 H1.
  rewrite Z.quot_div_nonneg by lia. split.
  - apply Z.div_pos; lia.
  - apply Z.div_le_upper_bound; lia.
Qed.

(** For a mask ratio in [0, 1] the count of kept patches is computed
    without overflow and lies between 0 and [L]. *)
Lemma len_keep_bounds (L : nat) (m : Q) :
  (0 <= m)%Q → (m <= 1)%Q → (Z.of_nat L < 2 ^ 53)%Z →
  ∃ lk, len_keep_of L m = Ok lk ∧ (0 <= lk <= Z.of_nat L)%Z.
Proof.
  intros H0 H1 HL. unfold len_keep_of, fsub, fmul.
  destruct (round64_bounds (1 - m) 0 1) as (d & -> & Hd0 & Hd1 & _);
    [lia | lia | unfold inject_Z; lra | unfold inject_Z; lra |].
  rewrite float_of_int_exact by lia. simpl.
  assert (0 <= inject_Z (Z.of_nat L))%Q as Hl by (unfold Qle; simpl; lia).
  destruct (round64_bounds (inject_Z (Z.of_nat L) * d) 0 (Z.of_nat L))
    as (p & -> & Hp0 & Hp1 & _); [lia | lia | | |].
  - change (inject_Z 0) with 0%Q in *. by apply Qmult_le_0_compat.
  - change (inject_Z 1) with 1%Q in *.
    rewrite <- (Qmult_1_r (inject_Z (Z.of_nat L))) at 2.
    rewrite !(Qmult_comm (inject_Z (Z.of_nat L))).
    by apply Qmult_le_compat_r.
  - simpl. eexists. split; [reflexivity|]. by apply py_int_bounds.
Qed.

Lemma len_keep_zero_ratio (L : nat) (m : Q) :
  (m == 0)%Q → (Z.of_nat L < 2 ^ 53)%Z → len_keep_of L m = Ok (Z.of_nat L).
Proof.
  intros Hm HL. unfold len_keep_of, fsub, fmul.
  assert (round64 (1 - m) = Ok 1%Q) as ->.
  { rewrite (round64_comp _ (inject_Z 1)) by (rewrite Hm; reflexivity).
    apply (float_of_int_exact 1). lia. }
  rewrite float_of_int_exact by lia. simpl.
  rewrite (round64_comp _ (inject_Z (Z.of_nat L))) by ring.
  fold (float_of_int (Z.of_nat L)). rewrite float_of_int_exact by lia. simpl.
  f_equal. unfold py_int. simpl. apply Z.quot_1_r.
Qed.

(** When neither operation rounds, [len_keep] is the floor of the exact
    product. *)
Lemma len_keep_exact (L : nat) (m d p : Q) :
  (m <= 1)%Q → (Z.of_nat L < 2 ^ 53)%Z →
  fsub 1 m = Ok d → fmul (inject_Z (Z.of_nat L)) d = Ok p →
  (d == 1 - m)%Q → (p == inject_Z (Z.of_nat L) * d)%Q →
  len_keep_of L m = Ok (Qfloor (inject_Z (Z.of_nat L) * (1 - m))).
Proof.
  intros Hm HL Hd Hp Hde Hpe. unfold len_keep_of.
  rewrite Hd, bind_Ok_run, float_of_int_exact by lia.
  rewrite bind_Ok_run, Hp, bind_Ok_run. f_equal.
  assert (p == inject_Z (Z.of_nat L) * (1 - m))%Q as Hq
    by (by rewrite Hpe, Hde).
  assert (0 <= inject_Z (Z.of_nat L))%Q as Hl by (unfold Qle; simpl; lia).
  rewrite py_int_nonneg.
  - by apply Qfloor_comp.
  - rewrite Hq. apply Qmult_le_0_compat; [exact Hl | lra].
Qed.

(** The float arithmetic at work: [0.1] is the float
    [3602879701896397 / 2 ^ 55], the float sum of [0.1] and [0.2] is
    [0.30000000000000004], a mask ratio of [1e-17] is lost in
    [1 - mask_ratio], and [10 * (1 + 2 ^ 1023)] has no float. *)
Lemma round64_examples :
  round64 (1 # 10) = Ok (3602879701896397 # 36028797018963968)%Q ∧
  (r1 ← round64 (1 # 10); r2 ← round64 (2 # 10); round64 (r1 + r2))
  = Ok ex_ratio_03 ∧
  round64 (1 # 100000000000000000) = Ok ex_ratio_tiny ∧
  fsub 1 ex_ratio_tiny = Ok 1%Q ∧
  len_keep_of 4 ex_ratio_tiny = Ok 4%Z ∧
  len_keep_of 4 (3 # 4) = Ok 1%Z ∧
  len_keep_of 4 (3 # 2) = Ok (-2)%Z ∧
  len_keep_of 10 (- inject_Z (2 ^ 1023)) = Raise OverflowError.
Proof. repeat split; vm_compute; reflexivity. Qed.

(** On the sample floats, [round64] of the exact difference and of the
    exact product is the difference and the product of the hardware. *)
Lemma round64_binary64 :
  forallb (λ a, forallb (λ b, float_agrees PrimFloat.sub Qminus a b
                              && float_agrees PrimFloat.mul Qmult a b)
                        ex_floats) ex_floats = true.
Proof. vm_compute. reflexivity. Qed.

(** From [2 ^ 53] on the conversion of [L] rounds: with a mask ratio of 0
    and [2 ^ 53 + 1] tokens, [len_keep] is [2 ^ 53] and not [L]. *)
Lemma len_keep_zero_ratio_rounds :
  len_keep_of (Z.to_nat (2 ^ 53 + 1)) 0 = Ok (2 ^ 53)%Z.
Proof.
  unfold len_keep_of. rewrite Z2Nat.id by lia. vm_compute. reflexivity.
Qed.

(** ** Random masking *)

Lemma mask_base_eq (L : nat) (lk : Z) :
  (0 <= lk <= Z.of_nat L)%Z →
  mask_base L lk =
  replicate (Z.to_nat lk) 0%Q ++ replicate (L - Z.to_nat lk) 1%Q.
Proof.
  intros H. unfold mask_base, py_slice_to.
  destruct (Z.leb_spec 0 lk) as [_|]; [|lia].
  rewrite length_take, length_replicate.
  replace (Z.to_nat lk `min` L) with (Z.to_nat lk) by lia.
  by rewrite drop_replicate.
Qed.

Lemma mask_base_length (L : nat) (lk : Z) : length (mask_base L lk) = L.
Proof.
  unfold mask_base. rewrite length_app, length_replicate, length_drop.
  rewrite length_replicate.
  assert (length (py_slice_to lk (replicate L 1%Q)) ≤ L); [|lia].
  unfold py_slice_to. destruct (0 <=? lk)%Z; rewrite length_take, length_replicate; lia.
Qed.

Lemma gather_fmap_nth (base : list Q) (ids : list nat) (row : list Q) :
  gather base ids = Ok row → row = (λ i, nth i base 0%Q) <$> ids.
Proof.
  intros H. apply gather_Ok in H.
  induction H as [|i a ids row Hi _ IH]; simpl; [done|].
  f_equal; [|exact IH]. symmetry. by apply nth_lookup_Some.
Qed.

Lemma fmap_nth_seq (base : list Q) :
  (λ i, nth i base 0%Q) <$> seq 0 (length base) = base.
Proof.
  apply list_eq. intros i. rewrite list_lookup_fmap.
  destruct (decide (i < length base)) as [Hi|Hi].
  - rewrite lookup_seq_lt by done. simpl.
    destruct (lookup_lt_is_Some_2 base i Hi) as [a Ha].
    rewrite Ha. f_equal. by apply nth_lookup_Some.
  - rewrite lookup_seq_ge by lia. simpl. symmetry. apply lookup_ge_None. lia.
Qed.

Lemma gather_Permutation (base : list Q) (ids : list nat) (row : list Q) :
  ids ≡ₚ seq 0 (length base) → gather base ids = Ok row → row ≡ₚ base.
Proof.
  intros Hp H. rewrite (gather_fmap_nth _ _ _ H), Hp. by rewrite fmap_nth_seq.
Qed.

Lemma gather_Forall {A} (P : A → Prop) (x : list A) (ids : list nat) (r : list A) :
  Forall P x → gather x ids = Ok r → Forall P r.
Proof.
  intros HP H. apply gather_Ok in H.
  induction H as [|i a ids r Hi _ IH]; constructor; [|exact IH].
  rewrite Forall_forall in HP. apply HP. by apply list_elem_of_lookup_2 in Hi.
Qed.

(** One row of the binary mask: entries 0 or 1, and exactly
    [L - len_keep] ones. *)
Lemma mask_row_facts (L : nat) (lk : Z) (re : list nat) (row : list Q) :
  (0 <= lk <= Z.of_nat L)%Z → re ≡ₚ seq 0 L →
  gather (mask_base L lk) re = Ok row →
  Forall (λ v, v = 0%Q ∨ v = 1%Q) row ∧
  (∀ j v, re !! j = Some v → row !! j = Some (if decide (v < Z.to_nat lk) then 0%Q else 1%Q)) ∧
  Qsum row = inject_Z (Z.of_nat L - lk).
Proof.
  intros Hlk Hp H. split; [|split].
  - eapply gather_Forall; [|exact H].
    rewrite mask_base_eq by done. apply Forall_app. split.
    + apply Forall_replicate. by left.
    + apply Forall_replicate. by right.
  - intros j v Hv. rewrite (gather_lookup _ _ _ _ _ H Hv).
    assert (v < L) as HvL.
    { apply list_elem_of_lookup_2 in Hv. rewrite Hp in Hv.
      apply elem_of_seq in Hv. lia. }
    rewrite mask_base_eq by done. case_decide.
    + rewrite lookup_app_l by (rewrite length_replicate; lia).
      apply lookup_replicate. split; [done | lia].
    + rewrite lookup_app_r by (rewrite length_replicate; lia).
      rewrite length_replicate. apply lookup_replicate. split; [done | lia].
  - rewrite (Qsum_Permutation row (mask_base L lk)).
    + rewrite mask_base_eq by done. rewrite Qsum_zeros_ones. f_equal. lia.
    + apply (gather_Permutation _ re); [|done]. by rewrite mask_base_length.
Qed.

Lemma py_slice_to_subset {A} (k : Z) (l : list A) (a : A) :
  a ∈ py_slice_to k l → a ∈ l.
Proof.
  unfold py_slice_to. destruct (0 <=? k)%Z; apply subseteq_take.
Qed.

Lemma py_slice_to_lookup {A} (k : Z) (l : list A) (i : nat) :
  (0 <= k <= Z.of_nat (length l))%Z →
  length (py_slice_to k l) = Z.to_nat k ∧
  (i < Z.to_nat k → py_slice_to k l !! i = l !! i).
Proof.
  intros H. unfold py_slice_to. destruct (Z.leb_spec 0 k); [|lia]. split.
  - rewrite length_take. lia.
  - intros Hi. by apply lookup_take_lt.
Qed.

Lemma Permutation_seq_bound (p : list nat) (L : nat) :
  p ≡ₚ seq 0 L → Forall (λ j, j < L) p.
Proof.
  intros Hp. apply Forall_forall. intros j Hj. rewrite Hp in Hj.
  apply elem_of_seq in Hj. lia.
Qed.

Lemma slice_len_le (k : Z) (n : nat) : slice_len k n ≤ n.
Proof. unfold slice_len. destruct (0 <=? k)%Z; lia. Qed.

Lemma py_slice_to_take {A} (k : Z) (l : list A) :
  py_slice_to k l = take (slice_len k (length l)) l.
Proof.
  unfold py_slice_to, slice_len. destruct (0 <=? k)%Z; [|done].
  destruct (decide (Z.to_nat k ≤ length l)) as [H|H].
  - by rewrite Nat.min_l.
  - rewrite Nat.min_r by lia. by rewrite !take_ge by lia.
Qed.

Lemma mask_base_slice (L : nat) (lk : Z) :
  mask_base L lk
  = replicate (slice_len lk L) 0%Q ++ replicate (L - slice_len lk L) 1%Q.
Proof.
  unfold mask_base. cbv zeta.
  rewrite py_slice_to_take, length_take, !length_replicate.
  rewrite Nat.min_l by apply slice_len_le. by rewrite drop_replicate.
Qed.

(** One row of the mask, whatever the number of kept patches: position
    [j] holds 0 exactly when its place in the shuffle lies among the kept
    ones. *)
Lemma mask_row_any (L : nat) (lk : Z) (re : list nat) (row : list Q) :
  re ≡ₚ seq 0 L → gather (mask_base L lk) re = Ok row →
  length row = L ∧
  (∀ j v, re !! j = Some v →
     row !! j = Some (if decide (v < slice_len lk L) then 0%Q else 1%Q)) ∧
  Forall (λ v, v = 0%Q ∨ v = 1%Q) row ∧
  Qsum row = inject_Z (Z.of_nat (L - slice_len lk L)).
Proof.
  intros Hp H. pose proof (slice_len_le lk L) as Hc.
  split; [|split; [|split]].
  - rewrite (gather_length _ _ _ H), Hp. apply length_seq.
  - intros j v Hv. rewrite (gather_lookup _ _ _ _ _ H Hv).
    assert (v < L) as HvL.
    { apply list_elem_of_lookup_2 in Hv. rewrite Hp in Hv.
      apply elem_of_seq in Hv. lia. }
    rewrite mask_base_slice. case_decide.
    + rewrite lookup_app_l by (rewrite length_replicate; lia).
      apply lookup_replicate. split; [done | lia].
    + rewrite lookup_app_r by (rewrite length_replicate; lia).
      rewrite length_replicate. apply lookup_replicate. split; [done | lia].
  - eapply gather_Forall; [|exact H]. rewrite mask_base_slice.
    apply Forall_app. split; apply Forall_replicate; [by left | by right].
  - rewrite (Qsum_Permutation row (mask_base L lk)).
    + rewrite mask_base_slice. apply Qsum_zeros_ones.
    + apply (gather_Permutation _ re); [|done]. by rewrite mask_base_length.
Qed.

Section Masking.
Variable rand_source : nat → nat → nat → Q.

(** C2 as amended (masking invariants).  For a rectangular batch [x] of
    shape [N, L, D] with [L < 2 ^ 53] and a mask ratio in [0, 1), the
    count of kept patches [len_keep = int (L * (1 - mask_ratio))],
    computed in binary64 as the code computes it, lies between 0 and
    [L], and [random_masking] returns; on every sample the shuffle and
    restore indices are permutations of [0, L) with
    [ids_restore[ids_shuffle[i]] = i]; the mask has entries 0 or 1 and
    sums to [L - len_keep]; the kept tokens are the first [len_keep]
    shuffled positions; with a mask ratio of 0 all [L] patches are kept
    and the mask is all zero; and when neither the difference nor the
    product is rounded, [len_keep] is [floor (L * (1 - mask_ratio))]. *)
Theorem random_masking_invariants (x : list (list vec)) (m : Q) (k : nat) :
  Forall (λ s, length s = dim1 x) x → (0 <= m)%Q → (m < 1)%Q →
  (Z.of_nat (dim1 x) < 2 ^ 53)%Z →
  ∃ len_keep x_masked mask ids_restore,
    len_keep_of (dim1 x) m = Ok len_keep ∧
    (0 <= len_keep <= Z.of_nat (dim1 x))%Z ∧
    random_masking rand_source x m k = Ok ((x_masked, mask, ids_restore), S k) ∧
    length x_masked = length x ∧ length mask = length x ∧
    length ids_restore = length x ∧
    (∀ n s, x !! n = Some s →
       ∃ ids_shuffle re row kept,
         ids_shuffle = argsort Qle_bool (rand_source k n <$> seq 0 (dim1 x)) ∧
         ids_restore !! n = Some re ∧ mask !! n = Some row ∧
         x_masked !! n = Some kept ∧
         ids_shuffle ≡ₚ seq 0 (dim1 x) ∧ re ≡ₚ seq 0 (dim1 x) ∧
         (∀ i j, ids_shuffle !! i = Some j → re !! j = Some i) ∧
         Forall (λ v, v = 0%Q ∨ v = 1%Q) row ∧
         Qsum row = inject_Z (Z.of_nat (dim1 x) - len_keep) ∧
         length kept = Z.to_nat len_keep ∧
         (∀ i j, ids_shuffle !! i = Some j → i < Z.to_nat len_keep →
                 kept !! i = s !! j ∧ row !! j = Some 0%Q) ∧
         (∀ i j, ids_shuffle !! i = Some j → Z.to_nat len_keep ≤ i →
                 row !! j = Some 1%Q)) ∧
    ((m == 0)%Q →
       len_keep = Z.of_nat (dim1 x) ∧
       Forall (Forall (λ v, v = 0%Q)) mask) ∧
    (∀ d p, fsub 1 m = Ok d → fmul (inject_Z (Z.of_nat (dim1 x))) d = Ok p →
       (d == 1 - m)%Q → (p == inject_Z (Z.of_nat (dim1 x)) * d)%Q →
       len_keep = Qfloor (inject_Z (Z.of_nat (dim1 x)) * (1 - m))).
Proof.
  intros Hrect Hm0 Hm1 HL53.
  set (L := dim1 x) in *. set (N := length x).
  destruct (len_keep_bounds L m Hm0) as (lk & Hlen & Hlk); [lra | done |].
  set (noise := (λ n, rand_source k n <$> seq 0 L) <$> seq 0 N).
  set (shuf := argsort Qle_bool <$> noise).
  set (rest := argsort Nat.leb <$> shuf).
  assert (∀ n, n < N → noise !! n = Some (rand_source k n <$> seq 0 L)) as Hnoise.
  { intros n Hn. unfold noise. rewrite list_lookup_fmap, lookup_seq_lt by done.
    reflexivity. }
  assert (length noise = N) as Hnl.
  { unfold noise. by rewrite length_fmap, length_seq. }
  assert (∀ n sh, shuf !! n = Some sh →
            sh = argsort Qle_bool (rand_source k n <$> seq 0 L) ∧ sh ≡ₚ seq 0 L)
    as Hshuf.
  { intros n sh Hsh. unfold shuf in Hsh. rewrite list_lookup_fmap in Hsh.
    destruct (noise !! n) as [r|] eqn:Hr; [|discriminate].
    injection Hsh as <-.
    assert (n < N) as Hn.
    { apply lookup_lt_Some in Hr. lia. }
    rewrite Hnoise in Hr by done. injection Hr as <-. split; [done|].
    rewrite argsort_perm. by rewrite length_fmap, length_seq. }
  assert (∀ n re, rest !! n = Some re →
            ∃ sh, shuf !! n = Some sh ∧ re = argsort Nat.leb sh ∧ re ≡ₚ seq 0 L)
    as Hrest.
  { intros n re Hre. unfold rest in Hre. rewrite list_lookup_fmap in Hre.
    destruct (shuf !! n) as [sh|] eqn:Hsh; [|discriminate].
    injection Hre as <-. exists sh. split; [done|]. split; [done|].
    destruct (Hshuf n sh Hsh) as [_ Hp].
    rewrite argsort_perm. by rewrite Hp, length_seq. }
  assert (length shuf = N) as Hsl by (unfold shuf; by rewrite length_fmap).
  assert (length rest = N) as Hrl by (unfold rest; by rewrite length_fmap).
  destruct (gather_dim1_total x (py_slice_to lk <$> shuf)) as [xm Hxm].
  { rewrite length_fmap. lia. }
  { intros n s i Hs Hi. rewrite list_lookup_fmap in Hi.
    destruct (shuf !! n) as [sh|] eqn:Hsh; [|discriminate].
    injection Hi as <-. destruct (Hshuf n sh Hsh) as [_ Hp].
    rewrite Forall_forall in Hrect. rewrite (Hrect s) by by eapply list_elem_of_lookup_2.
    apply Forall_forall. intros j Hj. apply py_slice_to_subset in Hj.
    apply Permutation_seq_bound in Hp. rewrite Forall_forall in Hp. by apply Hp. }
  destruct (gather_dim1_total (replicate N (mask_base L lk)) rest) as [mask Hmask].
  { rewrite length_replicate. lia. }
  { intros n s i Hs Hi. apply lookup_replicate in Hs as [-> _].
    rewrite mask_base_length. destruct (Hrest n i Hi) as (sh & _ & _ & Hp).
    by apply Permutation_seq_bound. }
  exists lk, xm, mask, rest.
  assert (random_masking rand_source x m k = Ok (xm, mask, rest, S k)) as Hrun.
  { unfold random_masking. rewrite M_bind_run. unfold torch_rand.
    fold L N noise. unfold masking_of_noise. fold L N. rewrite Hlen.
    rewrite bind_Ok_run. fold shuf rest.
    rewrite Hxm. cbn. rewrite Hmask. reflexivity. }
  destruct (gather_dim1_length _ _ _ Hxm) as [Hxl _].
  destruct (gather_dim1_length _ _ _ Hmask) as [Hml _].
  rewrite length_fmap in Hxl.
  split; [exact Hlen|]. split; [exact Hlk|]. split; [exact Hrun|].
  split; [lia|]. split; [lia|]. split; [lia|]. split; [|split].
  - intros n s Hs.
    assert (n < N) as Hn by (by apply lookup_lt_Some in Hs).
    destruct (lookup_lt_is_Some_2 rest n ltac:(lia)) as [re Hre].
    destruct (lookup_lt_is_Some_2 mask n ltac:(lia)) as [row Hrow].
    destruct (lookup_lt_is_Some_2 xm n ltac:(lia)) as [kept Hkept].
    destruct (Hrest n re Hre) as (sh & Hsh & -> & Hpre).
    destruct (Hshuf n sh Hsh) as [Hsheq Hpsh].
    exists sh, (argsort Nat.leb sh), row, kept.
    destruct (gather_dim1_lookup _ _ _ _ _ Hmask Hrow) as (b & i & Hb & Hi & Hg).
    apply lookup_replicate in Hb as [-> _].
    rewrite Hre in Hi. injection Hi as <-.
    destruct (mask_row_facts L lk _ row Hlk Hpre Hg) as (H01 & Hrowat & Hsum).
    destruct (gather_dim1_lookup _ _ _ _ _ Hxm Hkept) as (s' & i & Hs' & Hi & Hgk).
    rewrite Hs in Hs'. injection Hs' as <-.
    rewrite list_lookup_fmap, Hsh in Hi. injection Hi as <-.
    assert (length sh = L) as Hshl by (by rewrite Hpsh, length_seq).
    assert (0 <= lk <= Z.of_nat (length sh))%Z as Hlk' by lia.
    split; [done|]. split; [done|]. split; [done|]. split; [done|].
    split; [done|]. split; [done|]. split.
    { intros i j Hij. by apply (argsort_inverse sh L). }
    split; [done|]. split; [exact Hsum|]. split.
    { rewrite (gather_length _ _ _ Hgk).
      by destruct (py_slice_to_lookup lk sh 0 Hlk') as [-> _]. }
    split.
    + intros i j Hij Hi. split.
      * apply (gather_lookup _ _ _ i _ Hgk).
        destruct (py_slice_to_lookup lk sh i Hlk') as [_ ->]; done.
      * rewrite (Hrowat j i) by by apply (argsort_inverse sh L).
        by rewrite decide_True.
    + intros i j Hij Hi.
      rewrite (Hrowat j i) by by apply (argsort_inverse sh L).
      by rewrite decide_False by lia.
  - intros Hz. pose proof (len_keep_zero_ratio L m Hz HL53) as HlkL.
    assert (Ok lk = Ok (Z.of_nat L)) as [= ->]
      by (etrans; [symmetry; exact Hlen | exact HlkL]).
    split; [done|].
    apply Forall_forall. intros row Hrow.
    apply list_elem_of_lookup in Hrow as [n Hrow].
    destruct (gather_dim1_lookup _ _ _ _ _ Hmask Hrow) as (b & i & Hb & Hi & Hg).
    apply lookup_replicate in Hb as [-> _].
    eapply gather_Forall; [|exact Hg].
    rewrite mask_base_eq by done.
    replace (L - Z.to_nat (Z.of_nat L)) with 0 by lia. rewrite app_nil_r.
    by apply Forall_replicate.
  - intros d p Hd Hp Hde Hpe.
    pose proof (len_keep_exact L m d p ltac:(lra) HL53 Hd Hp Hde Hpe) as Hex.
    assert (Ok lk = Ok (Qfloor (inject_Z (Z.of_nat L) * (1 - m)))) as [= ->]
      by (etrans; [symmetry; exact Hlen | exact Hex]).
    reflexivity.
Qed.
End Masking.

(** C2 as stated fails: the number of kept patches is not
    [floor (L * (1 - mask_ratio))] of the exact product.  For ten patches
    and the mask ratio [0.30000000000000004], a float in [0, 1), the
    difference [1 - mask_ratio] rounds to the float [0.7] and the product
    to [7.0]: seven patches are kept and the mask row sums to 3, where the
    exact product lies below 7 and the claimed sum is 10 - 6 = 4. *)
Lemma mask_sum_float_rounding :
  (0 <= ex_ratio_03)%Q ∧ (ex_ratio_03 < 1)%Q ∧
  round64 ex_ratio_03 = Ok ex_ratio_03 ∧
  Qfloor (10 * (1 - ex_ratio_03)) = 6%Z ∧
  len_keep_of 10 ex_ratio_03 = Ok 7%Z ∧
  ∃ x_masked row ids_restore,
    random_masking ex_rand [replicate 10 ex_zero] ex_ratio_03 0
    = Ok ((x_masked, [row], ids_restore), 1) ∧
    length x_masked = 1 ∧ Forall (λ kept, length kept = 7) x_masked ∧
    (Qsum row == 3)%Q ∧
    ¬ (Qsum row
       == inject_Z (10 - Qfloor (inject_Z 10 * (1 - ex_ratio_03))))%Q.
Proof.
  split; [unfold Qle; simpl; lia|]. split; [reflexivity|].
  split; [vm_compute; reflexivity|]. split; [vm_compute; reflexivity|].
  split; [vm_compute; reflexivity|].
  eexists _, _, _. split; [vm_compute; reflexivity|].
  split; [reflexivity|]. split; [repeat constructor|].
  split; [reflexivity|].
  intros H. apply Qeq_bool_iff in H. vm_compute in H. discriminate.
Qed.

(** ** Restoration in the decoder *)

Lemma dim1_rect {A} (t : list (list A)) (n : nat) (s : list A) :
  Forall (λ s, length s = n) t → t !! 0 = Some s → dim1 t = n.
Proof.
  destruct t as [|s' t]; [discriminate|]. simpl.
  intros H _. by inversion H.
Qed.

(** C1 (decoder restoration).  Let the latent hold, per sample, the cls
    token followed by [len_keep] visible tokens, and let [ids_restore] be
    the argsort of a shuffle that is a permutation of [0, L), the visible
    tokens being those of the first [len_keep] shuffled positions.  Then
    the restore step of [Decoder.forward] returns, and on every sample the
    embedded visible token [i] stands at its original patch index
    [ids_shuffle[i]], every removed patch index carries the mask token,
    and every patch index is reached from exactly one shuffled position. *)
Theorem decoder_restore_invariant (self : Decoder) (x : list (list vec))
    (ids_shuffle : list (list nat)) (L len_keep : nat) :
  len_keep ≤ L →
  length ids_shuffle = length x →
  Forall (λ s, length s = len_keep + 1) x →
  Forall (λ sh, sh ≡ₚ seq 0 L) ids_shuffle →
  ∃ r, Decoder_restore self x (argsort Nat.leb <$> ids_shuffle) = Ok r ∧
       length r = length x ∧
       ∀ n s sh, x !! n = Some s → ids_shuffle !! n = Some sh →
         ∃ rr, r !! n = Some rr ∧ length rr = L + 1 ∧
           rr !! 0 = self.(decoder_embed) <$> s !! 0 ∧
           (∀ i p, sh !! i = Some p → i < len_keep →
                   rr !! (S p) = self.(decoder_embed) <$> s !! (S i)) ∧
           (∀ i p, sh !! i = Some p → len_keep ≤ i →
                   rr !! (S p) = Some self.(mask_token)) ∧
           (∀ p, p < L → ∃ i, sh !! i = Some p ∧
                              ∀ i', sh !! i' = Some p → i' = i).
Proof.
  intros Hle Hlen Hx Hsh. unfold Decoder_restore.
  set (x' := fmap (M := list) (fmap (M := list) self.(decoder_embed)) x).
  set (rest := argsort Nat.leb <$> ids_shuffle).
  assert (Forall (λ s, length s = len_keep + 1) x') as Hx'.
  { unfold x'. apply Forall_fmap. eapply Forall_impl; [exact Hx|].
    intros s Hs. simpl. by rewrite length_fmap. }
  assert (Forall (λ re, re ≡ₚ seq 0 L) rest) as Hrest.
  { unfold rest. apply Forall_fmap. eapply Forall_impl; [exact Hsh|].
    intros sh Hp. simpl. by rewrite argsort_perm, Hp, length_seq. }
  assert (length x' = length x) as Hxl' by (unfold x'; by rewrite length_fmap).
  assert (length rest = length x) as Hrl by (unfold rest; by rewrite length_fmap).
  set (n_mask := (Z.of_nat (dim1 rest) + 1 - Z.of_nat (dim1 x'))%Z).
  assert (x = [] ∨ n_mask = Z.of_nat (L - len_keep)) as Hn.
  { destruct x as [|s x]; [left; reflexivity |]. right.
    destruct rest as [|re rest'] eqn:Hre; [discriminate|].
    unfold n_mask.
    rewrite (dim1_rect (re :: rest') (length (seq 0 L)) re); [|
      eapply Forall_impl; [exact Hrest|]; by intros ? -> | done].
    rewrite (dim1_rect x' (len_keep + 1) (self.(decoder_embed) <$> s));
      [| done | done].
    rewrite length_seq. lia. }
  assert ((n_mask <? 0)%Z = false) as -> .
  { apply Z.ltb_ge. destruct Hn as [-> | ->]; [|lia].
    destruct rest; [|discriminate]. unfold n_mask. simpl. lia. }
  set (x_ := (λ s, drop 1 s ++ replicate (Z.to_nat n_mask) self.(mask_token)) <$> x').
  destruct (gather_dim1_total x_ rest) as [r_ Hr_].
  { unfold x_. rewrite length_fmap. lia. }
  { intros n s re Hs Hre. unfold x_ in Hs. rewrite list_lookup_fmap in Hs.
    destruct (x' !! n) as [s'|] eqn:Hs'; [|discriminate]. injection Hs as <-.
    destruct Hn as [-> | Hn]; [done|].
    rewrite Forall_forall in Hx'. rewrite length_app, length_drop, length_replicate.
    rewrite (Hx' s') by by eapply list_elem_of_lookup_2.
    rewrite Hn. replace (len_keep + 1 - 1 + Z.to_nat (Z.of_nat (L - len_keep))) with L by lia.
    apply Permutation_seq_bound. rewrite Forall_forall in Hrest.
    apply Hrest. by eapply list_elem_of_lookup_2. }
  rewrite Hr_. cbn. unfold cat_dim1.
  destruct (gather_dim1_length _ _ _ Hr_) as [Hr_l _].
  rewrite decide_True by (rewrite length_fmap; lia).
  eexists. split; [reflexivity|]. split.
  { rewrite length_zip_with, length_fmap. lia. }
  intros n s sh Hs Hshn.
  destruct Hn as [-> | Hn]; [done|].
  assert (x' !! n = Some (self.(decoder_embed) <$> s)) as Hs'.
  { unfold x'. by rewrite list_lookup_fmap, Hs. }
  assert (rest !! n = Some (argsort Nat.leb sh)) as Hre.
  { unfold rest. by rewrite list_lookup_fmap, Hshn. }
  assert (sh ≡ₚ seq 0 L) as Hp.
  { rewrite Forall_forall in Hsh. apply Hsh. by eapply list_elem_of_lookup_2. }
  assert (length s = len_keep + 1) as Hsl.
  { rewrite Forall_forall in Hx. apply Hx. by eapply list_elem_of_lookup_2. }
  destruct (lookup_lt_is_Some_2 r_ n) as [rn Hrn].
  { rewrite Hr_l, Hrl. by apply lookup_lt_Some in Hs. }
  destruct (gather_dim1_lookup _ _ _ _ _ Hr_ Hrn) as (xn & re & Hxn & Hre' & Hg).
  rewrite Hre in Hre'. injection Hre' as <-.
  unfold x_ in Hxn. rewrite list_lookup_fmap, Hs' in Hxn. injection Hxn as <-.
  exists (take 1 (self.(decoder_embed) <$> s) ++ rn). split.
  { rewrite lookup_zip_with, list_lookup_fmap, Hs', Hrn. reflexivity. }
  assert (length (take 1 (self.(decoder_embed) <$> s)) = 1) as Hhd.
  { rewrite length_take, length_fmap. lia. }
  assert (∀ i p, sh !! i = Some p →
            rn !! p = (drop 1 (self.(decoder_embed) <$> s)
                       ++ replicate (Z.to_nat n_mask) self.(mask_token)) !! i) as Hat.
  { intros i p Hip. apply (gather_lookup _ _ _ _ _ Hg).
    by apply (argsort_inverse sh L). }
  split; [|split; [|split; [|split]]].
  - rewrite length_app, Hhd, (gather_length _ _ _ Hg), argsort_length.
    rewrite Hp, length_seq. lia.
  - rewrite lookup_app_l by lia. rewrite lookup_take_lt by lia. apply list_lookup_fmap.
  - intros i p Hip Hi. rewrite lookup_app_r by lia. rewrite Hhd.
    replace (S p - 1) with p by lia. rewrite (Hat i p Hip).
    rewrite lookup_app_l by (rewrite length_drop, length_fmap; lia).
    rewrite lookup_drop. apply list_lookup_fmap.
  - intros i p Hip Hi. rewrite lookup_app_r by lia. rewrite Hhd.
    replace (S p - 1) with p by lia. rewrite (Hat i p Hip).
    assert (i < L) as HiL.
    { apply lookup_lt_Some in Hip. by rewrite Hp, length_seq in Hip. }
    rewrite lookup_app_r by (rewrite length_drop, length_fmap; lia).
    rewrite length_drop, length_fmap. apply lookup_replicate. split; [done | lia].
  - intros p HpL.
    assert (p ∈ sh) as Hin by (rewrite Hp; apply elem_of_seq; lia).
    apply list_elem_of_lookup in Hin as [i Hi]. exists i. split; [done|].
    intros i' Hi'. assert (NoDup sh) as Hnd by (rewrite Hp; apply NoDup_seq).
    by apply (NoDup_lookup _ _ _ _ Hnd Hi' Hi).
Qed.

(** ** Patchify and unpatchify *)

Lemma div_mod_pair (q r b : nat) :
  r < b → (q * b + r) / b = q ∧ (q * b + r) mod b = r.
Proof.
  intros Hr. split.
  - symmetry. apply (Nat.div_unique _ b q r); lia.
  - symmetry. apply (Nat.mod_unique _ b q r); lia.
Qed.

Lemma concat_length_rect {A} (l : list (list A)) (n m : nat) :
  shape2 n m l → length (concat l) = n * m.
Proof.
  intros [<- H]. induction H as [|r l Hr _ IH]; simpl; [done|].
  rewrite length_app, IH, Hr. lia.
Qed.

Lemma nth_concat_rect {A} (l : list (list A)) (m i j : nat) (d : A) :
  Forall (λ r, length r = m) l → j < m →
  nth (i * m + j) (concat l) d = nth j (nth i l []) d.
Proof.
  intros H. revert i. induction H as [|r l Hr _ IH]; intros i Hj.
  - simpl. destruct (i * m + j); destruct i; destruct j; reflexivity.
  - destruct i as [|i]; simpl.
    + apply app_nth1. lia.
    + rewrite app_nth2 by lia. rewrite <- IH by done. f_equal. lia.
Qed.

Lemma nth_fmap_seq {A} (f : nat → A) (n i : nat) (d : A) :
  i < n → nth i (f <$> seq 0 n) d = f i.
Proof.
  intros Hi. apply nth_lookup_Some.
  by rewrite list_lookup_fmap, lookup_seq_lt.
Qed.

Lemma fmap_seq_nth {A} (l : list A) (d : A) :
  (λ i, nth i l d) <$> seq 0 (length l) = l.
Proof.
  apply list_eq. intros i. rewrite list_lookup_fmap.
  destruct (decide (i < length l)) as [Hi|Hi].
  - rewrite lookup_seq_lt by done. simpl.
    destruct (lookup_lt_is_Some_2 l i Hi) as [a Ha].
    rewrite Ha. f_equal. by apply nth_lookup_Some.
  - rewrite lookup_seq_ge by lia. simpl. symmetry. apply lookup_ge_None. lia.
Qed.

Lemma fmap_seq_ext {A} (f g : nat → A) (n : nat) :
  (∀ i, i < n → f i = g i) → f <$> seq 0 n = g <$> seq 0 n.
Proof.
  intros H. apply list_fmap_ext. intros i x Hx.
  apply lookup_seq in Hx as [-> ?]. apply H. lia.
Qed.

Lemma flat3_length (img : image) (C H W : nat) :
  image_shape C H W img → length (flat3 img) = C * H * W.
Proof.
  intros [Hc Hs]. unfold flat3.
  rewrite (concat_length_rect _ (C * H) W).
  - done.
  - split.
    + apply (concat_length_rect _ C H). split; [done|].
      eapply Forall_impl; [exact Hs|]. by intros ch [? _].
    + apply Forall_concat. eapply Forall_impl; [exact Hs|]. by intros ch [_ ?].
Qed.

Lemma flat3_nth (img : image) (C H W c row col : nat) :
  image_shape C H W img → row < H → col < W →
  nth ((c * H + row) * W + col) (flat3 img) 0%Q
  = nth col (nth row (nth c img []) []) 0%Q.
Proof.
  intros [Hc Hs] Hrow Hcol. unfold flat3.
  rewrite (nth_concat_rect _ W) by
    first [ done
          | apply Forall_concat; eapply Forall_impl; [exact Hs|];
            by intros ch [_ ?] ].
  rewrite (nth_concat_rect _ H) by
    first [ done | eapply Forall_impl; [exact Hs|]; by intros ch [? _] ].
  reflexivity.
Qed.

Lemma patchify_sample_shape (p h w : nat) (data : list Q) :
  shape2 (h * w) (p * p * 3) (patchify_sample p h w data).
Proof.
  unfold patchify_sample. split.
  - by rewrite length_fmap, length_seq.
  - apply Forall_fmap, Forall_forall. intros k _. simpl.
    by rewrite length_fmap, length_seq.
Qed.

(** The layout of [patchify]: within a patch the pixels run row by row,
    and the channel is the fastest index. *)
Lemma patchify_sample_nth (p h w : nat) (img : image) (hi wi pi qi c : nat) :
  image_shape 3 (h * p) (w * p) img →
  hi < h → wi < w → pi < p → qi < p → c < 3 →
  nth ((pi * p + qi) * 3 + c)
      (nth (hi * w + wi) (patchify_sample p h w (flat3 img)) []) 0%Q
  = nth (wi * p + qi) (nth (hi * p + pi) (nth c img []) []) 0%Q.
Proof.
  intros Hs Hhi Hwi Hpi Hqi Hc. unfold patchify_sample.
  rewrite nth_fmap_seq by nia. rewrite nth_fmap_seq by nia.
  destruct (div_mod_pair hi wi w Hwi) as [-> ->].
  destruct (div_mod_pair (pi * p + qi) c 3 Hc) as [Hq3 ->].
  replace ((pi * p + qi) * 3 + c) with (pi * (p * 3) + (qi * 3 + c)) at 1 by lia.
  destruct (div_mod_pair pi (qi * 3 + c) (p * 3)) as [-> _]; [lia|].
  rewrite Hq3. destruct (div_mod_pair pi qi p Hqi) as [_ ->].
  rewrite <- (flat3_nth img 3 (h * p) (w * p)) by (try done; nia).
  f_equal. lia.
Qed.

Lemma unpatchify_patchify_sample (p h : nat) (img : image) :
  0 < p → image_shape 3 (h * p) (h * p) img →
  unpatchify_sample p h h (concat (patchify_sample p h h (flat3 img))) = img.
Proof.
  intros Hp Hs. pose proof Hs as [Hc Hch]. unfold unpatchify_sample.
  etrans; [|apply (fmap_seq_nth img [])]. rewrite Hc.
  apply fmap_seq_ext. intros c Hc3.
  assert (shape2 (h * p) (h * p) (nth c img [])) as [Hrows Hcols].
  { rewrite Forall_forall in Hch. apply Hch. apply list_elem_of_In, nth_In. lia. }
  etrans; [|apply (fmap_seq_nth (nth c img []) [])]. rewrite Hrows.
  apply fmap_seq_ext. intros row Hrow.
  assert (length (nth row (nth c img []) []) = h * p) as Hcol.
  { rewrite Forall_forall in Hcols. apply Hcols. apply list_elem_of_In, nth_In. lia. }
  etrans; [|apply (fmap_seq_nth (nth row (nth c img []) []) 0%Q)]. rewrite Hcol.
  apply fmap_seq_ext. intros col Hcl. simpl.
  assert (row / p < h) as Hhi by (apply Nat.Div0.div_lt_upper_bound; lia).
  assert (col / p < h) as Hwi by (apply Nat.Div0.div_lt_upper_bound; lia).
  assert (row mod p < p) as Hpi by (apply Nat.mod_upper_bound; lia).
  assert (col mod p < p) as Hqi by (apply Nat.mod_upper_bound; lia).
  replace ((((row / p * h + col / p) * p + row mod p) * p + col mod p) * 3 + c)
    with ((row / p * h + col / p) * (p * p * 3)
          + ((row mod p * p + col mod p) * 3 + c)) by lia.
  rewrite (nth_concat_rect _ (p * p * 3)).
  - rewrite (patchify_sample_nth p h h img) by done.
    rewrite !(Nat.mul_comm _ p), <- !Nat.div_mod_eq. reflexivity.
  - apply patchify_sample_shape.
  - nia.
Qed.

Lemma dims_of_shape (imgs : list image) (img : image) (H : nat) :
  Forall (image_shape 3 H H) imgs → imgs !! 0 = Some img →
  dimH imgs = H ∧ dimW imgs = H.
Proof.
  intros Hs Hi. destruct imgs as [|img0 imgs]; [discriminate|].
  apply Forall_cons in Hs as [[Hc Hch] _].
  destruct img0 as [|ch img0]; [discriminate|].
  apply Forall_cons in Hch as [[Hrows Hcols] _]. simpl. split; [done|].
  destruct ch as [|row ch]; [done|].
  apply Forall_cons in Hcols as [Hrow _]. done.
Qed.

(** C5 as amended (round trip on three channels).  For a batch of images
    with three channels, square of side [h * p] for the patch size
    [p > 0], [patchify] returns [h * h] patches of [p * p * 3] entries per
    image, entry [(pi * p + qi) * 3 + c] of patch [hi * h + wi] being pixel
    [(hi * p + pi, wi * p + qi)] of channel [c], and [unpatchify] maps the
    result back to the very same images. *)
Theorem patchify_unpatchify_roundtrip (self : CycleMAE) (imgs : list image)
    (h : nat) :
  let p := self.(encoder).(patch_size) in
  0 < p →
  Forall (image_shape 3 (h * p) (h * p)) imgs →
  ∃ x, patchify self imgs = Ok x ∧
       unpatchify self x = Ok imgs ∧
       length x = length imgs ∧
       Forall (shape2 (h * h) (p * p * 3)) x ∧
       ∀ n img xn hi wi pi qi c,
         imgs !! n = Some img → x !! n = Some xn →
         hi < h → wi < h → pi < p → qi < p → c < 3 →
         nth ((pi * p + qi) * 3 + c) (nth (hi * h + wi) xn []) 0%Q
         = nth (wi * p + qi) (nth (hi * p + pi) (nth c img []) []) 0%Q.
Proof.
  intros p Hp Hs.
  set (g := λ img : image, patchify_sample p h h (flat3 img)).
  exists (g <$> imgs).
  assert (patchify self imgs = Ok (g <$> imgs)) as Hpat.
  { unfold patchify. fold p.
    destruct (imgs !! 0) as [img0|] eqn:H0.
    - destruct (dims_of_shape imgs img0 (h * p) Hs H0) as [-> ->].
      rewrite bool_decide_true by done. simpl.
      rewrite bool_decide_false by lia.
      rewrite Nat.Div0.mod_mul, bool_decide_true by done. simpl.
      rewrite Nat.div_mul by lia.
      apply mapM_total. intros img Hin.
      rewrite Forall_forall in Hs.
      rewrite (flat3_length img 3 (h * p) (h * p)) by by apply Hs.
      rewrite bool_decide_true by lia. reflexivity.
    - destruct imgs; [|discriminate]. simpl.
      rewrite bool_decide_false by lia.
      rewrite Nat.Div0.mod_0_l, bool_decide_true by done. reflexivity. }
  assert (Forall (shape2 (h * h) (p * p * 3)) (g <$> imgs)) as Hshape.
  { apply Forall_fmap, Forall_forall. intros img _. apply patchify_sample_shape. }
  split; [exact Hpat|]. split; [|split; [by rewrite length_fmap|split; [exact Hshape|]]].
  - unfold unpatchify. fold p.
    assert (dim1 (g <$> imgs) = Nat.sqrt (dim1 (g <$> imgs)) * Nat.sqrt (dim1 (g <$> imgs))
            ∧ (imgs ≠ [] → Nat.sqrt (dim1 (g <$> imgs)) = h)) as [Hsq Hh].
    { destruct imgs as [|img0 imgs']; [done|].
      change (dim1 (g <$> img0 :: imgs'))
        with (length (patchify_sample p h h (flat3 img0))).
      assert (length (patchify_sample p h h (flat3 img0)) = h * h) as ->
        by apply patchify_sample_shape.
      rewrite Nat.sqrt_square. done. }
    rewrite bool_decide_true by done. simpl.
    destruct imgs as [|img0 imgs']; [done|].
    rewrite Hh by done.
    rewrite (mapM_total _ (λ s, unpatchify_sample p h h (concat s))).
    + f_equal. rewrite <- list_fmap_compose.
      etrans; [|apply list_fmap_id]. apply list_fmap_ext.
      intros i img Hi. simpl. apply unpatchify_patchify_sample; [done|].
      rewrite Forall_forall in Hs. apply Hs. by eapply list_elem_of_lookup_2.
    + intros s Hin. rewrite Forall_forall in Hshape.
      rewrite (concat_length_rect s (h * h) (p * p * 3)) by by apply Hshape.
      rewrite bool_decide_true by lia. reflexivity.
  - intros n img xn hi wi pi qi c Hi Hx Hhi Hwi Hpi Hqi Hc.
    apply list_lookup_fmap_Some in Hx as (img' & -> & Hi').
    assert (Some img' = Some img) as [= ->]
      by (etrans; [symmetry; exact Hi' | exact Hi]).
    assert (image_shape 3 (h * p) (h * p) img) as Himg.
    { rewrite Forall_forall in Hs. apply Hs. by eapply list_elem_of_lookup_2. }
    unfold g.
    exact (patchify_sample_nth p h h img hi wi pi qi c Himg Hhi Hwi Hpi Hqi Hc).
Qed.

(** C5 as stated fails for a channel count other than three: a square
    one-channel image whose side the patch size divides is rejected by the
    reshape to three channels in [patchify]. *)
Lemma patchify_one_channel_raises :
  dimH [ex_grey] = dimW [ex_grey] ∧
  dimH [ex_grey] mod (ex_model 3).(encoder).(patch_size) = 0 ∧
  patchify (ex_model 3) [ex_grey] = Raise RuntimeError ∧
  ¬ ∃ x, patchify (ex_model 3) [ex_grey] = Ok x ∧
         unpatchify (ex_model 3) x = Ok [ex_grey].
Proof.
  assert (patchify (ex_model 3) [ex_grey] = Raise RuntimeError) as H
    by reflexivity.
  repeat split; try done. intros (x & Hx & _). congruence.
Qed.

(** ** The domain count of the forward pass *)

(** For a model built with three domains the forward pass is the one the
    specification describes. *)
Lemma forward_terms_three_domains (rand_source : nat → nat → nat → Q)
    (log_softmax : list Q → list Q) (pow_half : Q → Q) (self : CycleMAE)
    (x original_x : list image) (mask_ratio : Q) :
  self.(num_domains) = 3 →
  spec_forward_terms rand_source log_softmax pow_half self x original_x mask_ratio
  = forward_terms rand_source log_softmax pow_half self x original_x mask_ratio.
Proof. intros H. unfold spec_forward_terms. rewrite H. reflexivity. Qed.

(** C6 at a failing input.  A model built with four domains holds four
    decoders, yet on a batch of twelve images the forward pass decodes
    with three of them and slices groups of 12 / 3 = 4 rows, where the
    specification decodes with four and slices groups of 12 / 4 = 3; a
    model built with two domains makes the forward pass raise [KeyError],
    where the specification returns a loss. *)
Theorem forward_domain_count_fixed :
  (ex_model 4).(num_domains) = 4 ∧
  (∀ i, i < 4 → ∃ d, get_decoder (ex_model 4) i = Ok d) ∧
  (∃ preds lr k,
     forward_recons ex_rand ex_pow_half (ex_model 4)
       (ex_batch 12) (ex_batch 12) (3 # 4) 0 = Ok ((preds, 4, lr), k) ∧
     length preds = 3) ∧
  (∃ preds lr k,
     spec_forward_recons ex_rand ex_pow_half 4 (ex_model 4)
       (ex_batch 12) (ex_batch 12) (3 # 4) 0 = Ok ((preds, 3, lr), k) ∧
     length preds = 4) ∧
  forward ex_rand ex_log_softmax ex_pow_half (ex_model 2)
    (ex_batch 6) (ex_batch 6) (3 # 4) 0 = Raise KeyError ∧
  (∃ t k,
     spec_forward_terms ex_rand ex_log_softmax ex_pow_half (ex_model 2)
       (ex_batch 6) (ex_batch 6) (3 # 4) 0 = Ok (t, k)).
Proof.
  split; [reflexivity|]. split.
  { intros i Hi. do 4 (destruct i as [|i]; [eexists; vm_compute; reflexivity|]).
    lia. }
  split; [|split; [|split]].
  - eexists _, _, _. split; vm_compute; reflexivity.
  - eexists _, _, _. split; vm_compute; reflexivity.
  - vm_compute. reflexivity.
  - eexists _, _. vm_compute. reflexivity.
Qed.

(** C4 at a failing input.  On the four-domain model and twelve images the
    reconstruction loss of the forward pass (three decoders, groups of
    four rows) is not the loss of the claim (four decoders, groups of
    [N / num_domains] = 3 rows). *)
Theorem recons_loss_domain_count_divergence :
  ∃ preds k a preds' k' b,
    forward_recons ex_rand ex_pow_half (ex_model 4)
      (ex_batch 12) (ex_batch 12) (3 # 4) 0 = Ok ((preds, 12 / 3, Fin a), k) ∧
    spec_forward_recons ex_rand ex_pow_half (ex_model 4).(num_domains) (ex_model 4)
      (ex_batch 12) (ex_batch 12) (3 # 4) 0
    = Ok ((preds', 12 / (ex_model 4).(num_domains), Fin b), k') ∧
    ¬ (a == b)%Q.
Proof.
  eexists _, _, _, _, _, _. split; [vm_compute; reflexivity|].
  split; [vm_compute; reflexivity|].
  intros H. apply Qeq_bool_iff in H. vm_compute in H. discriminate.
Qed.

(** C3 at a failing input.  On the four-domain model and twelve images the
    cycle pass of the forward pass re-encodes the predictions of three of
    the four domains, decodes with three of the four decoders and scores
    groups of 12 / 3 = 4 rows (three draws, three lists of mid features),
    where the claim has a pass for each domain, every decoder and groups
    of [N / num_domains] = 3 rows (four draws).  The two cycle losses
    differ. *)
Theorem cycle_loss_domain_count_divergence :
  (ex_model 4).(num_domains) = 4 ∧
  (∀ i, i < 4 → ∃ d, get_decoder (ex_model 4) i = Ok d) ∧
  ∃ preds lr k a dmfl preds' lr' k' b mfl,
    forward_recons ex_rand ex_pow_half (ex_model 4)
      (ex_batch 12) (ex_batch 12) (3 # 4) 0 = Ok ((preds, 12 / 3, lr), k) ∧
    forward_cycle ex_rand ex_pow_half (ex_model 4) (ex_batch 12) (3 # 4)
      (12 / 3) preds k = Ok ((Fin a, dmfl), k + 3) ∧
    length preds = 3 ∧ length dmfl = 3 ∧
    spec_forward_recons ex_rand ex_pow_half (ex_model 4).(num_domains) (ex_model 4)
      (ex_batch 12) (ex_batch 12) (3 # 4) 0
    = Ok ((preds', 12 / (ex_model 4).(num_domains), lr'), k') ∧
    spec_forward_cycle ex_rand ex_pow_half (ex_model 4).(num_domains) (ex_model 4)
      (ex_batch 12) (3 # 4) (12 / (ex_model 4).(num_domains)) preds' k'
    = Ok ((Fin b, mfl), k' + 4) ∧
    length preds' = 4 ∧ length mfl = 4 ∧
    (a == 11345 # 108)%Q ∧ (b == 14203 # 108)%Q ∧ ¬ (a == b)%Q.
Proof.
  split; [reflexivity|]. split.
  { intros i Hi. do 4 (destruct i as [|i]; [eexists; vm_compute; reflexivity|]).
    lia. }
  eexists _, _, _, _, _, _, _, _, _, _.
  split; [vm_compute; reflexivity|]. split; [vm_compute; reflexivity|].
  split; [reflexivity|]. split; [reflexivity|].
  split; [vm_compute; reflexivity|]. split; [vm_compute; reflexivity|].
  split; [reflexivity|]. split; [reflexivity|].
  split; [apply Qeq_bool_iff; vm_compute; reflexivity|].
  split; [apply Qeq_bool_iff; vm_compute; reflexivity|].
  intros H. apply Qeq_bool_iff in H. vm_compute in H. discriminate.
Qed.

(** C7 at a failing input.  Six images do not divide into the four domains
    of the model, yet the forward pass returns a finite loss; the forward
    pass of the specification raises. *)
Theorem forward_accepts_uneven_batch :
  (ex_model 4).(num_domains) = 4 ∧
  length (ex_batch 6) mod (ex_model 4).(num_domains) ≠ 0 ∧
  (∃ v k,
     forward ex_rand ex_log_softmax ex_pow_half (ex_model 4)
       (ex_batch 6) (ex_batch 6) (3 # 4) 0 = Ok (Fin v, k)) ∧
  spec_forward_terms ex_rand ex_log_softmax ex_pow_half (ex_model 4)
    (ex_batch 6) (ex_batch 6) (3 # 4) 0 = Raise RuntimeError.
Proof.
  split; [reflexivity|]. split; [vm_compute; lia|]. split.
  - eexists _, _. vm_compute. reflexivity.
  - vm_compute. reflexivity.
Qed.

(** C8 at a failing input.  On the four-domain model and twelve images the
    contrastive term of the forward pass sums three terms, each over a
    bank of three rows; the term of the claim sums [num_domains] = 4
    terms over banks of four rows. *)
Theorem contrastive_domain_count_fixed :
  (ex_model 4).(num_domains) = 4 ∧
  (∃ preds bz lr k lc dmfl k' terms,
     forward_recons ex_rand ex_pow_half (ex_model 4)
       (ex_batch 12) (ex_batch 12) (3 # 4) 0 = Ok ((preds, bz, lr), k) ∧
     forward_cycle ex_rand ex_pow_half (ex_model 4) (ex_batch 12) (3 # 4) bz preds k
     = Ok ((lc, dmfl), k') ∧
     mapM (contrastive_step ex_log_softmax dmfl) (seq 0 3) = Ok terms ∧
     contrastive_loss ex_log_softmax dmfl
     = Ok (foldl (λ acc t, sadd acc (Fin t)) (Fin 0) terms) ∧
     length terms = 3 ∧
     Forall (λ feats, ∃ bank, feature_bank feats = Ok bank ∧ length bank = 3) dmfl) ∧
  (∃ preds bz lr k lc mfl k' terms,
     spec_forward_recons ex_rand ex_pow_half 4 (ex_model 4)
       (ex_batch 12) (ex_batch 12) (3 # 4) 0 = Ok ((preds, bz, lr), k) ∧
     spec_forward_cycle ex_rand ex_pow_half 4 (ex_model 4) (ex_batch 12) (3 # 4) bz preds k
     = Ok ((lc, mfl), k') ∧
     mapM (spec_contrastive_step ex_log_softmax 4 mfl) (seq 0 4) = Ok terms ∧
     spec_contrastive_loss ex_log_softmax 4 mfl
     = Ok (foldl (λ acc t, sadd acc (Fin t)) (Fin 0) terms) ∧
     length terms = 4 ∧
     Forall (λ feats, ∃ bank, spec_feature_bank 4 feats = Ok bank ∧ length bank = 4) mfl).
Proof.
  split; [reflexivity|]. split.
  - eexists _, _, _, _, _, _, _, _.
    split; [vm_compute; reflexivity|]. split; [vm_compute; reflexivity|].
    split; [vm_compute; reflexivity|]. split; [vm_compute; reflexivity|].
    split; [reflexivity|].
    repeat (constructor; [eexists; split; vm_compute; reflexivity|]). constructor.
  - eexists _, _, _, _, _, _, _, _.
    split; [vm_compute; reflexivity|]. split; [vm_compute; reflexivity|].
    split; [vm_compute; reflexivity|]. split; [vm_compute; reflexivity|].
    split; [reflexivity|].
    repeat (constructor; [eexists; split; vm_compute; reflexivity|]). constructor.
Qed.

(** ** The composed loss *)

(** C9 (loss composition).  [forward] raises exactly when the computation
    of the three terms raises, and otherwise returns
    [loss_recons + 2 * loss_cycle + 2 * loss_contrastive]; the weights
    1, 2, 2 are not arguments of [forward].  On finite terms the sum is the
    rational sum, and a non-finite term makes the loss non-finite. *)
Theorem forward_loss_composition (rand_source : nat → nat → nat → Q)
    (log_softmax : list Q → list Q) (pow_half : Q → Q) (self : CycleMAE)
    (x original_x : list image) (mask_ratio : Q) (k : nat) :
  forward rand_source log_softmax pow_half self x original_x mask_ratio k
  = match forward_terms rand_source log_softmax pow_half self x original_x
            mask_ratio k with
    | Ok ((loss_recons, loss_cycle, loss_contrastive), k') =>
        Ok (sadd (sadd loss_recons (smul 2 loss_cycle)) (smul 2 loss_contrastive), k')
    | Raise e => Raise e
    end
  ∧ (∀ a b c : Q,
       sadd (sadd (Fin a) (smul 2 (Fin b))) (smul 2 (Fin c))
       = Fin (a + 2 * b + 2 * c)%Q)
  ∧ (∀ r c t : scalar,
       r = NonFinite ∨ c = NonFinite ∨ t = NonFinite →
       sadd (sadd r (smul 2 c)) (smul 2 t) = NonFinite).
Proof.
  split; [|split].
  - unfold forward. rewrite M_bind_run.
    destruct (forward_terms _ _ _ _ _ _ _ k) as [[[[lr lc] lt] k']|e]; reflexivity.
  - reflexivity.
  - intros r c t [-> | [-> | ->]].
    + reflexivity.
    + by destruct r.
    + by destruct r, c.
Qed.

(** ** Shapes through the encoder *)

Lemma mapM_M_Forall {A B} (P : B → Prop) (f : A → M B) (l : list A)
    (k k' : nat) (ys : list B) :
  (∀ a j y j', f a j = Ok (y, j') → P y) →
  mapM f l k = Ok (ys, k') → length ys = length l ∧ Forall P ys.
Proof.
  intros HP. revert k ys. induction l as [|a l IH]; intros k ys H.
  - injection H as <- <-. by split.
  - change (mapM f (a :: l)) with (y ← f a; r ← mapM f l; mret (y :: r)) in H.
    apply M_bind_Ok in H as (y & k1 & Hy & H).
    apply M_bind_Ok in H as (r & k2 & Hr & H).
    injection H as <- <-. destruct (IH _ _ Hr) as [Hl HF]. split.
    + simpl. by rewrite Hl.
    + constructor; [by eapply HP | done].
Qed.

Lemma masking_of_noise_Ok (x : list (list vec)) (m : Q) (noise : list (list Q))
    (xm : list (list vec)) (mask : list (list Q)) (ids : list (list nat)) :
  masking_of_noise x m noise = Ok (xm, mask, ids) →
  ∃ lk,
    len_keep_of (dim1 x) m = Ok lk ∧
    ids = argsort Nat.leb <$> (argsort Qle_bool <$> noise) ∧
    gather_dim1 x (py_slice_to lk <$> (argsort Qle_bool <$> noise)) = Ok xm ∧
    gather_dim1 (replicate (length x) (mask_base (dim1 x) lk)) ids = Ok mask ∧
    length xm = length noise ∧ length mask = length noise ∧
    length ids = length noise.
Proof.
  unfold masking_of_noise. intros H.
  apply bind_Ok in H as (lk & Hlk & H).
  apply bind_Ok in H as (xm' & Hxm & H).
  apply bind_Ok in H as (mask' & Hmask & H).
  injection H as -> -> <-.
  destruct (gather_dim1_length _ _ _ Hxm) as [Hl1 _].
  destruct (gather_dim1_length _ _ _ Hmask) as [Hl2 _].
  rewrite !length_fmap in Hl1, Hl2. rewrite !length_fmap.
  exists lk. done.
Qed.

(** When [len_keep] reaches [L] every patch is kept and the mask is all
    zero. *)
Lemma masking_all_kept (x : list (list vec)) (m : Q) (noise : list (list Q))
    (xm : list (list vec)) (mask : list (list Q)) (ids : list (list nat))
    (lk : Z) :
  len_keep_of (dim1 x) m = Ok lk → (Z.of_nat (dim1 x) <= lk)%Z →
  masking_of_noise x m noise = Ok (xm, mask, ids) →
  Forall (Forall (λ v, v = 0%Q)) mask.
Proof.
  intros Hlk Hge H.
  apply masking_of_noise_Ok in H as (lk' & Hlk' & _ & _ & Hmask & _).
  assert (Ok lk' = Ok lk) as [= ->]
    by (etrans; [symmetry; exact Hlk' | exact Hlk]).
  apply Forall_forall. intros row Hrow.
  apply list_elem_of_lookup in Hrow as [n Hrow].
  destruct (gather_dim1_lookup _ _ _ _ _ Hmask Hrow) as (b & i & Hb & Hi & Hg).
  apply lookup_replicate in Hb as [-> _].
  eapply gather_Forall; [|exact Hg].
  rewrite mask_base_slice.
  assert (slice_len lk (dim1 x) = dim1 x) as ->.
  { unfold slice_len. destruct (Z.leb_spec 0 lk); lia. }
  rewrite Nat.sub_diag, app_nil_r. by apply Forall_replicate.
Qed.

Lemma masking_zero_ratio (x : list (list vec)) (m : Q) (noise : list (list Q))
    (xm : list (list vec)) (mask : list (list Q)) (ids : list (list nat)) :
  (m == 0)%Q → (Z.of_nat (dim1 x) < 2 ^ 53)%Z →
  masking_of_noise x m noise = Ok (xm, mask, ids) →
  Forall (Forall (λ v, v = 0%Q)) mask.
Proof.
  intros Hm HL. apply (masking_all_kept _ _ _ _ _ _ (Z.of_nat (dim1 x))).
  - by apply len_keep_zero_ratio.
  - lia.
Qed.

Lemma zipM_length {A B C} (f : A → B → result C) (a : list A) (b : list B)
    (c : list C) :
  zipM f a b = Ok c → length c = length a `min` length b.
Proof.
  revert b c. induction a as [|x a IH]; intros [|y b] c H;
    try (injection H as <-; reflexivity).
  cbn [zipM] in H. apply bind_Ok in H as (z & _ & H).
  apply bind_Ok in H as (zs & Hzs & [= <-]).
  cbn [length]. rewrite (IH _ _ Hzs). reflexivity.
Qed.

Lemma broadcast_length_le {A B C} (f : A → B → result C) (a : list A)
    (b : list B) (c : list C) :
  broadcast f a b = Ok c → length c ≤ length a `max` length b.
Proof.
  unfold broadcast. intros H. case_decide as Hl.
  - apply zipM_length in H. lia.
  - destruct a as [|a0 [|a1 a]].
    + destruct b as [|b0 [|b1 b]]; try discriminate.
      apply mapM_Ok_length in H. simpl in *. lia.
    + apply mapM_Ok_length in H. simpl in *. lia.
    + destruct b as [|b0 [|b1 b]]; try discriminate.
      apply mapM_Ok_length in H. simpl in *. lia.
Qed.

(** The count of tokens that reaches [random_masking] converts to a
    float without rounding. *)
Lemma embedded_tokens_exact (enc : Encoder) (x : list image)
    (x' : list (list vec)) :
  token_counts_exact enc →
  mapM (λ s, badd2 s (drop 1 enc.(pos_embed))) (enc.(patch_embed) <$> x) = Ok x' →
  (Z.of_nat (dim1 x') < 2 ^ 53)%Z.
Proof.
  intros [Hpe Hpos] H. destruct x' as [|r0 x']; [simpl; lia|].
  apply mapM_Ok in H. destruct x as [|img x]; [inversion H|].
  rewrite fmap_cons in H. apply Forall2_cons in H as [Hr0 _].
  apply broadcast_length_le in Hr0. specialize (Hpe img).
  rewrite length_drop in Hr0. simpl. lia.
Qed.

Lemma sum2_zeros (mask : list (list Q)) :
  Forall (Forall (λ v, v = 0%Q)) mask → sum2 mask = 0%Q.
Proof.
  intros H. unfold sum2. apply Qsum_zeros. by apply Forall_concat.
Qed.

Section Encoder.
Variable rand_source : nat → nat → nat → Q.

Lemma random_masking_Ok (x : list (list vec)) (m : Q) (k k' : nat)
    (xm : list (list vec)) (mask : list (list Q)) (ids : list (list nat)) :
  random_masking rand_source x m k = Ok ((xm, mask, ids), k') →
  k' = S k ∧
  masking_of_noise x m
    ((λ n, rand_source k n <$> seq 0 (dim1 x)) <$> seq 0 (length x))
  = Ok (xm, mask, ids) ∧
  length xm = length x ∧ length mask = length x ∧ length ids = length x.
Proof.
  unfold random_masking. intros H.
  apply M_bind_Ok in H as (noise & k1 & Hn & H).
  unfold torch_rand in Hn. injection Hn as <- <-.
  apply lift_Ok in H as [H ->]. split; [done|]. split; [done|].
  destruct (masking_of_noise_Ok _ _ _ _ _ _ H)
    as (lk & _ & _ & _ & _ & H1 & H2 & H3).
  rewrite length_fmap, length_seq in H1, H2, H3. done.
Qed.

(** What a successful [Encoder.forward] tells: one draw was consumed,
    the batch size is kept, and the mask and the restore indices are
    those of [random_masking] on the embedded patches. *)
Lemma Encoder_forward_Ok (self : Encoder) (x : list image) (m : Q)
    (k k' : nat) (latent : list (list vec)) (mask : list (list Q))
    (ids : list (list nat)) :
  Encoder_forward rand_source self x m k = Ok ((latent, mask, ids), k') →
  k' = S k ∧
  length latent = length x ∧ length mask = length x ∧ length ids = length x ∧
  ∃ x' xm,
    mapM (λ s, badd2 s (drop 1 self.(pos_embed))) (self.(patch_embed) <$> x)
    = Ok x' ∧
    length x' = length x ∧
    masking_of_noise x' m
      ((λ n, rand_source k n <$> seq 0 (dim1 x')) <$> seq 0 (length x'))
    = Ok (xm, mask, ids).
Proof.
  unfold Encoder_forward. intros H.
  apply M_bind_Ok in H as (x' & k1 & Hx' & H).
  apply lift_Ok in Hx' as [Hx' ->].
  apply M_bind_Ok in H as ([[xm mask'] ids'] & k2 & Hm & H).
  apply random_masking_Ok in Hm as (-> & Hm & Hl1 & Hl2 & Hl3).
  apply M_bind_Ok in H as (cls & k3 & Hcls & H).
  apply lift_Ok in Hcls as [Hcls ->].
  apply M_bind_Ok in H as (xc & k4 & Hxc & H).
  apply lift_Ok in Hxc as [Hxc ->].
  injection H as <- <- <- <-.
  pose proof (mapM_Ok_length _ _ _ Hx') as Hlx. rewrite length_fmap in Hlx.
  unfold cat_dim1 in Hxc. case_decide; [|discriminate]. injection Hxc as <-.
  split; [done|]. split; [|split; [lia|split; [lia|]]].
  - rewrite length_fmap.
    assert (∀ (bs : list (list vec → list vec)) (t : list (list vec)),
              length (foldl (λ t blk, blk <$> t) t bs) = length t) as Hfold.
    { induction bs as [|b bs IH]; intros t; simpl; [done|].
      by rewrite IH, length_fmap. }
    rewrite Hfold, length_zip_with, length_replicate. lia.
  - exists x', xm. done.
Qed.

Lemma Encoder_forward_zero_ratio (self : Encoder) (x : list image) (m : Q)
    (k k' : nat) (latent : list (list vec)) (mask : list (list Q))
    (ids : list (list nat)) :
  (m == 0)%Q → token_counts_exact self →
  Encoder_forward rand_source self x m k = Ok ((latent, mask, ids), k') →
  Forall (Forall (λ v, v = 0%Q)) mask.
Proof.
  intros Hm Htok H.
  apply Encoder_forward_Ok in H as (_ & _ & _ & _ & x' & xm & Hx' & _ & H).
  eapply masking_zero_ratio; [exact Hm | | exact H].
  by eapply embedded_tokens_exact.
Qed.
End Encoder.

Lemma masked_mean_zero_mask (l : list (list (list Q))) (mask : list (list Q))
    (v : scalar) :
  Forall (Forall (λ v, v = 0%Q)) mask →
  masked_mean l mask = Ok v → v = NonFinite.
Proof.
  intros Hz H. unfold masked_mean in H.
  apply bind_Ok in H as (prod & _ & H). injection H as <-.
  by rewrite (sum2_zeros mask Hz).
Qed.

(** ** Mask ratio zero *)

Section ZeroRatio.
Variable rand_source : nat → nat → nat → Q.
Variable log_softmax : list Q → list Q.
Variable pow_half : Q → Q.

Lemma recons_loss_zero_mask (lrl : list (list (list Q))) (bz : nat)
    (mask : list (list Q)) (v : scalar) :
  Forall (Forall (λ v, v = 0%Q)) mask →
  recons_loss lrl bz mask = Ok v → v = NonFinite.
Proof.
  intros Hz H. unfold recons_loss in H.
  apply bind_Ok in H as (useful & _ & H). by eapply masked_mean_zero_mask.
Qed.

Lemma forward_recons_zero_ratio (self : CycleMAE) (x original_x : list image)
    (m : Q) (k k' : nat) (preds : list (list (list vec))) (bz : nat)
    (lr : scalar) :
  masks_nothing rand_source self.(encoder) m →
  forward_recons rand_source pow_half self x original_x m k
  = Ok ((preds, bz, lr), k') →
  lr = NonFinite ∧
  ∃ latent mask ids,
    Encoder_forward rand_source self.(encoder) x m k = Ok ((latent, mask, ids), S k) ∧
    Forall (Forall (λ v, v = 0%Q)) mask ∧ sum2 mask = 0%Q.
Proof.
  intros Hm H. unfold forward_recons in H.
  apply M_bind_Ok in H as ([[latent mask] ids] & k1 & Henc & H).
  pose proof (Hm _ _ _ _ _ _ Henc) as Hz.
  pose proof (Encoder_forward_Ok _ _ _ _ _ _ _ _ _ Henc) as (-> & _).
  apply M_bind_Ok in H as (first & k2 & _ & H).
  apply M_bind_Ok in H as (l0 & k3 & _ & H).
  apply M_bind_Ok in H as (lr' & k4 & Hlr & H).
  apply lift_Ok in Hlr as [Hlr ->]. injection H as _ _ <- _.
  split; [by eapply recons_loss_zero_mask|].
  exists latent, mask, ids. split; [done|]. split; [done|]. by apply sum2_zeros.
Qed.

Lemma cycle_step_zero_ratio (self : CycleMAE) (original_x : list image)
    (m : Q) (bz : nat) (pred_i : list (list vec)) (k k' : nat) (c : scalar)
    (mids : list (list (list vec))) :
  masks_nothing rand_source self.(encoder) m →
  cycle_step rand_source pow_half self original_x m bz pred_i k = Ok ((c, mids), k') →
  c = NonFinite.
Proof.
  intros Hm H. unfold cycle_step in H.
  apply M_bind_Ok in H as (imgs & k1 & _ & H).
  apply M_bind_Ok in H as ([[latent mask] ids] & k2 & Henc & H).
  pose proof (Hm _ _ _ _ _ _ Henc) as Hz.
  apply M_bind_Ok in H as (r & k3 & _ & H).
  apply M_bind_Ok in H as (c' & k4 & Hc & H).
  apply lift_Ok in Hc as [Hc ->]. injection H as <- _ _.
  by eapply masked_mean_zero_mask.
Qed.

Lemma foldl_sadd_NonFinite (a : scalar) (l : list scalar) :
  l ≠ [] → Forall (λ c, c = NonFinite) l → foldl sadd a l = NonFinite.
Proof.
  intros Hne HF. revert a. induction HF as [|c l -> HF IH]; intros a; [done|].
  simpl. destruct l as [|c' l].
  - simpl. by destruct a.
  - apply IH. done.
Qed.

Lemma forward_cycle_zero_ratio (self : CycleMAE) (original_x : list image)
    (m : Q) (bz : nat) (preds : list (list (list vec))) (k k' : nat)
    (lc : scalar) (dmfl : list (list (list (list vec)))) :
  masks_nothing rand_source self.(encoder) m →
  forward_cycle rand_source pow_half self original_x m bz preds k
  = Ok ((lc, dmfl), k') →
  lc = NonFinite.
Proof.
  intros Hm H. unfold forward_cycle in H.
  apply M_bind_Ok in H as (cyc & k1 & Hcyc & H). injection H as <- _ _.
  apply (mapM_M_Forall (λ r, r.1 = NonFinite)) in Hcyc as [Hl HF].
  - apply foldl_sadd_NonFinite.
    + destruct cyc; [discriminate | done].
    + by apply Forall_fmap.
  - intros i j [c mids] j' Hi. simpl.
    apply M_bind_Ok in Hi as (pred_i & j1 & _ & Hi).
    by eapply cycle_step_zero_ratio.
Qed.

(** When the encoder masks no patch, the divisions by [mask.sum()] are
    divisions by zero and the loss is not finite. *)
Lemma forward_masks_nothing (self : CycleMAE) (x original_x : list image)
    (mask_ratio : Q) (k k' : nat) (v : scalar) :
  masks_nothing rand_source self.(encoder) mask_ratio →
  forward rand_source log_softmax pow_half self x original_x mask_ratio k
  = Ok (v, k') →
  v = NonFinite ∧
  (∃ latent mask ids,
     Encoder_forward rand_source self.(encoder) x mask_ratio k
     = Ok ((latent, mask, ids), S k) ∧
     Forall (Forall (λ v, v = 0%Q)) mask ∧ sum2 mask = 0%Q) ∧
  (∃ loss_contrastive,
     forward_terms rand_source log_softmax pow_half self x original_x mask_ratio k
     = Ok ((NonFinite, NonFinite, loss_contrastive), k')).
Proof.
  intros Hm H. unfold forward in H.
  apply M_bind_Ok in H as ([[lr lc] lt] & k1 & Ht & H). injection H as <- <-.
  pose proof Ht as Ht'. unfold forward_terms in Ht'.
  apply M_bind_Ok in Ht' as ([[preds bz] lr'] & k2 & Hrec & Ht').
  apply M_bind_Ok in Ht' as ([lc' dmfl] & k3 & Hcyc & Ht').
  apply M_bind_Ok in Ht' as (lt' & k4 & _ & Ht'). injection Ht' as <- <- <- <-.
  destruct (forward_recons_zero_ratio _ _ _ _ _ _ _ _ _ Hm Hrec) as [-> Henc].
  rewrite (forward_cycle_zero_ratio _ _ _ _ _ _ _ _ _ Hm Hcyc) in *.
  split; [done|]. split; [exact Henc|]. by exists lt'.
Qed.

(** C10 (mask ratio zero).  With a mask ratio of 0 the mask of the encoder
    is all zero and its sum is 0, so the divisions by [mask.sum()] are
    divisions by zero: whenever the computation of the terms returns, the
    reconstruction term and the cycle term are non-finite, and [forward]
    never returns a finite loss.  The count [L] of patch tokens is below
    [2 ^ 53], so that its conversion to a float in [int (L * (1 - 0))]
    does not round and the result is [L]. *)
Theorem zero_mask_ratio_not_finite (self : CycleMAE) (x original_x : list image)
    (mask_ratio : Q) (k k' : nat) (v : scalar) :
  (mask_ratio == 0)%Q →
  token_counts_exact self.(encoder) →
  forward rand_source log_softmax pow_half self x original_x mask_ratio k
  = Ok (v, k') →
  v = NonFinite ∧
  (∃ latent mask ids,
     Encoder_forward rand_source self.(encoder) x mask_ratio k
     = Ok ((latent, mask, ids), S k) ∧
     Forall (Forall (λ v, v = 0%Q)) mask ∧ sum2 mask = 0%Q) ∧
  (∃ loss_contrastive,
     forward_terms rand_source log_softmax pow_half self x original_x mask_ratio k
     = Ok ((NonFinite, NonFinite, loss_contrastive), k')).
Proof.
  intros Hm Htok H. apply forward_masks_nothing; [|exact H].
  intros imgs j j' latent mask ids Henc.
  by eapply Encoder_forward_zero_ratio.
Qed.

End ZeroRatio.

(** ** Broadcasting on equal shapes, slices *)

Lemma zipM_Ok {A B C} (f : A → B → result C) (a : list A) (b : list B)
    (c : list C) :
  length a = length b →
  (zipM f a b = Ok c ↔ Forall2 (λ p y, f p.1 p.2 = Ok y) (zip a b) c).
Proof.
  revert b c. induction a as [|x a IH]; intros [|y b] c Hl; try discriminate.
  - simpl. split.
    + intros [= <-]. constructor.
    + intros H. inversion H. reflexivity.
  - simpl. split.
    + intros H. apply bind_Ok in H as (z & Hz & H).
      apply bind_Ok in H as (zs & Hzs & [= <-]).
      constructor; [done|]. apply IH; [|done]. simpl in Hl. lia.
    + intros H. inversion H as [|? z ? zs Hz Hzs]; subst. simpl in Hz.
      rewrite Hz. simpl.
      assert (zipM f a b = Ok zs) as ->; [|reflexivity].
      apply IH; [|done]. simpl in Hl. lia.
Qed.

Lemma zipM_total {A B C} (f : A → B → result C) (g : A → B → C)
    (a : list A) (b : list B) :
  length a = length b →
  (∀ i x y, a !! i = Some x → b !! i = Some y → f x y = Ok (g x y)) →
  zipM f a b = Ok (zip_with g a b).
Proof.
  revert b. induction a as [|x a IH]; intros [|y b] Hl H; try discriminate.
  - reflexivity.
  - simpl. rewrite (H 0 x y) by done. simpl.
    rewrite IH; [reflexivity | simpl in Hl; lia |].
    intros i. apply (H (S i)).
Qed.

Lemma broadcast_total {A B C} (f : A → B → result C) (g : A → B → C)
    (a : list A) (b : list B) :
  length a = length b →
  (∀ i x y, a !! i = Some x → b !! i = Some y → f x y = Ok (g x y)) →
  broadcast f a b = Ok (zip_with g a b).
Proof.
  intros Hl H. unfold broadcast. rewrite decide_True by done.
  by apply zipM_total.
Qed.

Lemma shape2_lookup {A} (n m : nat) (t : list (list A)) (i : nat) (r : list A) :
  shape2 n m t → t !! i = Some r → length r = m.
Proof.
  intros [_ H] Hi. rewrite Forall_forall in H. apply H.
  by eapply list_elem_of_lookup_2.
Qed.

Lemma bmul2_same_shape (a b : list (list Q)) (n m : nat) :
  shape2 n m a → shape2 n m b →
  bmul2 a b = Ok (zip_with (zip_with Qmult) a b).
Proof.
  intros Ha Hb. unfold bmul2. apply broadcast_total.
  - destruct Ha as [-> _], Hb as [-> _]. done.
  - intros i x y Hx Hy. apply broadcast_total.
    + by rewrite (shape2_lookup _ _ _ _ _ Ha Hx), (shape2_lookup _ _ _ _ _ Hb Hy).
    + reflexivity.
Qed.

Lemma masked_mean_same_shape (l : list (list (list Q))) (mask : list (list Q))
    (n m : nat) :
  shape2 n m (concat l) → shape2 n m mask →
  masked_mean l mask = Ok (masked_average (concat l) mask).
Proof.
  intros Hl Hm. unfold masked_mean.
  rewrite (bmul2_same_shape _ _ n m) by done. reflexivity.
Qed.

Lemma py_slice_length {A} (a b : nat) (l : list A) :
  b ≤ length l → length (py_slice a b l) = b - a.
Proof. intros H. unfold py_slice. rewrite length_take, length_drop. lia. Qed.

Lemma py_slice_lookup {A} (a b i : nat) (l : list A) :
  i < b - a → py_slice a b l !! i = l !! (a + i).
Proof.
  intros H. unfold py_slice. rewrite lookup_take_lt by done. apply lookup_drop.
Qed.

Lemma Forall2_py_slice {A B} (P : A → B → Prop) (a b : nat)
    (l : list A) (k : list B) :
  Forall2 P l k → Forall2 P (py_slice a b l) (py_slice a b k).
Proof. intros H. unfold py_slice. by apply Forall2_take, Forall2_drop. Qed.

Lemma mapM_py_slice {A B} (f : A → result B) (a b : nat) (l : list A)
    (k : list B) :
  mapM f l = Ok k → mapM f (py_slice a b l) = Ok (py_slice a b k).
Proof. rewrite !mapM_Ok. apply Forall2_py_slice. Qed.

Lemma zip_with_py_slice {A B C} (f : A → B → C) (a b : nat) (l : list A)
    (k : list B) :
  zip_with f (py_slice a b l) (py_slice a b k) = py_slice a b (zip_with f l k).
Proof. unfold py_slice. by rewrite <- zip_with_take, <- zip_with_drop. Qed.

Lemma zipM_py_slice {A B C} (f : A → B → result C) (a b : nat)
    (l : list A) (k : list B) (c : list C) :
  length l = length k →
  zipM f l k = Ok c → zipM f (py_slice a b l) (py_slice a b k) = Ok (py_slice a b c).
Proof.
  intros Hl H. apply zipM_Ok in H; [|done].
  assert (length (py_slice a b l) = length (py_slice a b k)) as Hs.
  { unfold py_slice. rewrite !length_take, !length_drop. lia. }
  apply (zipM_Ok _ _ _ _ Hs).
  rewrite (zip_with_py_slice pair). by apply Forall2_py_slice.
Qed.

Lemma fmap_py_slice {A B} (f : A → B) (a b : nat) (l : list A) :
  f <$> py_slice a b l = py_slice a b (f <$> l).
Proof. unfold py_slice. by rewrite fmap_take, fmap_drop. Qed.

Lemma Forall_py_slice {A} (P : A → Prop) (a b : nat) (l : list A) :
  Forall P l → Forall P (py_slice a b l).
Proof. intros H. unfold py_slice. by apply Forall_take, Forall_drop. Qed.

(** ** The per-patch loss of a group of rows *)

Lemma patchify_Ok (self : CycleMAE) (imgs : list image)
    (target : list (list vec)) :
  patchify self imgs = Ok target →
  dimH imgs = dimW imgs ∧ self.(encoder).(patch_size) ≠ 0 ∧
  dimH imgs mod self.(encoder).(patch_size) = 0 ∧
  length target = length imgs ∧
  mapM (λ img,
          if bool_decide (length (flat3 img)
                          = 3 * (dimH imgs / self.(encoder).(patch_size))
                            * self.(encoder).(patch_size)
                            * (dimH imgs / self.(encoder).(patch_size))
                            * self.(encoder).(patch_size))
          then Ok (patchify_sample self.(encoder).(patch_size)
                     (dimH imgs / self.(encoder).(patch_size))
                     (dimH imgs / self.(encoder).(patch_size)) (flat3 img))
          else Raise RuntimeError) imgs = Ok target.
Proof.
  unfold patchify. intros H.
  destruct (bool_decide (dimH imgs = dimW imgs)) eqn:H1; [|discriminate].
  destruct (bool_decide (patch_size (encoder self) = 0)) eqn:H2; [discriminate|].
  destruct (bool_decide (dimH imgs mod patch_size (encoder self) = 0)) eqn:H3;
    [|discriminate].
  simpl in H. apply bool_decide_eq_true in H1. apply bool_decide_eq_false in H2.
  apply bool_decide_eq_true in H3.
  pose proof (mapM_Ok_length _ _ _ H). done.
Qed.

Lemma patchify_py_slice (self : CycleMAE) (imgs : list image)
    (target : list (list vec)) (H a b : nat) :
  Forall (image_shape 3 H H) imgs →
  patchify self imgs = Ok target →
  patchify self (py_slice a b imgs) = Ok (py_slice a b target).
Proof.
  intros Hs Hp. apply patchify_Ok in Hp as (H1 & H2 & H3 & Hl & Hm).
  pose proof (mapM_py_slice _ a b _ _ Hm) as Hm'.
  unfold patchify.
  destruct (py_slice a b imgs !! 0) as [img|] eqn:Hi.
  - assert (imgs ≠ []) as Hne.
    { intros ->. unfold py_slice in Hi. by rewrite drop_nil, take_nil in Hi. }
    destruct (imgs !! 0) as [img0|] eqn:Hi0; [|by destruct imgs].
    destruct (dims_of_shape _ _ H Hs Hi0) as [Hd1 Hd2].
    destruct (dims_of_shape _ _ H (Forall_py_slice _ a b _ Hs) Hi) as [-> ->].
    rewrite Hd1 in H3, Hm'.
    rewrite bool_decide_true by done. simpl.
    rewrite bool_decide_false by done.
    rewrite bool_decide_true by done. simpl. exact Hm'.
  - destruct (py_slice a b imgs) as [|? ?] eqn:Hsl; [|discriminate].
    simpl. rewrite bool_decide_false by done.
    rewrite Nat.Div0.mod_0_l, bool_decide_true by done. simpl.
    simpl in Hm'. by injection Hm' as <-.
Qed.

Section PerPatchLoss.
Variable pow_half : Q → Q.

Lemma forward_loss_py_slice (self : CycleMAE) (imgs : list image)
    (pred : list (list vec)) (mask mask' : list (list Q))
    (full : list (list Q)) (H a b : nat) :
  Forall (image_shape 3 H H) imgs → length pred = length imgs →
  forward_loss pow_half self imgs pred mask = Ok full →
  forward_loss pow_half self (py_slice a b imgs) (py_slice a b pred) mask'
  = Ok (py_slice a b full).
Proof.
  intros Hs Hl Hf. unfold forward_loss in *.
  apply bind_Ok in Hf as (target & Hp & Hf).
  apply bind_Ok in Hf as (loss & Hsub & Hf). injection Hf as <-.
  rewrite (patchify_py_slice _ _ _ H a b Hs Hp). simpl.
  apply patchify_Ok in Hp as (_ & _ & _ & Hlt & _).
  set (target' := if norm_pix_loss self
                  then fmap (M := list) (fmap (M := list) (normalize_target pow_half)) target
                  else target) in *.
  assert (length target' = length target) as Hlt'.
  { unfold target'. destruct (norm_pix_loss self); [|done]. by rewrite length_fmap. }
  assert ((if norm_pix_loss self
           then fmap (M := list) (fmap (M := list) (normalize_target pow_half))
                  (py_slice a b target)
           else py_slice a b target) = py_slice a b target') as ->.
  { unfold target'. destruct (norm_pix_loss self); [|done]. apply fmap_py_slice. }
  assert (length pred = length target') as Hpt.
  { exact (eq_trans Hl (eq_sym (eq_trans Hlt' Hlt))). }
  unfold bsub3 in Hsub. unfold broadcast at 1 in Hsub.
  rewrite (decide_True _ _ Hpt) in Hsub.
  unfold bsub3. unfold broadcast at 1.
  assert (length (py_slice a b pred) = length (py_slice a b target')) as Hps.
  { unfold py_slice. rewrite !length_take, !length_drop. by rewrite Hpt. }
  rewrite (decide_True _ _ Hps).
  apply bind_Ok. exists (py_slice a b loss). split.
  - exact (zipM_py_slice _ a b _ _ loss Hpt Hsub).
  - by rewrite fmap_py_slice.
Qed.

End PerPatchLoss.

(** ** The diagonal of the decoder-by-group grid *)

Lemma shape2_nth {A} (n m : nat) (t : list (list A)) (i : nat) :
  shape2 n m t → i < n → t !! i = Some (nth i t []) ∧ length (nth i t []) = m.
Proof.
  intros Ht Hi. pose proof Ht as [Hn _].
  destruct (lookup_lt_is_Some_2 t i) as [r Hr]; [lia|].
  rewrite (nth_lookup_Some _ _ _ _ Hr). split; [done|].
  by apply (shape2_lookup n m t i).
Qed.

Lemma diagonal_rows_shape (bz N L : nat) (f : nat → list (list Q)) :
  (∀ r, r < N → shape2 N L (f (r / bz))) →
  shape2 N L (diagonal_rows bz f N).
Proof.
  intros Hf. unfold diagonal_rows. split.
  - by rewrite length_fmap, length_seq.
  - apply Forall_fmap, Forall_forall. intros r Hr. simpl.
    apply elem_of_seq in Hr.
    apply (shape2_nth N L); [apply Hf|]; lia.
Qed.

(** Concatenating the slice [j * bz, (j + 1) * bz) of [f j] over the three
    groups gives, row by row, the losses of the decoder of the row's own
    group. *)
Lemma diagonal_concat (bz N L : nat) (f : nat → list (list Q)) :
  N = 3 * bz → (∀ j, j < 3 → shape2 N L (f j)) →
  concat ((λ j, py_slice (j * bz) ((j + 1) * bz) (f j)) <$> seq 0 3)
  = diagonal_rows bz f N.
Proof.
  intros HN Hf.
  set (s := λ j, py_slice (j * bz) ((j + 1) * bz) (f j)).
  change (s 0 ++ s 1 ++ s 2 ++ [] = diagonal_rows bz f N).
  assert (∀ j, j < 3 → length (s j) = bz) as Hlen.
  { intros j Hj. unfold s. rewrite py_slice_length; [lia|].
    destruct (Hf j Hj) as [-> _]. nia. }
  assert (∀ j i, j < 3 → i < bz →
            s j !! i = diagonal_rows bz f N !! (j * bz + i)) as Hat.
  { intros j i Hj Hi. unfold s. rewrite py_slice_lookup by lia.
    unfold diagonal_rows. rewrite list_lookup_fmap, lookup_seq_lt by nia. simpl.
    destruct (div_mod_pair j i bz Hi) as [-> _].
    apply (shape2_nth N L); [by apply Hf | nia]. }
  apply list_eq. intros i. rewrite app_nil_r.
  destruct (decide (i < bz)) as [H0|H0].
  { rewrite lookup_app_l by (rewrite Hlen; lia). rewrite (Hat 0 i) by lia.
    f_equal. }
  rewrite lookup_app_r by (rewrite Hlen; lia). rewrite (Hlen 0) by lia.
  destruct (decide (i - bz < bz)) as [H1|H1].
  { rewrite lookup_app_l by (rewrite Hlen; lia). rewrite (Hat 1 (i - bz)) by lia.
    f_equal. lia. }
  rewrite lookup_app_r by (rewrite Hlen; lia). rewrite (Hlen 1) by lia.
  destruct (decide (i - bz - bz < bz)) as [H2|H2].
  { rewrite (Hat 2 (i - bz - bz)) by lia. f_equal. lia. }
  rewrite lookup_ge_None_2 by (rewrite Hlen; lia).
  symmetry. apply lookup_ge_None_2. unfold diagonal_rows.
  rewrite length_fmap, length_seq. lia.
Qed.

Lemma mapM_M_cons {A B} (f : A → M B) (a : A) (l : list A) (k : nat) :
  mapM f (a :: l) k
  = match f a k with
    | Ok (y, k1) => match mapM f l k1 with
                    | Ok (r, k2) => Ok (y :: r, k2)
                    | Raise e => Raise e
                    end
    | Raise e => Raise e
    end.
Proof.
  change (mapM f (a :: l)) with (y ← f a; r ← mapM f l; mret (y :: r)).
  rewrite M_bind_run. destruct (f a k) as [[y k1]|e]; [|done].
  rewrite M_bind_run. by destruct (mapM f l k1) as [[r k2]|e].
Qed.

Lemma index_Ok {A} (l : list A) (i : nat) (a : A) :
  l !! i = Some a → index l i = Ok a.
Proof. unfold index. by intros ->. Qed.

(** ** The cycle loss *)

Section Cycle.
Variable rand_source : nat → nat → nat → Q.
Variable pow_half : Q → Q.

(** One pass of the cycle loop, for the prediction [pred_d] of one source
    domain: its contribution is the masked average, under the mask of its
    own draw, of the diagonal rows of the per-patch losses of the three
    decoders against the original images. *)
Lemma cycle_step_formula (self : CycleMAE) (original_x : list image)
    (mask_ratio : Q) (bz N L H k : nat) (pred_d : list (list vec))
    (imgs : list image) (latent : list (list vec)) (mask : list (list Q))
    (ids : list (list nat)) (dec : nat → Decoder)
    (pred' mid : nat → list (list vec)) (full : nat → list (list Q)) :
  N = 3 * bz → length original_x = N →
  Forall (image_shape 3 H H) original_x →
  unpatchify self pred_d = Ok imgs →
  Encoder_forward rand_source self.(encoder) imgs mask_ratio k
  = Ok ((latent, mask, ids), S k) →
  shape2 N L mask →
  (∀ j, j < 3 →
     get_decoder self j = Ok (dec j) ∧
     Decoder_forward (dec j) latent ids = Ok (pred' j, mid j) ∧
     length (pred' j) = N ∧
     forward_loss pow_half self original_x (pred' j) mask = Ok (full j) ∧
     shape2 N L (full j)) →
  cycle_step rand_source pow_half self original_x mask_ratio bz pred_d k
  = Ok ((masked_average (diagonal_rows bz full N) mask, mid <$> seq 0 3), S k).
Proof.
  intros HN Hox Hs Hun Henc Hmask Hj. unfold cycle_step.
  rewrite M_bind_run, Hun, lift_run_Ok. cbv beta iota.
  rewrite M_bind_run, Henc. cbv beta iota.
  rewrite M_bind_run.
  rewrite (mapM_total _ (λ j, (py_slice (j * bz) ((j + 1) * bz) (full j), mid j))).
  - rewrite lift_run_Ok. cbv beta iota. rewrite M_bind_run.
    assert (((λ j, (py_slice (j * bz) ((j + 1) * bz) (full j), mid j)) <$> seq 0 3).*1
            = (λ j, py_slice (j * bz) ((j + 1) * bz) (full j)) <$> seq 0 3) as ->
      by reflexivity.
    rewrite (masked_mean_same_shape _ _ N L).
    + rewrite lift_run_Ok. cbv beta iota.
      rewrite (diagonal_concat bz N L) by (done || intros; by apply Hj).
      reflexivity.
    + rewrite (diagonal_concat bz N L) by (done || intros; by apply Hj).
      apply diagonal_rows_shape. intros r Hr. apply Hj.
      destruct bz; [lia|]. apply Nat.Div0.div_lt_upper_bound. lia.
    + done.
  - intros j Hin. apply elem_of_seq in Hin.
    destruct (Hj j) as (Hg & Hdf & Hl & Hf & _); [lia|].
    apply bind_Ok. exists (dec j). split; [exact Hg|].
    apply bind_Ok. exists (pred' j, mid j). split; [exact Hdf|].
    apply bind_Ok. exists (py_slice (j * bz) ((j + 1) * bz) (full j)).
    split; [|reflexivity].
    apply (forward_loss_py_slice pow_half self original_x (pred' j) mask _
             (full j) H); [done | lia | done].
Qed.

(** X18 (the cycle loss on three domains).  Let the batch hold
    [N = 3 * bz] original images.  For each [d] of the three domains the
    forward pass iterates over, the pass unpatchifies the whole
    prediction of decoder [d], encodes it with a draw of its own (the
    [d]-th after the [k] draws made before), decodes the latent with each
    decoder [j], and scores row [r] on the per-patch squared error of the
    prediction of the decoder of the group of [r], [r / bz], against
    original image [r], weighted by row [r] of the mask of this draw and
    normalised by that mask's sum.  [loss_cycle] is the sum of the three
    contributions, added one after the other to 0, and three draws are
    consumed. *)
Theorem cycle_loss_assembly (self : CycleMAE) (original_x : list image)
    (mask_ratio : Q) (bz N L H k : nat) (preds : list (list (list vec)))
    (imgs : nat → list image) (latent : nat → list (list vec))
    (mask : nat → list (list Q)) (ids : nat → list (list nat))
    (dec : nat → Decoder) (pred' mid : nat → nat → list (list vec))
    (full : nat → nat → list (list Q)) :
  N = 3 * bz → length original_x = N →
  Forall (image_shape 3 H H) original_x →
  (∀ j, j < 3 → get_decoder self j = Ok (dec j)) →
  (∀ d, d < 3 →
     ∃ pred_d, preds !! d = Some pred_d ∧
       unpatchify self pred_d = Ok (imgs d) ∧
       Encoder_forward rand_source self.(encoder) (imgs d) mask_ratio (k + d)
       = Ok ((latent d, mask d, ids d), S (k + d)) ∧
       shape2 N L (mask d) ∧
       ∀ j, j < 3 →
         Decoder_forward (dec j) (latent d) (ids d) = Ok (pred' d j, mid d j) ∧
         length (pred' d j) = N ∧
         forward_loss pow_half self original_x (pred' d j) (mask d)
         = Ok (full d j) ∧
         shape2 N L (full d j)) →
  forward_cycle rand_source pow_half self original_x mask_ratio bz preds k
  = Ok ((sadd (sadd (sadd (Fin 0)
                 (masked_average (diagonal_rows bz (full 0) N) (mask 0)))
                 (masked_average (diagonal_rows bz (full 1) N) (mask 1)))
                 (masked_average (diagonal_rows bz (full 2) N) (mask 2)),
         (λ j, (λ d, mid d j) <$> seq 0 3) <$> seq 0 3), k + 3).
Proof.
  intros HN Hox Hs Hdec Hd. unfold forward_cycle.
  assert (∀ d, d < 3 →
            (pred_i ← lift (index preds d);
             cycle_step rand_source pow_half self original_x mask_ratio bz pred_i)
              (k + d)
            = Ok ((masked_average (diagonal_rows bz (full d) N) (mask d),
                   mid d <$> seq 0 3), S (k + d))) as Hstep.
  { intros d Hlt. destruct (Hd d Hlt) as (pred_d & Hp & Hun & Henc & Hm & Hj).
    rewrite M_bind_run, (index_Ok _ _ _ Hp). simpl.
    apply (cycle_step_formula self original_x mask_ratio bz N L H (k + d) pred_d
             (imgs d) (latent d) (mask d) (ids d) dec (pred' d) (mid d) (full d));
      [done..|].
    intros j Hjlt. destruct (Hj j Hjlt) as (? & ? & ? & ?).
    split; [by apply Hdec|done]. }
  rewrite M_bind_run. change (seq 0 3) with [0; 1; 2] at 1.
  rewrite mapM_M_cons.
  pose proof (Hstep 0 ltac:(lia)) as H0. rewrite Nat.add_0_r in H0. rewrite H0.
  rewrite mapM_M_cons.
  pose proof (Hstep 1 ltac:(lia)) as H1. rewrite Nat.add_1_r in H1. rewrite H1.
  rewrite mapM_M_cons.
  pose proof (Hstep 2 ltac:(lia)) as H2.
  replace (k + 2) with (S (S k)) in H2 by lia. rewrite H2.
  replace (k + 3) with (S (S (S k))) by lia. reflexivity.
Qed.

End Cycle.

(** ** The reconstruction loss on three domains *)

Lemma Forall2_lookup_both {A B} (P : A → B → Prop) (l : list A) (k : list B)
    (i : nat) (x : A) (y : B) :
  Forall2 P l k → l !! i = Some x → k !! i = Some y → P x y.
Proof.
  intros H Hx Hy. destruct (Forall2_lookup_l _ _ _ _ _ H Hx) as (y' & Hy' & HP).
  congruence.
Qed.

Lemma bsub3_same_shape (a b : list (list vec)) :
  same_shape3 a b →
  bsub3 a b = Ok (zip_with (zip_with (zip_with Qminus)) a b).
Proof.
  intros Hs. unfold bsub3. apply broadcast_total.
  - exact (Forall2_length _ _ _ Hs).
  - intros i x y Hx Hy. pose proof (Forall2_lookup_both _ _ _ _ _ _ Hs Hx Hy) as Hr.
    apply broadcast_total.
    + exact (Forall2_length _ _ _ Hr).
    + intros j u v Hu Hv. apply broadcast_total.
      * exact (Forall2_lookup_both _ _ _ _ _ _ Hr Hu Hv).
      * reflexivity.
Qed.

Lemma fmap_zip_with {A B C D} (g : C → D) (f : A → B → C) (l : list A)
    (k : list B) :
  g <$> zip_with f l k = zip_with (λ x y, g (f x y)) l k.
Proof.
  revert k. induction l as [|x l IH]; intros [|y k]; simpl; [done..|].
  by rewrite <- IH.
Qed.

Section Recons.
Variable rand_source : nat → nat → nat → Q.
Variable pow_half : Q → Q.

(** X1 (the per-patch loss is a mean squared error).  Without pixel
    normalisation, and for a prediction of the shape of the patchified
    images, [forward_loss] returns, for every image and every patch, the
    mean over the pixel dimension of the squared difference between the
    prediction and the patchified image. *)
Lemma forward_loss_mse (self : CycleMAE) (imgs : list image)
    (pred target : list (list vec)) (mask : list (list Q)) :
  self.(norm_pix_loss) = false →
  patchify self imgs = Ok target → same_shape3 pred target →
  forward_loss pow_half self imgs pred mask = Ok (per_patch_mse pred target).
Proof.
  intros Hn Hp Hs. unfold forward_loss. rewrite Hp, Hn. simpl.
  rewrite (bsub3_same_shape _ _ Hs). simpl. f_equal. unfold per_patch_mse.
  rewrite fmap_zip_with. apply zip_with_ext; [|done..].
  intros x y. by rewrite fmap_zip_with.
Qed.

(** X2 (the reconstruction loss).  The reconstruction part of [forward]
    on [N = 3 * bz] rows: the masked average, under the mask of the
    encoder, of the diagonal rows of the per-patch losses of the three
    decoders (row [r] is scored on the prediction of decoder [r / bz]),
    with one draw consumed.  For a model built with three domains [N / 3]
    is [N / num_domains] and this is the loss the specification
    describes. *)
Lemma recons_loss_three_domains (self : CycleMAE) (x original_x : list image)
    (mask_ratio : Q) (bz N L k : nat) (latent : list (list vec))
    (mask : list (list Q)) (ids : list (list nat)) (dec : nat → Decoder)
    (pred mid : nat → list (list vec)) (ppl : nat → list (list Q)) :
  N = 3 * bz →
  Encoder_forward rand_source self.(encoder) x mask_ratio k
  = Ok ((latent, mask, ids), S k) →
  shape2 N L mask →
  (∀ d, d < 3 →
     get_decoder self d = Ok (dec d) ∧
     Decoder_forward (dec d) latent ids = Ok (pred d, mid d) ∧
     forward_loss pow_half self original_x (pred d) mask = Ok (ppl d) ∧
     shape2 N L (ppl d)) →
  forward_recons rand_source pow_half self x original_x mask_ratio k
  = Ok ((pred <$> seq 0 3, N / 3,
         masked_average (diagonal_rows (N / 3) ppl N) mask), S k).
Proof.
  intros HN Henc Hm Hd. unfold forward_recons.
  assert (N / 3 = bz) as Hbz by (subst N; by rewrite Nat.mul_comm, Nat.div_mul).
  rewrite M_bind_run, Henc. cbv beta iota. rewrite M_bind_run.
  unfold decode_all.
  rewrite (mapM_total _ (λ d, (pred d, ppl d))).
  - rewrite lift_run_Ok. cbv beta iota.
    assert (((λ d, (pred d, ppl d)) <$> seq 0 3).*2 = ppl <$> seq 0 3) as ->
      by reflexivity.
    assert (((λ d, (pred d, ppl d)) <$> seq 0 3).*1 = pred <$> seq 0 3) as ->
      by reflexivity.
    rewrite M_bind_run. change (index (ppl <$> seq 0 3) 0) with (Ok (ppl 0)).
    rewrite lift_run_Ok. cbv beta iota.
    destruct (Hd 0) as (_ & _ & _ & [Hl0 _]); [lia|]. rewrite Hl0, Hbz.
    rewrite M_bind_run. unfold recons_loss.
    rewrite (mapM_total _ (λ d, py_slice (d * bz) ((d + 1) * bz) (ppl d))).
    + rewrite bind_Ok_run. rewrite (masked_mean_same_shape _ _ N L).
      * rewrite lift_run_Ok. cbv beta iota.
        rewrite (diagonal_concat bz N L) by (done || intros; by apply Hd).
        reflexivity.
      * rewrite (diagonal_concat bz N L) by (done || intros; by apply Hd).
        apply diagonal_rows_shape. intros r Hr. apply Hd.
        destruct bz; [lia|]. apply Nat.Div0.div_lt_upper_bound. lia.
      * done.
    + intros d Hin. apply elem_of_seq in Hin.
      assert ((ppl <$> seq 0 3) !! d = Some (ppl d)) as Hl.
      { rewrite list_lookup_fmap, lookup_seq_lt by lia. done. }
      by rewrite (index_Ok _ _ _ Hl).
  - intros d Hin. apply elem_of_seq in Hin.
    destruct (Hd d) as (Hg & Hdf & Hf & _); [lia|].
    apply bind_Ok. exists (dec d). split; [exact Hg|].
    apply bind_Ok. exists (pred d, mid d). split; [exact Hdf|].
    apply bind_Ok. exists (ppl d). split; [exact Hf | reflexivity].
Qed.

End Recons.

(** ** Shape errors of the forward pass *)

Lemma foldl_fmap_length {A} (bs : list (list A → list A)) (t : list (list A)) :
  length (foldl (λ t blk, blk <$> t) t bs) = length t.
Proof.
  revert t. induction bs as [|b bs IH]; intros t; simpl; [done|].
  by rewrite IH, length_fmap.
Qed.

Lemma Decoder_restore_length (self : Decoder) (x : list (list vec))
    (ids : list (list nat)) (r : list (list vec)) :
  Decoder_restore self x ids = Ok r → length r = length x.
Proof.
  unfold Decoder_restore. intros H.
  destruct (_ <? 0)%Z; [discriminate|].
  apply bind_Ok in H as (x_ & _ & H). unfold cat_dim1 in H.
  case_decide as Hl; [|discriminate]. injection H as <-.
  rewrite length_zip_with. rewrite !length_fmap in *. lia.
Qed.

Lemma Decoder_forward_length (self : Decoder) (x : list (list vec))
    (ids : list (list nat)) (pred mid : list (list vec)) :
  Decoder_forward self x ids = Ok (pred, mid) →
  length pred = length x ∧ length mid = length x.
Proof.
  unfold Decoder_forward. intros H.
  apply bind_Ok in H as (r & Hr & H).
  apply bind_Ok in H as (xp & Hxp & H).
  apply Decoder_restore_length in Hr. apply mapM_Ok_length in Hxp.
  destruct (decoder_blocks self) as [|blk0 blks]; [discriminate|].
  injection H as <- <-.
  rewrite !length_fmap, foldl_fmap_length, !length_fmap. lia.
Qed.

Lemma unpatchify_length (self : CycleMAE) (x : list (list vec))
    (imgs : list image) :
  unpatchify self x = Ok imgs → length imgs = length x.
Proof.
  unfold unpatchify. intros H.
  destruct (negb _); [discriminate|]. by apply mapM_Ok_length in H.
Qed.

Lemma feature_bank_Ok (feats bank : list (list (list vec))) :
  feature_bank feats = Ok bank → length (concat feats) mod 9 = 0.
Proof.
  unfold feature_bank. intros H.
  destruct (bool_decide (length (concat feats) mod 9 = 0)) eqn:Hb;
    [|discriminate].
  by apply bool_decide_eq_true in Hb.
Qed.

Lemma mapM_seq3_Ok {B} (f : nat → result B) (l : list B) :
  mapM f (seq 0 3) = Ok l →
  ∃ y0 y1 y2, l = [y0; y1; y2] ∧ f 0 = Ok y0 ∧ f 1 = Ok y1 ∧ f 2 = Ok y2.
Proof.
  intros H. apply mapM_Ok in H. simpl in H.
  inversion H as [|? y0 ? l0 H0 Ha]; subst.
  inversion Ha as [|? y1 ? l1 H1 Hb]; subst.
  inversion Hb as [|? y2 ? l2 H2 Hc]; subst.
  inversion Hc; subst. by exists y0, y1, y2.
Qed.

Section ShapeErrors.
Variable rand_source : nat → nat → nat → Q.
Variable log_softmax : list Q → list Q.
Variable pow_half : Q → Q.

Lemma forward_loss_Ok (self : CycleMAE) (imgs : list image)
    (pred : list (list vec)) (mask : list (list Q)) (l : list (list Q)) :
  forward_loss pow_half self imgs pred mask = Ok l →
  ∃ target, patchify self imgs = Ok target.
Proof.
  unfold forward_loss. intros H. apply bind_Ok in H as (target & Hp & _).
  by exists target.
Qed.

Lemma forward_recons_Ok (self : CycleMAE) (x original_x : list image)
    (m : Q) (k k' : nat) (preds : list (list (list vec))) (bz : nat)
    (lr : scalar) :
  forward_recons rand_source pow_half self x original_x m k
  = Ok ((preds, bz, lr), k') →
  (∃ target, patchify self original_x = Ok target) ∧
  length preds = 3 ∧ Forall (λ p, length p = length x) preds.
Proof.
  unfold forward_recons. intros H.
  apply M_bind_Ok in H as ([[latent mask] ids] & k1 & Henc & H).
  apply Encoder_forward_Ok in Henc as (_ & Hl & _).
  apply M_bind_Ok in H as (first & k2 & Hfirst & H).
  apply lift_Ok in Hfirst as [Hfirst ->].
  apply M_bind_Ok in H as (l0 & k3 & _ & H).
  apply M_bind_Ok in H as (lr' & k4 & _ & H). injection H as <- _ _ _.
  unfold decode_all in Hfirst.
  apply mapM_seq3_Ok in Hfirst as (y0 & y1 & y2 & -> & H0 & H1 & H2).
  assert (∀ i y, (dec ← get_decoder self i;
                  '(pred, _) ← Decoder_forward dec latent ids;
                  loss_recons ← forward_loss pow_half self original_x pred mask;
                  Ok (pred, loss_recons)) = Ok y →
                 length y.1 = length x ∧
                 ∃ target, patchify self original_x = Ok target) as Hone.
  { intros i y Hy. apply bind_Ok in Hy as (dec & _ & Hy).
    apply bind_Ok in Hy as ([pred mid] & Hd & Hy).
    apply bind_Ok in Hy as (l & Hf & Hy). injection Hy as <-. simpl.
    apply Decoder_forward_length in Hd as [Hd _]. split; [lia|].
    by eapply forward_loss_Ok. }
  destruct (Hone 0 y0 H0) as [Hl0 Hp], (Hone 1 y1 H1) as [Hl1 _],
    (Hone 2 y2 H2) as [Hl2 _].
  split; [exact Hp|]. split; [done|]. simpl. by repeat constructor.
Qed.

Lemma cycle_step_Ok (self : CycleMAE) (original_x : list image) (m : Q)
    (bz : nat) (pred_i : list (list vec)) (k k' : nat) (c : scalar)
    (mids : list (list (list vec))) :
  cycle_step rand_source pow_half self original_x m bz pred_i k
  = Ok ((c, mids), k') →
  ∃ m0 m1 m2, mids = [m0; m1; m2] ∧ length m0 = length pred_i ∧
              length m1 = length pred_i ∧ length m2 = length pred_i.
Proof.
  unfold cycle_step. intros H.
  apply M_bind_Ok in H as (imgs & k1 & Hun & H).
  apply lift_Ok in Hun as [Hun ->]. apply unpatchify_length in Hun.
  apply M_bind_Ok in H as ([[latent mask] ids] & k2 & Henc & H).
  apply Encoder_forward_Ok in Henc as (_ & Hl & _).
  apply M_bind_Ok in H as (r & k3 & Hr & H).
  apply lift_Ok in Hr as [Hr ->].
  apply M_bind_Ok in H as (c' & k4 & _ & H). injection H as _ <- _.
  apply mapM_seq3_Ok in Hr as (y0 & y1 & y2 & -> & H0 & H1 & H2).
  assert (∀ j y, (dec ← get_decoder self j;
                  '(pred, decoder_mid_feature) ← Decoder_forward dec latent ids;
                  loss_cycle_tmp ←
                    forward_loss pow_half self
                      (py_slice (j * bz) ((j + 1) * bz) original_x)
                      (py_slice (j * bz) ((j + 1) * bz) pred)
                      (py_slice (j * bz) ((j + 1) * bz) mask);
                  Ok (loss_cycle_tmp, decoder_mid_feature)) = Ok y →
                 length y.2 = length pred_i) as Hone.
  { intros j y Hy. apply bind_Ok in Hy as (dec & _ & Hy).
    apply bind_Ok in Hy as ([pred mid] & Hd & Hy).
    apply bind_Ok in Hy as (l & _ & Hy). injection Hy as <-. simpl.
    apply Decoder_forward_length in Hd as [_ Hd]. lia. }
  exists y0.2, y1.2, y2.2. split; [done|].
  split; [by apply (Hone 0)|]. split; [by apply (Hone 1) | by apply (Hone 2)].
Qed.

Lemma forward_cycle_Ok (self : CycleMAE) (original_x : list image) (m : Q)
    (bz N : nat) (preds : list (list (list vec))) (k k' : nat) (lc : scalar)
    (dmfl : list (list (list (list vec)))) :
  Forall (λ p, length p = N) preds →
  forward_cycle rand_source pow_half self original_x m bz preds k
  = Ok ((lc, dmfl), k') →
  ∃ feats, dmfl !! 0 = Some feats ∧ length (concat feats) = 3 * N.
Proof.
  intros Hp H. unfold forward_cycle in H.
  apply M_bind_Ok in H as (cyc & k1 & Hcyc & H). injection H as _ <- _.
  apply (mapM_M_Forall
           (λ r, ∃ m0 m1 m2, r.2 = [m0; m1; m2] ∧ length m0 = N ∧
                             length m1 = N ∧ length m2 = N))
    in Hcyc as [Hl HF].
  - destruct cyc as [|[c0 r0] [|[c1 r1] [|[c2 r2] [|? ?]]]]; try discriminate.
    apply Forall_cons in HF as [(a0 & a1 & a2 & Ha & Ha0 & _) HF].
    apply Forall_cons in HF as [(b0 & b1 & b2 & Hb & Hb0 & _) HF].
    apply Forall_cons in HF as [(d0 & d1 & d2 & Hd & Hd0 & _) _].
    simpl in Ha, Hb, Hd. subst r0 r1 r2.
    exists [a0; b0; d0]. split; [reflexivity|].
    simpl. rewrite !length_app. simpl. lia.
  - intros i j [c mids] j' Hi. simpl.
    apply M_bind_Ok in Hi as (pred_i & j1 & Hidx & Hi).
    apply lift_Ok in Hidx as [Hidx ->]. unfold index in Hidx.
    destruct (preds !! i) as [p|] eqn:Hpi; [|discriminate]. injection Hidx as ->.
    apply cycle_step_Ok in Hi as (m0 & m1 & m2 & -> & H0 & H1 & H2).
    rewrite Forall_forall in Hp.
    rewrite (Hp pred_i) in H0, H1, H2 by by eapply list_elem_of_lookup_2.
    by exists m0, m1, m2.
Qed.

(** X3 (the shape errors of the forward pass).  [forward] raises when
    the original images are not square or their side is not a multiple of
    the patch size (the assertion of [patchify]), and when the batch size
    is not a multiple of the 3 that the pass groups by: there is no check
    of the batch size, the error comes from a broadcast or from the
    reshape of the mid features. *)
Lemma forward_raises_on_bad_shape (self : CycleMAE) (x original_x : list image)
    (mask_ratio : Q) (k : nat) :
  dimH original_x ≠ dimW original_x ∨
  dimH original_x mod self.(encoder).(patch_size) ≠ 0 ∨
  length x mod 3 ≠ 0 →
  ∃ e, forward rand_source log_softmax pow_half self x original_x mask_ratio k
       = Raise e.
Proof.
  intros Hbad.
  destruct (forward _ _ _ _ _ _ _ k) as [[v k']|e] eqn:Hf; [|by exists e].
  exfalso. unfold forward in Hf.
  apply M_bind_Ok in Hf as ([[lr lc] lt] & k1 & Ht & _).
  unfold forward_terms in Ht.
  apply M_bind_Ok in Ht as ([[preds bz] lr'] & k2 & Hrec & Ht).
  apply M_bind_Ok in Ht as ([lc' dmfl] & k3 & Hcyc & Ht).
  apply M_bind_Ok in Ht as (lt' & k4 & Hcon & _).
  apply lift_Ok in Hcon as [Hcon _].
  apply forward_recons_Ok in Hrec as ((target & Hpat) & _ & Hpreds).
  apply patchify_Ok in Hpat as (Hsq & _ & Hdiv & _).
  destruct Hbad as [Hbad | [Hbad | Hbad]]; [done | done |].
  destruct (forward_cycle_Ok _ _ _ _ _ _ _ _ _ _ Hpreds Hcyc)
    as (feats & Hfeats & Hlen).
  unfold contrastive_loss in Hcon. apply bind_Ok in Hcon as (terms & Hterms & _).
  apply mapM_seq3_Ok in Hterms as (t0 & _ & _ & _ & H0 & _).
  unfold contrastive_step in H0. rewrite (index_Ok _ _ _ Hfeats) in H0.
  rewrite bind_Ok_run in H0. apply bind_Ok in H0 as (bank & Hbank & _).
  apply feature_bank_Ok in Hbank. rewrite Hlen in Hbank.
  apply Hbad. apply Nat.Div0.div_exact in Hbank.
  replace (length x) with (3 * (3 * length x / 9)) by lia.
  by rewrite Nat.mul_comm, Nat.Div0.mod_mul.
Qed.

End ShapeErrors.

(** ** The contrastive loss on three domains *)

Lemma chunks_app {A} (n k : nat) (l r : list A) :
  length l = k → chunks (S n) k (l ++ r) = l :: chunks n k r.
Proof.
  intros H. simpl.
  by rewrite (take_app_length' l r k), (drop_app_length' l r k).
Qed.

(** X4 (the feature bank of one decoder).  Each of the three stacked
    mid features lists the rows of group 0, then of group 1, then of
    group 2 ([k] rows each); after the reshape to [3, 3, -1], the
    permutation and the flattening, row [g] of the bank holds the rows of
    group [g] of every cycle pass, in the order of the passes. *)
Lemma feature_bank_groups (k : nat)
    (a0 b0 c0 a1 b1 c1 a2 b2 c2 : list (list vec)) :
  Forall (λ l, length l = k) [a0; b0; c0; a1; b1; c1; a2; b2; c2] →
  feature_bank [a0 ++ b0 ++ c0; a1 ++ b1 ++ c1; a2 ++ b2 ++ c2]
  = Ok [concat [a0; a1; a2]; concat [b0; b1; b2]; concat [c0; c1; c2]].
Proof.
  intros H.
  repeat match goal with
         | H : Forall _ (_ :: _) |- _ => apply Forall_cons in H as [? H]
         end.
  unfold feature_bank.
  assert (concat [a0 ++ b0 ++ c0; a1 ++ b1 ++ c1; a2 ++ b2 ++ c2]
          = a0 ++ b0 ++ c0 ++ a1 ++ b1 ++ c1 ++ a2 ++ b2 ++ c2 ++ []) as ->.
  { simpl. by rewrite <- !app_assoc. }
  assert (length (a0 ++ b0 ++ c0 ++ a1 ++ b1 ++ c1 ++ a2 ++ b2 ++ c2 ++ [])
          = k * 9) as ->.
  { rewrite !length_app. simpl. lia. }
  rewrite Nat.Div0.mod_mul, bool_decide_true by done.
  cbv beta iota zeta. simpl negb. cbv iota.
  destruct (decide (k = 0)) as [->|Hk].
  - repeat match goal with
           | H : length ?l = 0 |- _ => apply nil_length_inv in H; subst l
           end.
    reflexivity.
  - rewrite Nat.div_mul by lia.
    rewrite !chunks_app by done. reflexivity.
Qed.

(** X5 (the contrastive term).  For each decoder [d] of the three, the
    contrastive term of [forward] takes minus entry [d] of the
    log-softmax of the dot products of row [d] of its bank with every row
    of the bank, divided by [tao] = 100000; the three terms are added one
    after the other to 0.  For a model built with three domains this is
    the term the specification describes. *)
Lemma contrastive_loss_three_domains (log_softmax : list Q → list Q)
    (dmfl : list (list (list (list vec))))
    (bank : nat → list (list (list vec))) :
  (∀ l, length (log_softmax l) = length l) →
  (∀ d, d < 3 →
     ∃ feats, dmfl !! d = Some feats ∧ feature_bank feats = Ok (bank d) ∧
              length (bank d) = 3) →
  tao = 100000%Q ∧
  contrastive_loss log_softmax dmfl
  = Ok (foldl (λ acc t, sadd acc (Fin t)) (Fin 0)
          ((λ d, ((-1) * nth d (log_softmax
                                  ((λ g, (dot (nth d (bank d) []) g / tao)%Q)
                                   <$> bank d)) 0)%Q) <$> seq 0 3)).
Proof.
  intros Hls Hd. split; [reflexivity|]. unfold contrastive_loss.
  rewrite (mapM_total _
             (λ d, ((-1) * nth d (log_softmax
                                    ((λ g, (dot (nth d (bank d) []) g / tao)%Q)
                                     <$> bank d)) 0)%Q)).
  - reflexivity.
  - intros d Hin. apply elem_of_seq in Hin.
    destruct (Hd d) as (feats & Hf & Hb & Hl); [lia|].
    unfold contrastive_step. rewrite (index_Ok _ _ _ Hf), bind_Ok_run.
    rewrite Hb, bind_Ok_run.
    destruct (lookup_lt_is_Some_2 (bank d) d) as [row Hrow]; [lia|].
    rewrite (index_Ok _ _ _ Hrow), bind_Ok_run.
    rewrite (nth_lookup_Some _ _ [] _ Hrow).
    destruct (lookup_lt_is_Some_2
                (log_softmax ((λ g, (dot row g / tao)%Q) <$> bank d)) d)
      as [v Hv].
    { rewrite Hls, length_fmap. lia. }
    rewrite (index_Ok _ _ _ Hv), bind_Ok_run.
    by rewrite (nth_lookup_Some _ _ 0%Q _ Hv).
Qed.

(** ** The decoders of a model *)

Lemma decoder_name_inj (i j : nat) : decoder_name i = decoder_name j → i = j.
Proof.
  unfold decoder_name. intros H. simpl in H. injection H as H.
  by apply (inj pretty).
Qed.

Lemma init_decoders_lookup (f : nat → Decoder) (n i : nat) :
  foldl (λ d j, <[decoder_name j := f j]> d) (∅ : gmap string Decoder) (seq 0 n)
    !! decoder_name i
  = if decide (i < n) then Some (f i) else None.
Proof.
  induction n as [|n IH].
  - change (seq 0 0) with (@nil nat). cbn [foldl]. rewrite lookup_empty.
    case_decide; [lia | done].
  - rewrite seq_S, foldl_app. cbn [foldl Nat.add].
    destruct (decide (i = n)) as [->|Hne].
    + rewrite lookup_insert_eq. by rewrite decide_True by lia.
    + rewrite lookup_insert_ne by (intros H; by apply decoder_name_inj in H).
      rewrite IH. repeat case_decide; (done || lia).
Qed.

Lemma init_decoders_size (f : nat → Decoder) (n : nat) :
  size (foldl (λ d j, <[decoder_name j := f j]> d) (∅ : gmap string Decoder)
          (seq 0 n)) = n.
Proof.
  induction n as [|n IH].
  - apply map_size_empty.
  - rewrite seq_S, foldl_app. simpl. rewrite map_size_insert_None.
    + by rewrite IH.
    + rewrite init_decoders_lookup. case_decide; [lia | done].
Qed.

(** X6 (the decoders of a model).  [__init__] stores exactly
    [num_domains] decoders: the key [decoder_i] holds the [i]-th decoder
    built for every [i < num_domains] (no key overwrites another), and
    looking up any other index raises [KeyError]. *)
Theorem get_decoder_init (n : nat) (enc : Encoder)
    (new_decoder : nat → Decoder) (flag : bool) (i : nat) :
  get_decoder (CycleMAE_init n enc new_decoder flag) i
  = (if decide (i < n) then Ok (new_decoder i) else Raise KeyError)
  ∧ size (CycleMAE_init n enc new_decoder flag).(multi_domain_decoders) = n.
Proof.
  split.
  - unfold get_decoder, CycleMAE_init. simpl. rewrite init_decoders_lookup.
    by case_decide.
  - apply init_decoders_size.
Qed.

(** X7 (fewer than three domains).  The forward pass looks up
    [decoder_0], [decoder_1] and [decoder_2] whatever the model was built
    with: on a model built with fewer than three domains it raises on
    every input. *)
Theorem forward_needs_three_decoders (rand_source : nat → nat → nat → Q)
    (log_softmax : list Q → list Q) (pow_half : Q → Q) (n : nat)
    (enc : Encoder) (new_decoder : nat → Decoder) (flag : bool)
    (x original_x : list image) (mask_ratio : Q) (k : nat) :
  n < 3 →
  ∃ e, forward rand_source log_softmax pow_half
         (CycleMAE_init n enc new_decoder flag) x original_x mask_ratio k
       = Raise e.
Proof.
  intros Hn.
  destruct (forward _ _ _ _ _ _ _ k) as [[v k']|e] eqn:Hf; [|by exists e].
  exfalso. unfold forward in Hf.
  apply M_bind_Ok in Hf as ([[lr lc] lt] & k1 & Ht & _).
  unfold forward_terms in Ht.
  apply M_bind_Ok in Ht as ([[preds bz] lr'] & k2 & Hrec & _).
  unfold forward_recons in Hrec.
  apply M_bind_Ok in Hrec as ([[latent mask] ids] & k3 & _ & Hrec).
  apply M_bind_Ok in Hrec as (first & k4 & Hfirst & _).
  apply lift_Ok in Hfirst as [Hfirst _]. unfold decode_all in Hfirst.
  apply mapM_seq3_Ok in Hfirst as (y0 & y1 & y2 & _ & _ & _ & H2).
  apply bind_Ok in H2 as (dec & Hdec & _).
  unfold get_decoder, CycleMAE_init in Hdec. simpl in Hdec.
  rewrite init_decoders_lookup in Hdec.
  case_decide; [lia | discriminate].
Qed.

(** ** What the forward pass reads of the model *)

Lemma mapM_ext_in {A B} (f g : A → result B) (l : list A) :
  (∀ x, x ∈ l → f x = g x) → mapM f l = mapM g l.
Proof.
  induction l as [|a l IH]; intros H; [done|].
  rewrite !mapM_cons, (H a) by left.
  rewrite IH; [done|]. intros y Hy. apply H. by right.
Qed.

Lemma mapM_M_ext_in {A B} (f g : A → M B) (l : list A) (k : nat) :
  (∀ x j, x ∈ l → f x j = g x j) → mapM f l k = mapM g l k.
Proof.
  revert k. induction l as [|a l IH]; intros k H; [done|].
  rewrite !mapM_M_cons, (H a k) by left.
  destruct (g a k) as [[y k1]|e]; [|done].
  rewrite IH; [done|]. intros y' j Hy. apply H. by right.
Qed.

Section ReadSet.
Variable rand_source : nat → nat → nat → Q.
Variable log_softmax : list Q → list Q.
Variable pow_half : Q → Q.
Variable s1 : CycleMAE.
Variable s2 : CycleMAE.
Hypothesis Henc : s1.(encoder) = s2.(encoder).
Hypothesis Hnpl : s1.(norm_pix_loss) = s2.(norm_pix_loss).
Hypothesis Hdec : ∀ i, i < 3 → get_decoder s1 i = get_decoder s2 i.

Lemma patchify_agree (imgs : list image) : patchify s1 imgs = patchify s2 imgs.
Proof. unfold patchify. by rewrite Henc. Qed.

Lemma unpatchify_agree (x : list (list vec)) :
  unpatchify s1 x = unpatchify s2 x.
Proof. unfold unpatchify. by rewrite Henc. Qed.

Lemma forward_loss_agree (imgs : list image) (pred : list (list vec))
    (mask : list (list Q)) :
  forward_loss pow_half s1 imgs pred mask = forward_loss pow_half s2 imgs pred mask.
Proof. unfold forward_loss. by rewrite patchify_agree, Hnpl. Qed.

Lemma decode_all_agree (latent : list (list vec)) (ids : list (list nat))
    (original_x : list image) (mask : list (list Q)) :
  decode_all pow_half s1 latent ids original_x mask
  = decode_all pow_half s2 latent ids original_x mask.
Proof.
  unfold decode_all. apply mapM_ext_in. intros i Hi. apply elem_of_seq in Hi.
  rewrite Hdec by lia. destruct (get_decoder s2 i) as [dec|]; [|done].
  rewrite !bind_Ok_run.
  destruct (Decoder_forward dec latent ids) as [[pred mid]|]; [|done].
  rewrite !bind_Ok_run. by rewrite forward_loss_agree.
Qed.

Lemma forward_recons_agree (x original_x : list image) (m : Q) (k : nat) :
  forward_recons rand_source pow_half s1 x original_x m k
  = forward_recons rand_source pow_half s2 x original_x m k.
Proof.
  unfold forward_recons. rewrite !M_bind_run, Henc.
  destruct (Encoder_forward rand_source (encoder s2) x m k)
    as [[[[latent mask] ids] k1]|]; [|done].
  cbv beta iota. rewrite !M_bind_run. by rewrite decode_all_agree.
Qed.

Lemma cycle_step_agree (original_x : list image) (m : Q) (bz : nat)
    (pred_i : list (list vec)) (k : nat) :
  cycle_step rand_source pow_half s1 original_x m bz pred_i k
  = cycle_step rand_source pow_half s2 original_x m bz pred_i k.
Proof.
  unfold cycle_step. rewrite !M_bind_run, unpatchify_agree.
  destruct (unpatchify s2 pred_i) as [imgs|]; [|done].
  rewrite !lift_run_Ok. cbv beta iota. rewrite !M_bind_run, Henc.
  destruct (Encoder_forward rand_source (encoder s2) imgs m k)
    as [[[[latent mask] ids] k1]|]; [|done].
  cbv beta iota. rewrite !M_bind_run.
  match goal with
  | |- context [lift (mapM ?F (seq 0 3)) k1] => set (F1 := F)
  end.
  match goal with
  | |- _ = ?r =>
      match r with
      | context [lift (mapM ?G (seq 0 3)) k1] => set (F2 := G)
      end
  end.
  assert (mapM F1 (seq 0 3) = mapM F2 (seq 0 3)) as ->; [|reflexivity].
  apply mapM_ext_in. intros j Hj. apply elem_of_seq in Hj. unfold F1, F2.
  rewrite Hdec by lia. destruct (get_decoder s2 j) as [dec|]; [|done].
  rewrite !bind_Ok_run.
  destruct (Decoder_forward dec latent ids) as [[pred mid]|]; [|done].
  rewrite !bind_Ok_run. by rewrite forward_loss_agree.
Qed.

Lemma forward_cycle_agree (original_x : list image) (m : Q) (bz : nat)
    (preds : list (list (list vec))) (k : nat) :
  forward_cycle rand_source pow_half s1 original_x m bz preds k
  = forward_cycle rand_source pow_half s2 original_x m bz preds k.
Proof.
  unfold forward_cycle. rewrite !M_bind_run.
  match goal with
  | |- context [mapM ?F (seq 0 3) k] => set (F1 := F)
  end.
  match goal with
  | |- _ = ?r =>
      match r with
      | context [mapM ?G (seq 0 3) k] => set (F2 := G)
      end
  end.
  assert (mapM F1 (seq 0 3) k = mapM F2 (seq 0 3) k) as ->; [|reflexivity].
  apply mapM_M_ext_in. intros i j _. unfold F1, F2.
  rewrite !M_bind_run. destruct (lift (index preds i) j) as [[p j1]|]; [|done].
  apply cycle_step_agree.
Qed.

(** X8 (what the forward pass reads).  The forward pass depends on the
    model only through its encoder, its [norm_pix_loss] flag and the
    decoders stored under [decoder_0], [decoder_1] and [decoder_2]: two
    models that agree on these give the same result, error or loss, on
    every input, whatever their [num_domains] and whatever further
    decoders they hold. *)
Theorem forward_reads_three_decoders (x original_x : list image)
    (mask_ratio : Q) (k : nat) :
  forward rand_source log_softmax pow_half s1 x original_x mask_ratio k
  = forward rand_source log_softmax pow_half s2 x original_x mask_ratio k.
Proof.
  unfold forward, forward_terms. rewrite !M_bind_run, forward_recons_agree.
  destruct (forward_recons rand_source pow_half s2 x original_x mask_ratio k)
    as [[[[preds bz] lr] k1]|]; [|done].
  cbv beta iota. rewrite !M_bind_run. by rewrite forward_cycle_agree.
Qed.

End ReadSet.

(** ** Unpatchify, then patchify *)

Lemma unpatchify_sample_shape (p h w : nat) (data : list Q) :
  image_shape 3 (h * p) (h * p) (unpatchify_sample p h w data).
Proof.
  unfold unpatchify_sample. split.
  - by rewrite length_fmap, length_seq.
  - apply Forall_fmap, Forall_forall. intros c _. split.
    + by rewrite length_fmap, length_seq.
    + apply Forall_fmap, Forall_forall. intros row _. simpl.
      by rewrite length_fmap, length_seq.
Qed.

Lemma unpatchify_sample_nth (p h w : nat) (data : list Q) (c row col : nat) :
  c < 3 → row < h * p → col < h * p →
  nth col (nth row (nth c (unpatchify_sample p h w data) []) []) 0%Q
  = nth ((((row / p * w + col / p) * p + row mod p) * p + col mod p) * 3 + c)
        data 0%Q.
Proof.
  intros Hc Hrow Hcol. unfold unpatchify_sample.
  rewrite nth_fmap_seq by done. rewrite nth_fmap_seq by done.
  by rewrite nth_fmap_seq by done.
Qed.

Lemma patch_entry_split (p t : nat) :
  0 < p → t < p * p * 3 →
  t / (p * 3) < p ∧ (t / 3) mod p < p ∧ t mod 3 < 3 ∧
  t = (t / (p * 3) * p + (t / 3) mod p) * 3 + t mod 3.
Proof.
  intros Hp Ht.
  assert (t / (p * 3) < p) as H1 by (apply Nat.Div0.div_lt_upper_bound; lia).
  assert ((t / 3) mod p < p) as H2 by (apply Nat.mod_upper_bound; lia).
  assert (t mod 3 < 3) as H3 by (apply Nat.mod_upper_bound; lia).
  split; [done|]. split; [done|]. split; [done|].
  pose proof (Nat.div_mod_eq t 3) as E1.
  pose proof (Nat.div_mod_eq (t / 3) p) as E2.
  rewrite Nat.Div0.div_div in E2. rewrite (Nat.mul_comm 3 p) in E2. lia.
Qed.

Lemma patchify_unpatchify_sample (p h : nat) (s : list (list Q)) :
  0 < p → shape2 (h * h) (p * p * 3) s →
  patchify_sample p h h (flat3 (unpatchify_sample p h h (concat s))) = s.
Proof.
  intros Hp Hs. pose proof Hs as [Hl Hrows]. unfold patchify_sample.
  etrans; [|apply (fmap_seq_nth s [])]. rewrite Hl.
  apply fmap_seq_ext. intros k Hk.
  assert (length (nth k s []) = p * p * 3) as Hlk.
  { rewrite Forall_forall in Hrows. apply Hrows.
    apply list_elem_of_In, nth_In. lia. }
  etrans; [|apply (fmap_seq_nth (nth k s []) 0%Q)]. rewrite Hlk.
  apply fmap_seq_ext. intros t Ht. cbv zeta.
  destruct (patch_entry_split p t Hp Ht) as (Hpi & Hqi & Hc & Et).
  set (pi := t / (p * 3)) in *. set (qi := (t / 3) mod p) in *.
  set (c := t mod 3) in *.
  assert (0 < h) as Hh by (destruct h; [simpl in Hk; lia | lia]).
  assert (k / h < h) as Hhi by (apply Nat.Div0.div_lt_upper_bound; lia).
  assert (k mod h < h) as Hwi by (apply Nat.mod_upper_bound; lia).
  set (hi := k / h) in *. set (wi := k mod h) in *.
  assert (k = hi * h + wi) as Ek.
  { unfold hi, wi. rewrite (Nat.mul_comm _ h). apply Nat.div_mod_eq. }
  replace ((((c * h + hi) * p + pi) * h + wi) * p + qi)
    with ((c * (h * p) + (hi * p + pi)) * (h * p) + (wi * p + qi)) by lia.
  rewrite (flat3_nth _ 3 (h * p) (h * p)) by
    first [ apply unpatchify_sample_shape | nia ].
  rewrite unpatchify_sample_nth by first [ done | nia ].
  destruct (div_mod_pair hi pi p Hpi) as [-> ->].
  destruct (div_mod_pair wi qi p Hqi) as [-> ->].
  replace ((((hi * h + wi) * p + pi) * p + qi) * 3 + c)
    with (k * (p * p * 3) + t) by lia.
  apply nth_concat_rect; [done | lia].
Qed.

(** X9 (unpatchify, then patchify).  For a patch size [p > 0] and a
    batch of predictions of shape [N, h * h, p * p * 3], [unpatchify]
    returns images of shape [N, 3, h * p, h * p], with pixel
    [(row, col)] of channel [c] taken from entry
    [((row mod p) * p + col mod p) * 3 + c] of patch
    [(row / p) * h + col / p], and [patchify] maps these images back to
    the very same predictions: the re-encoding of a prediction in the
    cycle pass loses nothing. *)
Theorem unpatchify_patchify_roundtrip (self : CycleMAE) (x : list (list vec))
    (h : nat) :
  let p := self.(encoder).(patch_size) in
  0 < p →
  Forall (shape2 (h * h) (p * p * 3)) x →
  ∃ imgs, unpatchify self x = Ok imgs ∧
          length imgs = length x ∧
          Forall (image_shape 3 (h * p) (h * p)) imgs ∧
          patchify self imgs = Ok x ∧
          ∀ n s img c row col,
            x !! n = Some s → imgs !! n = Some img →
            c < 3 → row < h * p → col < h * p →
            nth col (nth row (nth c img []) []) 0%Q
            = nth ((row mod p * p + col mod p) * 3 + c)
                  (nth (row / p * h + col / p) s []) 0%Q.
Proof.
  intros p Hp Hs.
  set (g := λ s : list vec, unpatchify_sample p h h (concat s)).
  exists (g <$> x).
  assert (Forall (image_shape 3 (h * p) (h * p)) (g <$> x)) as Hshape.
  { apply Forall_fmap, Forall_forall. intros s _.
    exact (unpatchify_sample_shape p h h (concat s)). }
  assert (unpatchify self x = Ok (g <$> x)) as Hun.
  { unfold unpatchify. fold p.
    destruct x as [|s0 x'] eqn:Hx; [reflexivity|]. rewrite <- Hx in *.
    assert (dim1 x = h * h) as ->.
    { rewrite Hx. simpl. rewrite Hx in Hs. apply Forall_cons in Hs as [[Hl _] _].
      exact Hl. }
    rewrite Nat.sqrt_square, bool_decide_true by done. simpl.
    apply mapM_total. intros s Hin. rewrite Forall_forall in Hs.
    rewrite (concat_length_rect s (h * h) (p * p * 3)) by by apply Hs.
    rewrite bool_decide_true by lia. reflexivity. }
  split; [exact Hun|]. split; [by rewrite length_fmap|].
  split; [exact Hshape|]. split.
  - unfold patchify. fold p.
    destruct (g <$> x) as [|img0 imgs'] eqn:Hgx.
    + destruct x; [|discriminate]. simpl.
      rewrite bool_decide_false by lia.
      rewrite Nat.Div0.mod_0_l, bool_decide_true by done. reflexivity.
    + rewrite <- Hgx in *.
      destruct (dims_of_shape (g <$> x) img0 (h * p) Hshape) as [-> ->].
      { by rewrite Hgx. }
      rewrite bool_decide_true by done. simpl.
      rewrite bool_decide_false by lia.
      rewrite Nat.Div0.mod_mul, bool_decide_true by done. simpl.
      rewrite Nat.div_mul by lia.
      rewrite (mapM_total _ (λ img, patchify_sample p h h (flat3 img))).
      * f_equal. rewrite <- list_fmap_compose.
        etrans; [|apply list_fmap_id]. apply list_fmap_ext.
        intros i s Hi.
        assert (shape2 (h * h) (p * p * 3) s) as Hsh.
        { rewrite Forall_forall in Hs. apply Hs. by eapply list_elem_of_lookup_2. }
        exact (patchify_unpatchify_sample p h s Hp Hsh).
      * intros img Hin. rewrite Forall_forall in Hshape.
        rewrite (flat3_length img 3 (h * p) (h * p)) by by apply Hshape.
        rewrite bool_decide_true by lia. reflexivity.
  - intros n s img c row col Hn Hi Hc Hrow Hcol.
    apply list_lookup_fmap_Some in Hi as (s' & -> & Hn').
    assert (Some s' = Some s) as [= ->]
      by (etrans; [symmetry; exact Hn' | exact Hn]).
    unfold g. rewrite unpatchify_sample_nth by done.
    assert (shape2 (h * h) (p * p * 3) s) as Hsh.
    { rewrite Forall_forall in Hs. apply Hs. by eapply list_elem_of_lookup_2. }
    assert (row / p < h) as Hhi by (apply Nat.Div0.div_lt_upper_bound; lia).
    assert (col / p < h) as Hwi by (apply Nat.Div0.div_lt_upper_bound; lia).
    assert (row mod p < p) as Hpi by (apply Nat.mod_upper_bound; lia).
    assert (col mod p < p) as Hqi by (apply Nat.mod_upper_bound; lia).
    replace ((((row / p * h + col / p) * p + row mod p) * p + col mod p) * 3 + c)
      with ((row / p * h + col / p) * (p * p * 3)
            + ((row mod p * p + col mod p) * 3 + c)) by lia.
    apply nth_concat_rect; [by destruct Hsh | nia].
Qed.

(** ** Masking with any mask ratio *)

Section AnyRatio.
Variable rand_source : nat → nat → nat → Q.

Lemma random_masking_of_noise (x : list (list vec)) (m : Q) (k : nat)
    (r : list (list vec) * list (list Q) * list (list nat)) :
  masking_of_noise x m
    ((λ n, rand_source k n <$> seq 0 (dim1 x)) <$> seq 0 (length x)) = Ok r →
  random_masking rand_source x m k = Ok (r, S k).
Proof.
  intros H. unfold random_masking. rewrite M_bind_run. unfold torch_rand.
  rewrite H. reflexivity.
Qed.

(** [round64], and with it the computation of [len_keep], raises nothing
    but the overflow of [int]. *)
Lemma round64_raises (q : Q) (e : exn) : round64 q = Raise e → e = OverflowError.
Proof.
  unfold round64. cbv zeta. intros H.
  repeat match type of H with
         | (if ?c then _ else _) = _ => destruct c
         end; congruence.
Qed.

Lemma len_keep_of_raises (L : nat) (m : Q) (e : exn) :
  len_keep_of L m = Raise e → e = OverflowError.
Proof.
  unfold len_keep_of, fsub, fmul, float_of_int. intros H.
  destruct (round64 (1 - m)) as [d|e1] eqn:H1;
    [|injection H as <-; by eapply round64_raises].
  rewrite bind_Ok_run in H.
  destruct (round64 (inject_Z (Z.of_nat L))) as [l|e2] eqn:H2;
    [|injection H as <-; by eapply round64_raises].
  rewrite bind_Ok_run in H.
  destruct (round64 (l * d)) as [p|e3] eqn:H3;
    [discriminate | injection H as <-; by eapply round64_raises].
Qed.

(** A returning [random_masking] computed a [len_keep], and of its
    sample [n]: the shuffle is the argsort of the noise row, the restore
    indices the argsort of the shuffle, the kept tokens are gathered from
    the first shuffled positions and the mask row from the base row of
    zeros and ones. *)
Lemma random_masking_rows (x : list (list vec)) (m : Q) (k k' : nat)
    (xm : list (list vec)) (mask : list (list Q)) (ids : list (list nat)) :
  random_masking rand_source x m k = Ok ((xm, mask, ids), k') →
  ∃ lk, len_keep_of (dim1 x) m = Ok lk ∧
    ∀ n, n < length x →
    ∃ s sh re row kept,
      x !! n = Some s ∧
      sh = argsort Qle_bool (rand_source k n <$> seq 0 (dim1 x)) ∧
      sh ≡ₚ seq 0 (dim1 x) ∧
      re = argsort Nat.leb sh ∧ re ≡ₚ seq 0 (dim1 x) ∧
      ids !! n = Some re ∧ mask !! n = Some row ∧ xm !! n = Some kept ∧
      gather s (take (slice_len lk (dim1 x)) sh) = Ok kept ∧
      gather (mask_base (dim1 x) lk) re = Ok row.
Proof.
  intros H.
  apply random_masking_Ok in H as (_ & H & Hl1 & Hl2 & Hl3).
  apply masking_of_noise_Ok in H as (lk & Hlk & Hids & Hxm & Hmask & _).
  exists lk. split; [exact Hlk|]. intros n Hn.
  set (L := dim1 x) in *.
  set (noise := (λ n, rand_source k n <$> seq 0 L) <$> seq 0 (length x)) in *.
  set (sh := argsort Qle_bool (rand_source k n <$> seq 0 L)).
  assert (noise !! n = Some (rand_source k n <$> seq 0 L)) as Hnoise.
  { unfold noise. rewrite list_lookup_fmap, lookup_seq_lt by done. reflexivity. }
  assert (sh ≡ₚ seq 0 L) as Hsh.
  { unfold sh. rewrite argsort_perm. by rewrite length_fmap, length_seq. }
  assert (length sh = L) as HshL by (by rewrite Hsh, length_seq).
  assert (argsort Nat.leb sh ≡ₚ seq 0 L) as Hre.
  { rewrite argsort_perm. by rewrite HshL. }
  assert (ids !! n = Some (argsort Nat.leb sh)) as Hidn.
  { rewrite Hids, !list_lookup_fmap, Hnoise. reflexivity. }
  destruct (lookup_lt_is_Some_2 xm n) as [kept Hkept]; [lia|].
  destruct (lookup_lt_is_Some_2 mask n) as [row Hrow]; [lia|].
  destruct (gather_dim1_lookup _ _ _ _ _ Hxm Hkept) as (s & i & Hs & Hi & Hg).
  rewrite !list_lookup_fmap, Hnoise in Hi. simpl in Hi. injection Hi as <-.
  destruct (gather_dim1_lookup _ _ _ _ _ Hmask Hrow) as (b & re & Hb & Hre' & Hgm).
  apply lookup_replicate in Hb as [-> _].
  rewrite Hidn in Hre'. injection Hre' as <-.
  rewrite py_slice_to_take in Hg. fold sh in Hg. rewrite HshL in Hg.
  exists s, sh, (argsort Nat.leb sh), row, kept. done.
Qed.

(** X10 (masking with any mask ratio).  On a rectangular batch and for
    every mask ratio, in [0, 1] or not, [random_masking] either raises the
    [OverflowError] of [int (L * (1 - mask_ratio))], when the float
    product overflows, or returns and consumes one draw.  When it
    returns, the number of kept tokens of every sample is what Python's
    slice [ids_shuffle[:, :len_keep]] selects for the [len_keep] that the
    float arithmetic gives: [len_keep] clamped to [L], and for a negative
    [len_keep] (a ratio above 1) all but the last [-len_keep] positions.
    The mask row has [L] entries 0 or 1 and sums to [L] minus the number
    of kept tokens. *)
Theorem random_masking_any_ratio (x : list (list vec)) (m : Q) (k : nat) :
  Forall (λ s, length s = dim1 x) x →
  match len_keep_of (dim1 x) m with
  | Ok len_keep =>
      ∃ x_masked mask ids_restore,
        random_masking rand_source x m k
        = Ok ((x_masked, mask, ids_restore), S k) ∧
        length x_masked = length x ∧ length mask = length x ∧
        length ids_restore = length x ∧
        ∀ n kept row, x_masked !! n = Some kept → mask !! n = Some row →
          length kept = slice_len len_keep (dim1 x) ∧
          length kept ≤ dim1 x ∧ length row = dim1 x ∧
          Forall (λ v, v = 0%Q ∨ v = 1%Q) row ∧
          Qsum row = inject_Z (Z.of_nat (dim1 x - length kept))
  | Raise e =>
      e = OverflowError ∧ random_masking rand_source x m k = Raise e
  end.
Proof.
  intros Hrect.
  destruct (len_keep_of (dim1 x) m) as [lk|e] eqn:Hlk.
  2:{ split; [by eapply len_keep_of_raises|].
      unfold random_masking. rewrite M_bind_run. unfold torch_rand, lift.
      unfold masking_of_noise. rewrite Hlk. reflexivity. }
  set (L := dim1 x) in *. set (N := length x).
  set (noise := (λ n, rand_source k n <$> seq 0 L) <$> seq 0 N).
  set (shuf := argsort Qle_bool <$> noise).
  set (rest := argsort Nat.leb <$> shuf).
  assert (∀ n sh, shuf !! n = Some sh → sh ≡ₚ seq 0 L) as Hshuf.
  { intros n sh Hsh. unfold shuf, noise in Hsh. rewrite !list_lookup_fmap in Hsh.
    destruct (seq 0 N !! n) as [n'|] eqn:Hn'; [|discriminate].
    simpl in Hsh. injection Hsh as <-.
    rewrite argsort_perm. by rewrite length_fmap, length_seq. }
  assert (∀ n re, rest !! n = Some re → re ≡ₚ seq 0 L) as Hrest.
  { intros n re Hre. unfold rest in Hre. rewrite list_lookup_fmap in Hre.
    destruct (shuf !! n) as [sh|] eqn:Hsh; [|discriminate]. injection Hre as <-.
    rewrite argsort_perm. by rewrite (Hshuf n sh Hsh), length_seq. }
  assert (length shuf = N) as Hsl.
  { unfold shuf, noise. by rewrite !length_fmap, length_seq. }
  assert (length rest = N) as Hrl by (unfold rest; by rewrite length_fmap).
  destruct (gather_dim1_total x (py_slice_to lk <$> shuf)) as [xm Hxm].
  { rewrite length_fmap. lia. }
  { intros n s i Hs Hi. rewrite list_lookup_fmap in Hi.
    destruct (shuf !! n) as [sh|] eqn:Hsh; [|discriminate].
    injection Hi as <-. pose proof (Hshuf n sh Hsh) as Hp.
    rewrite Forall_forall in Hrect.
    rewrite (Hrect s) by by eapply list_elem_of_lookup_2.
    apply Forall_forall. intros j Hj. apply py_slice_to_subset in Hj.
    apply Permutation_seq_bound in Hp. rewrite Forall_forall in Hp. by apply Hp. }
  destruct (gather_dim1_total (replicate N (mask_base L lk)) rest) as [mask Hmask].
  { rewrite length_replicate. lia. }
  { intros n s i Hs Hi. apply lookup_replicate in Hs as [-> _].
    rewrite mask_base_length. apply Permutation_seq_bound. by apply (Hrest n). }
  assert (random_masking rand_source x m k = Ok (xm, mask, rest, S k)) as Hrun.
  { apply random_masking_of_noise. unfold masking_of_noise.
    fold L. rewrite Hlk, bind_Ok_run.
    fold N noise shuf rest. rewrite Hxm, bind_Ok_run, Hmask. reflexivity. }
  exists xm, mask, rest. split; [exact Hrun|].
  pose proof (random_masking_Ok _ _ _ _ _ _ _ _ Hrun) as (_ & _ & Hl1 & Hl2 & Hl3).
  split; [done|]. split; [done|]. split; [done|].
  intros n kept row Hkept Hrow.
  assert (n < length x) as Hn by (apply lookup_lt_Some in Hkept; lia).
  destruct (random_masking_rows _ _ _ _ _ _ _ Hrun) as (lk' & Hlk' & Hrows).
  fold L in Hlk'.
  assert (Ok lk' = Ok lk) as [= ->]
    by (etrans; [symmetry; exact Hlk' | exact Hlk]).
  destruct (Hrows n Hn)
    as (s & sh & re & row' & kept' & Hs & _ & Hsh & _ & Hre & _ & Hrow' & Hkept'
        & Hg & Hgm).
  fold L in Hsh, Hre, Hg, Hgm.
  assert (Some row' = Some row) as [= ->]
    by (etrans; [symmetry; exact Hrow' | exact Hrow]).
  assert (Some kept' = Some kept) as [= ->]
    by (etrans; [symmetry; exact Hkept' | exact Hkept]).
  destruct (mask_row_any _ _ _ _ Hre Hgm) as (Hlr & _ & H01 & Hsum).
  pose proof (slice_len_le lk L) as Hc.
  assert (length kept = slice_len lk L) as Hlen.
  { rewrite (gather_length _ _ _ Hg), length_take, Hsh, length_seq. lia. }
  split; [exact Hlen|]. split; [lia|]. split; [exact Hlr|]. split; [exact H01|].
  by rewrite Hlen.
Qed.

End AnyRatio.

(** ** The loss is finite exactly when a patch is masked *)



Lemma broadcast_nonempty {A B C} (f : A → B → result C) (a : list A)
    (b : list B) (c : list C) :
  broadcast f a b = Ok c → a ≠ [] → b ≠ [] → c ≠ [].
Proof.
  unfold broadcast. intros H Ha Hb. case_decide as Hl.
  - destruct a as [|x a]; [done|]. destruct b as [|y b]; [done|].
    simpl in H. apply bind_Ok in H as (z & _ & H).
    apply bind_Ok in H as (zs & _ & [= <-]). done.
  - destruct a as [|a0 [|a1 a]]; [done| |].
    + apply mapM_Ok_length in H. destruct c; [|done].
      destruct b; [done | discriminate].
    + destruct b as [|b0 [|b1 b]]; [done| |discriminate].
      apply mapM_Ok_length in H. destruct c; [discriminate | done].
Qed.




Section PartialMasking.
Variable rand_source : nat → nat → nat → Q.
Variable log_softmax : list Q → list Q.
Variable pow_half : Q → Q.






End PartialMasking.

(** ** Masking, then restoring *)

Section MaskRestore.
Variable rand_source : nat → nat → nat → Q.

(** X12 (the mask and the restored sequence agree).  Let
    [random_masking] return the kept tokens, the mask and the restore
    indices, and let the latent hold, per sample, a cls token followed by
    one token per kept patch.  Then the restore step of [Decoder.forward]
    returns a sequence of [L + 1] tokens per sample, the embedded cls
    token first, and for every patch position [j]: where the mask is 0
    the restored token is the embedded latent token of the position
    [ids_restore[j]] of the shuffle, and where the mask is 1 it is the
    mask token.  No other case occurs. *)
Theorem mask_restore_consistent (dec : Decoder) (x : list (list vec)) (m : Q)
    (k k' : nat) (xm : list (list vec)) (mask : list (list Q))
    (ids : list (list nat)) (z : list (list vec)) :
  random_masking rand_source x m k = Ok ((xm, mask, ids), k') →
  Forall2 (λ s kept : list vec, length s = S (length kept)) z xm →
  ∃ r, Decoder_restore dec z ids = Ok r ∧ length r = length x ∧
    ∀ n s row re rr j i,
      z !! n = Some s → mask !! n = Some row → ids !! n = Some re →
      r !! n = Some rr → re !! j = Some i →
      length rr = S (dim1 x) ∧
      rr !! 0 = dec.(decoder_embed) <$> s !! 0 ∧
      ((row !! j = Some 0%Q ∧ S i < length s ∧
        rr !! (S j) = dec.(decoder_embed) <$> s !! (S i))
       ∨ (row !! j = Some 1%Q ∧ length s ≤ S i ∧
          rr !! (S j) = Some dec.(mask_token))).
Proof.
  intros Hrun Hz.
  pose proof (random_masking_Ok _ _ _ _ _ _ _ _ Hrun) as (_ & _ & Hl1 & Hl2 & Hl3).
  pose proof (Forall2_length _ _ _ Hz) as Hlz.
  destruct (random_masking_rows _ _ _ _ _ _ _ _ Hrun) as (lk & _ & Hrows0).
  set (L := dim1 x) in *. set (c := slice_len lk L) in *.
  pose proof (slice_len_le lk L) as Hc. fold c in Hc.
  assert (∀ n, n < length x → ∃ s re row,
            z !! n = Some s ∧ length s = S c ∧
            ids !! n = Some re ∧ re ≡ₚ seq 0 L ∧ mask !! n = Some row ∧
            gather (mask_base L lk) re = Ok row) as Hrows.
  { intros n Hn.
    destruct (Hrows0 n Hn)
      as (s0 & sh & re & row & kept & _ & _ & Hsh & _ & Hre & Hidn & Hrow & Hkept
          & Hg & Hgm).
    destruct (lookup_lt_is_Some_2 z n) as [s Hs]; [lia|].
    exists s, re, row. split; [done|]. split; [|done].
    rewrite (Forall2_lookup_both _ _ _ _ _ _ Hz Hs Hkept).
    rewrite (gather_length _ _ _ Hg), length_take, Hsh, length_seq.
    fold L c. f_equal. lia. }
  unfold Decoder_restore.
  set (z' := fmap (M := list) (fmap (M := list) dec.(decoder_embed)) z).
  assert (length z' = length x) as Hlz' by (unfold z'; rewrite length_fmap; lia).
  set (n_mask := (Z.of_nat (dim1 ids) + 1 - Z.of_nat (dim1 z'))%Z).
  assert (x = [] ∨ n_mask = Z.of_nat (L - c)) as Hn.
  { destruct (decide (length x = 0)) as [H0|H0].
    - left. by apply nil_length_inv.
    - right. destruct (Hrows 0) as (s & re & row & Hs & Hls & Hre & Hp & _); [lia|].
      unfold n_mask. destruct ids as [|re' ids']; [discriminate|].
      injection Hre as ->. unfold z'. destruct z as [|s' z'']; [discriminate|].
      injection Hs as ->. simpl. rewrite length_fmap, Hls, Hp, length_seq. lia. }
  assert ((n_mask <? 0)%Z = false) as ->.
  { apply Z.ltb_ge. destruct Hn as [-> | ->]; [|lia].
    destruct ids; [|discriminate].
    assert (z = []) as -> by (apply nil_length_inv; simpl in *; lia).
    unfold n_mask. simpl. lia. }
  set (x_ := (λ s, drop 1 s ++ replicate (Z.to_nat n_mask) dec.(mask_token))
             <$> z').
  destruct (gather_dim1_total x_ ids) as [r_ Hr_].
  { unfold x_. rewrite length_fmap. lia. }
  { intros n s re Hs Hre. unfold x_, z' in Hs. rewrite !list_lookup_fmap in Hs.
    destruct (z !! n) as [s0|] eqn:Hs0; [|discriminate]. injection Hs as <-.
    destruct Hn as [-> | Hn]; [by destruct z|].
    destruct (Hrows n) as (s1 & re1 & row & Hs1 & Hls & Hre1 & Hp & _).
    { apply lookup_lt_Some in Hs0. lia. }
    assert (Some s1 = Some s0) as [= ->]
      by (etrans; [symmetry; exact Hs1 | exact Hs0]).
    assert (Some re1 = Some re) as [= ->]
      by (etrans; [symmetry; exact Hre1 | exact Hre]).
    rewrite length_app, length_drop, length_fmap, length_replicate, Hls, Hn.
    replace (S c - 1 + Z.to_nat (Z.of_nat (L - c))) with L by lia.
    by apply Permutation_seq_bound. }
  rewrite Hr_. cbn. unfold cat_dim1.
  destruct (gather_dim1_length _ _ _ Hr_) as [Hr_l _].
  rewrite decide_True by (rewrite length_fmap; lia).
  eexists. split; [reflexivity|]. split.
  { rewrite length_zip_with, length_fmap. lia. }
  intros n s row re rr j i Hs Hrow Hre Hrr Hji.
  destruct Hn as [-> | Hn]; [by destruct z|].
  destruct (Hrows n) as (s1 & re1 & row1 & Hs1 & Hls & Hre1 & Hp & Hrow1 & Hgm).
  { apply lookup_lt_Some in Hs. lia. }
  assert (Some s1 = Some s) as [= ->]
    by (etrans; [symmetry; exact Hs1 | exact Hs]).
  assert (Some re1 = Some re) as [= ->]
    by (etrans; [symmetry; exact Hre1 | exact Hre]).
  assert (Some row1 = Some row) as [= ->]
    by (etrans; [symmetry; exact Hrow1 | exact Hrow]).
  assert (z' !! n = Some (dec.(decoder_embed) <$> s)) as Hs'.
  { unfold z'. by rewrite list_lookup_fmap, Hs. }
  destruct (lookup_lt_is_Some_2 r_ n) as [rn Hrn].
  { rewrite Hr_l. by apply lookup_lt_Some in Hre. }
  destruct (gather_dim1_lookup _ _ _ _ _ Hr_ Hrn) as (xn & re' & Hxn & Hre' & Hg).
  assert (Some re' = Some re) as [= ->]
    by (etrans; [symmetry; exact Hre' | exact Hre]).
  unfold x_ in Hxn. rewrite list_lookup_fmap, Hs' in Hxn. injection Hxn as <-.
  rewrite lookup_zip_with, list_lookup_fmap, Hs', Hrn in Hrr. injection Hrr as <-.
  assert (length (take 1 (dec.(decoder_embed) <$> s)) = 1) as Hhd.
  { rewrite length_take, length_fmap. lia. }
  assert (i < L) as HiL.
  { apply list_elem_of_lookup_2 in Hji. rewrite Hp in Hji.
    apply elem_of_seq in Hji. lia. }
  destruct (mask_row_any _ _ _ _ Hp Hgm) as (_ & Hat & _ & _).
  pose proof (Hat j i Hji) as Hbit. fold c in Hbit.
  pose proof (gather_lookup _ _ _ _ _ Hg Hji) as Htok.
  split; [|split].
  - rewrite length_app, Hhd, (gather_length _ _ _ Hg), Hp, length_seq. done.
  - rewrite lookup_app_l by lia. rewrite lookup_take_lt by lia.
    apply list_lookup_fmap.
  - rewrite lookup_app_r by lia. rewrite Hhd.
    replace (S j - 1) with j by lia. rewrite Htok.
    destruct (decide (i < c)) as [Hic|Hic].
    + left. split; [exact Hbit|]. split; [lia|].
      rewrite lookup_app_l by (rewrite length_drop, length_fmap; lia).
      rewrite lookup_drop. apply list_lookup_fmap.
    + right. split; [exact Hbit|]. split; [lia|].
      rewrite lookup_app_r by (rewrite length_drop, length_fmap; lia).
      rewrite length_drop, length_fmap. apply lookup_replicate.
      split; [done | lia].
Qed.

End MaskRestore.

(** ** The draws of the forward pass *)

Lemma mapM_M_draws {A B} (f : A → M B) (l : list A) (k k' : nat)
    (ys : list B) :
  (∀ a j y j', f a j = Ok (y, j') → j' = S j) →
  mapM f l k = Ok (ys, k') → k' = k + length l.
Proof.
  intros Hf. revert k ys. induction l as [|a l IH]; intros k ys H.
  - injection H as _ <-. simpl. lia.
  - change (mapM f (a :: l)) with (y ← f a; r ← mapM f l; mret (y :: r)) in H.
    apply M_bind_Ok in H as (y & k1 & Hy & H).
    apply M_bind_Ok in H as (r & k2 & Hr & H).
    injection H as _ <-. apply Hf in Hy as ->. apply IH in Hr as ->.
    simpl. lia.
Qed.

Section Draws.
Variable rand_source : nat → nat → nat → Q.
Variable log_softmax : list Q → list Q.
Variable pow_half : Q → Q.

Lemma cycle_step_draw (self : CycleMAE) (original_x : list image) (m : Q)
    (bz : nat) (pred_i : list (list vec)) (k k' : nat)
    (r : scalar * list (list (list vec))) :
  cycle_step rand_source pow_half self original_x m bz pred_i k = Ok (r, k') →
  k' = S k.
Proof.
  unfold cycle_step. intros H.
  apply M_bind_Ok in H as (imgs & k1 & Hun & H). apply lift_Ok in Hun as [_ ->].
  apply M_bind_Ok in H as ([[latent mask] ids] & k2 & Henc & H).
  apply Encoder_forward_Ok in Henc as (-> & _).
  apply M_bind_Ok in H as (r' & k3 & Hr & H). apply lift_Ok in Hr as [_ ->].
  apply M_bind_Ok in H as (c & k4 & Hc & H). apply lift_Ok in Hc as [_ ->].
  by injection H as _ <-.
Qed.

(** X13 (the draws of the forward pass).  A forward pass that returns has
    called [torch.rand] exactly four times: once in the encoding of the
    input, which the reconstruction part ends with, and once in each of
    the three cycle passes. *)
Theorem forward_draws (self : CycleMAE) (x original_x : list image)
    (mask_ratio : Q) (k k' : nat) (v : scalar) :
  forward rand_source log_softmax pow_half self x original_x mask_ratio k
  = Ok (v, k') →
  k' = k + 4 ∧
  ∃ preds bz lr lc dmfl,
    forward_recons rand_source pow_half self x original_x mask_ratio k
    = Ok ((preds, bz, lr), k + 1) ∧
    forward_cycle rand_source pow_half self original_x mask_ratio bz preds (k + 1)
    = Ok ((lc, dmfl), k + 4).
Proof.
  intros H. unfold forward in H.
  apply M_bind_Ok in H as ([[lr lc] lt] & k1 & Ht & H). injection H as _ <-.
  unfold forward_terms in Ht.
  apply M_bind_Ok in Ht as ([[preds bz] lr'] & k2 & Hrec & Ht).
  apply M_bind_Ok in Ht as ([lc' dmfl] & k3 & Hcyc & Ht).
  apply M_bind_Ok in Ht as (lt' & k4 & Hcon & Ht).
  apply lift_Ok in Hcon as [_ ->]. injection Ht as _ _ _ <-.
  assert (k2 = k + 1) as ->.
  { unfold forward_recons in Hrec.
    apply M_bind_Ok in Hrec as ([[latent mask] ids] & j1 & Henc & Hrec).
    apply Encoder_forward_Ok in Henc as (-> & _).
    apply M_bind_Ok in Hrec as (first & j2 & Hfirst & Hrec).
    apply lift_Ok in Hfirst as [_ ->].
    apply M_bind_Ok in Hrec as (l0 & j3 & Hl0 & Hrec).
    apply lift_Ok in Hl0 as [_ ->].
    apply M_bind_Ok in Hrec as (lr0 & j4 & Hlr & Hrec).
    apply lift_Ok in Hlr as [_ ->]. injection Hrec as _ _ _ <-. lia. }
  assert (k3 = k + 4) as ->.
  { pose proof Hcyc as Hcyc'. unfold forward_cycle in Hcyc'.
    apply M_bind_Ok in Hcyc' as (cyc & j1 & Hm & Hret). injection Hret as _ _ <-.
    apply mapM_M_draws in Hm as ->; [simpl; lia|].
    intros i j y j' Hi.
    apply M_bind_Ok in Hi as (pred_i & i1 & Hidx & Hi).
    apply lift_Ok in Hidx as [_ ->]. by eapply cycle_step_draw. }
  split; [done|]. by exists preds, bz, lr', lc', dmfl.
Qed.

End Draws.

(** ** The per-patch loss: rows and sign *)

Lemma Qsum_squares_nonneg (v : list Q) :
  (0 <= Qsum ((λ d, d ^ 2)%Q <$> v))%Q.
Proof.
  induction v as [|d v IH]; simpl; [apply Qle_refl|].
  assert (d ^ 2 == d * d)%Q as Hd by (simpl; ring).
  change (0 <= d ^ 2 + Qsum ((λ d, d ^ 2)%Q <$> v))%Q. rewrite Hd. nra.
Qed.

Lemma mean_squares_nonneg (v : list Q) :
  (0 <= mean ((λ d, d ^ 2)%Q <$> v))%Q.
Proof.
  unfold mean, Qdiv. apply Qmult_le_0_compat; [apply Qsum_squares_nonneg|].
  apply Qinv_le_0_compat. unfold Qle; simpl. lia.
Qed.

Lemma mean_squares_zero (v : list Q) :
  (mean ((λ d, d ^ 2)%Q <$> zip_with Qminus v v) == 0)%Q.
Proof.
  assert (Qsum ((λ d, d ^ 2)%Q <$> zip_with Qminus v v) == 0)%Q as Hs.
  { induction v as [|a v IH]; simpl; [reflexivity|].
    change (((a - a) ^ 2 + Qsum ((λ d, d ^ 2)%Q <$> zip_with Qminus v v)) == 0)%Q.
    rewrite IH. simpl. ring. }
  unfold mean, Qdiv. rewrite Hs. ring.
Qed.

Lemma same_shape3_refl (a : list (list vec)) : same_shape3 a a.
Proof.
  unfold same_shape3. induction a as [|r a IH]; constructor; [|exact IH].
  induction r as [|u r IHr]; constructor; [reflexivity | exact IHr].
Qed.

Lemma Forall_zip_with_diag {A B} (P : B → Prop) (f : A → A → B) (l : list A) :
  (∀ x, x ∈ l → P (f x x)) → Forall P (zip_with f l l).
Proof.
  induction l as [|x l IH]; intros H; simpl; constructor.
  - apply H. left.
  - apply IH. intros y Hy. apply H. by right.
Qed.

Section LossRows.
Variable pow_half : Q → Q.

Lemma forward_loss_length (self : CycleMAE) (imgs : list image)
    (pred : list (list vec)) (mask full : list (list Q)) :
  length pred = length imgs →
  forward_loss pow_half self imgs pred mask = Ok full →
  length full = length imgs.
Proof.
  intros Hl Hf. unfold forward_loss in Hf.
  apply bind_Ok in Hf as (target & Hp & Hf).
  apply bind_Ok in Hf as (loss & Hsub & Hf). injection Hf as <-.
  apply patchify_Ok in Hp as (_ & _ & _ & Hlt & _).
  set (target' := if norm_pix_loss self
                  then fmap (M := list) (fmap (M := list) (normalize_target pow_half)) target
                  else target) in *.
  assert (length target' = length target) as Hlt'.
  { unfold target'. destruct (norm_pix_loss self); [|done]. by rewrite length_fmap. }
  assert (length pred = length target') as Hpt.
  { exact (eq_trans Hl (eq_sym (eq_trans Hlt' Hlt))). }
  unfold bsub3 in Hsub. unfold broadcast at 1 in Hsub.
  rewrite (decide_True _ _ Hpt) in Hsub.
  apply (zipM_Ok _ _ _ _ Hpt) in Hsub. apply Forall2_length in Hsub.
  rewrite length_zip in Hsub. rewrite length_fmap. lia.
Qed.

(** X14 (the per-patch loss works row by row).  On a batch of square
    three-channel images of one size, [forward_loss] of the rows
    [a, b) of the images and of the predictions is the rows [a, b) of
    [forward_loss] of the whole batch: row [i] of the result is row
    [a + i] of the whole; the loss has one row per image; and the [mask]
    argument has no influence. *)
Theorem forward_loss_rows (self : CycleMAE) (imgs : list image)
    (pred : list (list vec)) (mask mask' : list (list Q))
    (full : list (list Q)) (H a b : nat) :
  Forall (image_shape 3 H H) imgs → length pred = length imgs →
  forward_loss pow_half self imgs pred mask = Ok full →
  length full = length imgs ∧
  ∃ part,
    forward_loss pow_half self (py_slice a b imgs) (py_slice a b pred) mask'
    = Ok part ∧
    part = py_slice a b full ∧
    ∀ i, i < b - a → part !! i = full !! (a + i).
Proof.
  intros Hs Hl Hf. split; [by eapply forward_loss_length|].
  exists (py_slice a b full). split; [|split; [done|]].
  - by apply (forward_loss_py_slice pow_half self imgs pred mask mask' full H).
  - intros i Hi. by apply py_slice_lookup.
Qed.

(** X15 (the sign of the per-patch loss).  Every entry of the per-patch
    loss is a mean of squares, so never negative; and without pixel
    normalisation a prediction equal to the patchified images has loss
    zero on every patch. *)
Theorem forward_loss_sign (self : CycleMAE) (imgs : list image)
    (pred : list (list vec)) (mask : list (list Q)) (l : list (list Q)) :
  forward_loss pow_half self imgs pred mask = Ok l →
  Forall (Forall (λ v, (0 <= v)%Q)) l ∧
  (self.(norm_pix_loss) = false → patchify self imgs = Ok pred →
   Forall (Forall (λ v, (v == 0)%Q)) l).
Proof.
  intros Hf. split.
  - unfold forward_loss in Hf.
    apply bind_Ok in Hf as (target & _ & Hf).
    apply bind_Ok in Hf as (loss & _ & Hf). injection Hf as <-.
    apply Forall_fmap, Forall_forall. intros row _.
    apply Forall_fmap, Forall_forall. intros v _. apply mean_squares_nonneg.
  - intros Hn Hp. unfold forward_loss in Hf. rewrite Hp, Hn in Hf.
    rewrite bind_Ok_run in Hf.
    rewrite (bsub3_same_shape _ _ (same_shape3_refl pred)) in Hf.
    rewrite bind_Ok_run in Hf. injection Hf as <-.
    apply Forall_fmap, Forall_zip_with_diag. intros row _.
    apply Forall_fmap, Forall_zip_with_diag. intros v _. apply mean_squares_zero.
Qed.

End LossRows.

(** ** The token counts through the encoder and the decoder *)

Lemma foldl_blocks_rows (bs : list (list vec → list vec)) (t : list (list vec))
    (n : nat) :
  Forall (λ blk, ∀ s : list vec, length (blk s) = length s) bs →
  Forall (λ s : list vec, length s = n) t →
  Forall (λ s : list vec, length s = n) (foldl (λ t blk, blk <$> t) t bs).
Proof.
  intros Hb. revert t. induction Hb as [|b bs Hb _ IH]; intros t Ht; simpl.
  - exact Ht.
  - apply IH. apply Forall_fmap. eapply Forall_impl; [exact Ht|].
    intros s Hs. simpl. by rewrite Hb.
Qed.

Lemma Decoder_restore_ids_length (dec : Decoder) (z : list (list vec))
    (ids : list (list nat)) (r : list (list vec)) :
  Decoder_restore dec z ids = Ok r → length ids = length z.
Proof.
  unfold Decoder_restore. intros H.
  destruct (_ <? 0)%Z; [discriminate|].
  apply bind_Ok in H as (x_ & Hg & H). unfold cat_dim1 in H.
  case_decide as Hl; [|discriminate].
  apply gather_dim1_length in Hg as [Hg _].
  rewrite !length_fmap in Hl. lia.
Qed.

(** A row of the restored sequence: the cls token and one token per
    restore index. *)
Lemma Decoder_restore_rows (dec : Decoder) (z : list (list vec))
    (ids : list (list nat)) (r : list (list vec)) (n : nat) (s : list vec)
    (re : list nat) (rr : list vec) :
  Decoder_restore dec z ids = Ok r →
  z !! n = Some s → ids !! n = Some re → r !! n = Some rr → s ≠ [] →
  length rr = S (length re).
Proof.
  unfold Decoder_restore. intros H Hs Hre Hrr Hne.
  destruct (_ <? 0)%Z; [discriminate|].
  apply bind_Ok in H as (x_ & Hg & H). unfold cat_dim1 in H.
  case_decide as Hl; [|discriminate]. injection H as <-.
  rewrite lookup_zip_with, !list_lookup_fmap, Hs in Hrr. simpl in Hrr.
  destruct (x_ !! n) as [g|] eqn:Hgn; [|discriminate]. injection Hrr as <-.
  destruct (gather_dim1_lookup _ _ _ _ _ Hg Hgn) as (xn & re' & _ & Hre' & Hgg).
  assert (Some re' = Some re) as [= ->]
    by (etrans; [symmetry; exact Hre' | exact Hre]).
  rewrite length_app, length_take, length_fmap, (gather_length _ _ _ Hgg).
  destruct s; [done|]. simpl. lia.
Qed.

(** X16 (the shapes of the decoder).  Let the blocks of a decoder keep
    the number of tokens, let its positional embedding hold
    [num_patches + 1] rows, and let the restore indices hold
    [num_patches] entries per sample.  When [Decoder.forward] returns on
    a latent with a cls token in every sample, the prediction holds one
    row per sample and [num_patches] tokens per row (the cls token is
    removed), and the mid feature, the output of the first block, holds
    one row per sample and [num_patches + 1] tokens per row. *)
Theorem Decoder_forward_shapes (dec : Decoder) (z : list (list vec))
    (ids : list (list nat)) (pred mid : list (list vec)) :
  Forall (λ blk, ∀ s : list vec, length (blk s) = length s) dec.(decoder_blocks) →
  length dec.(decoder_pos_embed) = S dec.(num_patches) →
  Forall (λ re, length re = dec.(num_patches)) ids →
  Forall (λ s, s ≠ []) z →
  Decoder_forward dec z ids = Ok (pred, mid) →
  length pred = length z ∧ length mid = length z ∧
  Forall (λ p : list vec, length p = dec.(num_patches)) pred ∧
  Forall (λ s : list vec, length s = S dec.(num_patches)) mid.
Proof.
  intros Hblk Hpos Hids Hz H. unfold Decoder_forward in H.
  apply bind_Ok in H as (r & Hr & H).
  apply bind_Ok in H as (xp & Hxp & H).
  destruct (decoder_blocks dec) as [|blk0 blks] eqn:Hb; [discriminate|].
  injection H as <- <-.
  apply Forall_cons in Hblk as [Hblk0 Hblks].
  pose proof (Decoder_restore_length _ _ _ _ Hr) as Hlr.
  pose proof (Decoder_restore_ids_length _ _ _ _ Hr) as Hli.
  pose proof (mapM_Ok_length _ _ _ Hxp) as Hlxp.
  set (L := num_patches dec) in *.
  assert (Forall (λ s : list vec, length s = S L) r) as Hrows.
  { apply Forall_forall. intros rr Hin.
    apply list_elem_of_lookup in Hin as [n Hrr].
    assert (n < length z) as Hn by (apply lookup_lt_Some in Hrr; lia).
    destruct (lookup_lt_is_Some_2 z n Hn) as [s Hs].
    destruct (lookup_lt_is_Some_2 ids n) as [re Hre]; [lia|].
    rewrite (Decoder_restore_rows dec z ids r n s re rr Hr Hs Hre Hrr).
    - f_equal. rewrite Forall_forall in Hids. apply Hids.
      by eapply list_elem_of_lookup_2.
    - rewrite Forall_forall in Hz. apply Hz. by eapply list_elem_of_lookup_2. }
  assert (Forall (λ s : list vec, length s = S L) xp) as Hxrows.
  { apply mapM_Ok in Hxp. apply Forall_forall. intros y Hin.
    apply list_elem_of_lookup in Hin as [n Hy].
    destruct (Forall2_lookup_r _ _ _ _ _ Hxp Hy) as (s & Hs & Hadd).
    assert (length s = S L) as Hls.
    { rewrite Forall_forall in Hrows. apply Hrows.
      by eapply list_elem_of_lookup_2. }
    unfold badd2, broadcast in Hadd.
    assert (length s = length (decoder_pos_embed dec)) as Heq
      by (rewrite Hls; by symmetry).
    rewrite (decide_True _ _ Heq) in Hadd.
    apply (zipM_Ok _ _ _ _ Heq) in Hadd. apply Forall2_length in Hadd.
    rewrite length_zip in Hadd. lia. }
  assert (Forall (λ s : list vec, length s = S L) (blk0 <$> xp)) as Hmid.
  { apply Forall_fmap. eapply Forall_impl; [exact Hxrows|].
    intros s Hs. simpl. by rewrite Hblk0. }
  split; [|split; [|split]].
  - rewrite !length_fmap, foldl_fmap_length, !length_fmap. lia.
  - rewrite length_fmap. lia.
  - apply Forall_fmap, Forall_fmap, Forall_fmap.
    eapply Forall_impl; [exact (foldl_blocks_rows blks _ (S L) Hblks Hmid)|].
    intros s Hs. unfold compose. cbv beta in Hs.
    rewrite length_drop, !length_fmap. lia.
  - exact Hmid.
Qed.

Section EncoderTokens.
Variable rand_source : nat → nat → nat → Q.

(** X17 (the tokens of the encoder).  Let the blocks of the encoder keep
    the number of tokens and let its positional embedding not be empty.
    A returning [Encoder.forward] has drawn noise once; its mask and its
    restore indices are those of [random_masking] on the embedded
    patches with their positional embedding added; and its latent holds
    one row per image, each made of one cls token followed by one token
    per kept patch. *)
Theorem Encoder_forward_tokens (self : Encoder) (x : list image) (m : Q)
    (k k' : nat) (latent : list (list vec)) (mask : list (list Q))
    (ids : list (list nat)) :
  Forall (λ blk, ∀ s : list vec, length (blk s) = length s) self.(blocks) →
  self.(pos_embed) ≠ [] →
  Encoder_forward rand_source self x m k = Ok ((latent, mask, ids), k') →
  k' = S k ∧
  ∃ x' xm,
    mapM (λ s, badd2 s (drop 1 self.(pos_embed))) (self.(patch_embed) <$> x)
    = Ok x' ∧
    random_masking rand_source x' m k = Ok ((xm, mask, ids), S k) ∧
    length latent = length x ∧
    Forall2 (λ s kept : list vec, length s = S (length kept)) latent xm.
Proof.
  unfold Encoder_forward. intros Hblk Hpos H.
  apply M_bind_Ok in H as (x' & k1 & Hx' & H).
  apply lift_Ok in Hx' as [Hx' ->].
  apply M_bind_Ok in H as ([[xm mask'] ids'] & k2 & Hm & H).
  pose proof (random_masking_Ok _ _ _ _ _ _ _ _ Hm) as (-> & _ & Hl1 & Hl2 & Hl3).
  apply M_bind_Ok in H as (cls & k3 & Hcls & H).
  apply lift_Ok in Hcls as [Hcls ->].
  apply M_bind_Ok in H as (xc & k4 & Hxc & H).
  apply lift_Ok in Hxc as [Hxc ->].
  injection H as <- <- <- <-.
  assert (length cls = 1) as Hlc.
  { destruct (pos_embed self) as [|p0 ps]; [done|].
    unfold badd2, broadcast in Hcls.
    assert (length [cls_token self] = length (take 1 (p0 :: ps))) as Heq
      by reflexivity.
    rewrite (decide_True _ _ Heq) in Hcls.
    apply (zipM_Ok _ _ _ _ Heq) in Hcls. apply Forall2_length in Hcls.
    simpl in Hcls. lia. }
  unfold cat_dim1 in Hxc. case_decide as Hlen; [|discriminate].
  injection Hxc as <-.
  pose proof (mapM_Ok_length _ _ _ Hx') as Hlx. rewrite length_fmap in Hlx.
  split; [done|]. exists x', xm. split; [done|]. split; [done|]. split.
  - rewrite length_fmap, foldl_fmap_length, length_zip_with, length_replicate.
    lia.
  - assert (Forall2 (λ s kept : list vec, length s = S (length kept))
              (zip_with app (replicate (length xm) cls) xm) xm) as Hcat.
    { clear -Hlc. induction xm as [|kept xm IH]; simpl; constructor; [|exact IH].
      rewrite length_app, Hlc. done. }
    assert (∀ bs (t : list (list vec)),
              Forall (λ blk, ∀ s : list vec, length (blk s) = length s) bs →
              Forall2 (λ s kept : list vec, length s = S (length kept)) t xm →
              Forall2 (λ s kept : list vec, length s = S (length kept))
                (foldl (λ t blk, blk <$> t) t bs) xm) as Hfold.
    { induction bs as [|b bs IH]; intros t Hb Ht; simpl; [done|].
      apply Forall_cons in Hb as [Hb Hbs]. apply IH; [done|].
      apply Forall2_fmap_l. eapply Forall2_impl; [exact Ht|].
      intros s kept Hs. simpl. by rewrite Hb. }
    apply Forall2_fmap_l.
    eapply Forall2_impl; [exact (Hfold _ _ Hblk Hcat)|].
    intros s kept Hs. simpl. by rewrite length_fmap.
Qed.

End EncoderTokens.

(** * The theorems at the small instance *)

Lemma decoder_restore_invariant_witness :
  ∃ r, Decoder_restore (ex_decoder 0)
         [[ex_zero; [1; 2; 3]%Q; [4; 5; 6]%Q]]
         (argsort Nat.leb <$> [[2; 0; 3; 1]]) = Ok r ∧
       length r = 1 ∧
       ∀ n s sh,
         [[ex_zero; [1; 2; 3]%Q; [4; 5; 6]%Q]] !! n = Some s →
         [[2; 0; 3; 1]] !! n = Some sh →
         ∃ rr, r !! n = Some rr ∧ length rr = 4 + 1 ∧
           rr !! 0 = (ex_decoder 0).(decoder_embed) <$> s !! 0 ∧
           (∀ i p, sh !! i = Some p → i < 2 →
                   rr !! (S p) = (ex_decoder 0).(decoder_embed) <$> s !! (S i)) ∧
           (∀ i p, sh !! i = Some p → 2 ≤ i →
                   rr !! (S p) = Some (ex_decoder 0).(mask_token)) ∧
           (∀ p, p < 4 → ∃ i, sh !! i = Some p ∧
                              ∀ i', sh !! i' = Some p → i' = i).
Proof.
  apply (decoder_restore_invariant (ex_decoder 0)
           [[ex_zero; [1; 2; 3]%Q; [4; 5; 6]%Q]] [[2; 0; 3; 1]] 4 2).
  - lia.
  - reflexivity.
  - repeat constructor.
  - constructor; [|constructor]. compute_done.
Defined.

Lemma random_masking_invariants_witness :
  ∃ x_masked mask ids_restore,
    random_masking ex_rand [[ex_zero; ex_zero; ex_zero; ex_zero]] (3 # 4) 0
    = Ok ((x_masked, mask, ids_restore), 1) ∧
    len_keep_of 4 (3 # 4) = Ok (Qfloor (4 * (1 - (3 # 4)))) ∧
    mask = [[0; 1; 1; 1]%Q] ∧ ids_restore = [[0; 2; 3; 1]].
Proof.
  destruct (random_masking_invariants ex_rand
              [[ex_zero; ex_zero; ex_zero; ex_zero]] (3 # 4) 0)
    as (lk & xm & mask & ids & Hlk & _ & Hrun & _ & _ & _ & _ & _ & Hfl).
  - repeat constructor.
  - unfold Qle. simpl. lia.
  - unfold Qlt. simpl. lia.
  - simpl. lia.
  - exists xm, mask, ids. split; [exact Hrun|]. split.
    + rewrite (Hfl (1 # 4) 1%Q) in Hlk; [exact Hlk | vm_compute; reflexivity..].
    + vm_compute in Hrun. injection Hrun as _ <- <-. split; reflexivity.
Defined.

Lemma patchify_unpatchify_roundtrip_witness :
  ∃ x, patchify (ex_model 3) (ex_batch 2) = Ok x ∧
       unpatchify (ex_model 3) x = Ok (ex_batch 2).
Proof.
  destruct (patchify_unpatchify_roundtrip (ex_model 3) (ex_batch 2) 2)
    as (x & Hp & Hu & _).
  - simpl. lia.
  - repeat constructor.
  - exists x. split; [exact Hp | exact Hu].
Defined.

Lemma zero_mask_ratio_not_finite_witness :
  forward ex_rand ex_log_softmax ex_pow_half (ex_model 3)
    (ex_batch 3) (ex_batch 3) 0 0 = Ok (NonFinite, 4) ∧
  NonFinite = NonFinite.
Proof.
  assert (forward ex_rand ex_log_softmax ex_pow_half (ex_model 3)
            (ex_batch 3) (ex_batch 3) 0 0 = Ok (NonFinite, 4)) as H
    by (vm_compute; reflexivity).
  split; [exact H|].
  apply (zero_mask_ratio_not_finite ex_rand ex_log_softmax ex_pow_half
           (ex_model 3) (ex_batch 3) (ex_batch 3) 0 0 4 NonFinite).
  - reflexivity.
  - split; [intros img; vm_compute; reflexivity | simpl; lia].
  - exact H.
Defined.

Lemma cycle_loss_assembly_witness :
  forward_cycle ex_rand ex_pow_half (ex_model 3) (ex_batch 3) (3 # 4) 1 ex_preds 1
  = Ok ((sadd (sadd (sadd (Fin 0)
                 (masked_average (diagonal_rows 1 (ex_full 0) 3) (ex_mask 0)))
                 (masked_average (diagonal_rows 1 (ex_full 1) 3) (ex_mask 1)))
                 (masked_average (diagonal_rows 1 (ex_full 2) 3) (ex_mask 2)),
         (λ j, (λ d, (ex_decoded d j).2) <$> seq 0 3) <$> seq 0 3), 1 + 3).
Proof.
  apply (cycle_loss_assembly ex_rand ex_pow_half (ex_model 3) (ex_batch 3)
           (3 # 4) 1 3 4 2 1 ex_preds ex_imgs ex_latent ex_mask ex_ids
           ex_decoder (λ d j, (ex_decoded d j).1) (λ d j, (ex_decoded d j).2)
           ex_full).
  - reflexivity.
  - reflexivity.
  - repeat constructor.
  - intros j Hj. do 3 (destruct j as [|j]; [vm_compute; reflexivity|]). lia.
  - intros d Hd.
    do 3 (destruct d as [|d];
          [match goal with
           | |- ∃ p, ex_preds !! ?n = _ ∧ _ => exists (nth n ex_preds [])
           end;
           split; [vm_compute; reflexivity|];
           split; [vm_compute; reflexivity|];
           split; [vm_compute; reflexivity|];
           split; [vm_compute; split; [reflexivity | repeat constructor]|];
           intros j Hj;
           do 3 (destruct j as [|j];
                 [split; [vm_compute; reflexivity|];
                  split; [vm_compute; reflexivity|];
                  split; [vm_compute; reflexivity|];
                  vm_compute; split; [reflexivity | repeat constructor]|]);
           lia|]).
    lia.
Defined.

Lemma forward_raises_on_bad_shape_witness :
  ∃ e, forward ex_rand ex_log_softmax ex_pow_half (ex_model 3)
         (ex_batch 4) (ex_batch 4) (3 # 4) 0 = Raise e.
Proof.
  apply (forward_raises_on_bad_shape ex_rand ex_log_softmax ex_pow_half
           (ex_model 3) (ex_batch 4) (ex_batch 4) (3 # 4) 0).
  right. right. vm_compute. discriminate.
Defined.

Lemma forward_loss_mse_witness :
  forward_loss ex_pow_half (ex_model 3) (ex_batch 3) (ex_first_decoded 0).1
    ex_first.1.2
  = Ok (per_patch_mse (ex_first_decoded 0).1
          (unOk [] (patchify (ex_model 3) (ex_batch 3)))).
Proof.
  apply (forward_loss_mse ex_pow_half (ex_model 3) (ex_batch 3)
           (ex_first_decoded 0).1 (unOk [] (patchify (ex_model 3) (ex_batch 3)))
           ex_first.1.2).
  - reflexivity.
  - vm_compute. reflexivity.
  - vm_compute. repeat constructor.
Defined.

Lemma recons_loss_three_domains_witness :
  forward_recons ex_rand ex_pow_half (ex_model 3) (ex_batch 3) (ex_batch 3)
    (3 # 4) 0
  = Ok (((λ d, (ex_first_decoded d).1) <$> seq 0 3, 3 / 3,
         masked_average (diagonal_rows (3 / 3) ex_first_loss 3) ex_first.1.2), 1).
Proof.
  apply (recons_loss_three_domains ex_rand ex_pow_half (ex_model 3)
           (ex_batch 3) (ex_batch 3) (3 # 4) 1 3 4 0
           ex_first.1.1 ex_first.1.2 ex_first.2 ex_decoder
           (λ d, (ex_first_decoded d).1) (λ d, (ex_first_decoded d).2)
           ex_first_loss).
  - reflexivity.
  - vm_compute. reflexivity.
  - vm_compute. split; [reflexivity | repeat constructor].
  - intros d Hd.
    do 3 (destruct d as [|d];
          [split; [vm_compute; reflexivity|];
           split; [vm_compute; reflexivity|];
           split; [vm_compute; reflexivity|];
           vm_compute; split; [reflexivity | repeat constructor]|]).
    lia.
Defined.

Lemma feature_bank_groups_witness :
  feature_bank [ex_feat 0 ++ ex_feat 1 ++ ex_feat 2;
                ex_feat 3 ++ ex_feat 4 ++ ex_feat 5;
                ex_feat 6 ++ ex_feat 7 ++ ex_feat 8]
  = Ok [concat [ex_feat 0; ex_feat 3; ex_feat 6];
        concat [ex_feat 1; ex_feat 4; ex_feat 7];
        concat [ex_feat 2; ex_feat 5; ex_feat 8]].
Proof.
  apply (feature_bank_groups 1 (ex_feat 0) (ex_feat 1) (ex_feat 2)
           (ex_feat 3) (ex_feat 4) (ex_feat 5)
           (ex_feat 6) (ex_feat 7) (ex_feat 8)).
  repeat constructor.
Defined.

Lemma contrastive_loss_three_domains_witness :
  tao = 100000%Q ∧
  contrastive_loss ex_log_softmax ex_dmfl
  = Ok (foldl (λ acc t, sadd acc (Fin t)) (Fin 0)
          ((λ d, ((-1) * nth d (ex_log_softmax
                                  ((λ g, (dot (nth d (ex_bank d) []) g / tao)%Q)
                                   <$> ex_bank d)) 0)%Q) <$> seq 0 3)).
Proof.
  apply (contrastive_loss_three_domains ex_log_softmax ex_dmfl ex_bank).
  - reflexivity.
  - intros d Hd.
    do 3 (destruct d as [|d];
          [match goal with
           | |- ∃ feats, ex_dmfl !! ?n = _ ∧ _ => exists (nth n ex_dmfl [])
           end;
           split; [vm_compute; reflexivity|];
           split; [vm_compute; reflexivity|];
           vm_compute; reflexivity|]).
    lia.
Defined.

Lemma forward_needs_three_decoders_witness :
  ∃ e, forward ex_rand ex_log_softmax ex_pow_half
         (CycleMAE_init 2 ex_encoder ex_decoder false)
         (ex_batch 6) (ex_batch 6) (3 # 4) 0 = Raise e.
Proof.
  apply (forward_needs_three_decoders ex_rand ex_log_softmax ex_pow_half 2
           ex_encoder ex_decoder false (ex_batch 6) (ex_batch 6) (3 # 4) 0).
  lia.
Defined.

Lemma forward_reads_three_decoders_witness :
  forward ex_rand ex_log_softmax ex_pow_half (ex_model 3)
    (ex_batch 3) (ex_batch 3) (3 # 4) 0
  = forward ex_rand ex_log_softmax ex_pow_half (ex_model 5)
      (ex_batch 3) (ex_batch 3) (3 # 4) 0.
Proof.
  apply (forward_reads_three_decoders ex_rand ex_log_softmax ex_pow_half
           (ex_model 3) (ex_model 5)).
  - reflexivity.
  - reflexivity.
  - intros i Hi. do 3 (destruct i as [|i]; [vm_compute; reflexivity|]). lia.
Defined.

Lemma unpatchify_patchify_roundtrip_witness :
  ∃ imgs, unpatchify (ex_model 3) (nth 0 ex_preds []) = Ok imgs ∧
          patchify (ex_model 3) imgs = Ok (nth 0 ex_preds []).
Proof.
  destruct (unpatchify_patchify_roundtrip (ex_model 3) (nth 0 ex_preds []) 2)
    as (imgs & Hu & _ & _ & Hp & _).
  - simpl. lia.
  - vm_compute. repeat constructor.
  - exists imgs. split; [exact Hu | exact Hp].
Defined.

Lemma random_masking_any_ratio_witness :
  len_keep_of 4 (3 # 2) = Ok (-2)%Z ∧
  ∃ x_masked mask ids_restore,
    random_masking ex_rand [[ex_zero; ex_zero; ex_zero; ex_zero]] (3 # 2) 0
    = Ok ((x_masked, mask, ids_restore), 1) ∧
    x_masked = [[ex_zero; ex_zero]] ∧ mask = [[0; 1; 1; 0]%Q].
Proof.
  assert (len_keep_of 4 (3 # 2) = Ok (-2)%Z) as Hlk by (vm_compute; reflexivity).
  split; [exact Hlk|].
  pose proof (random_masking_any_ratio ex_rand
                [[ex_zero; ex_zero; ex_zero; ex_zero]] (3 # 2) 0) as H.
  change (dim1 [[ex_zero; ex_zero; ex_zero; ex_zero]]) with 4 in H.
  rewrite Hlk in H.
  destruct H as (xm & mask & ids & Hrun & _).
  - repeat constructor.
  - exists xm, mask, ids. split; [exact Hrun|].
    vm_compute in Hrun. injection Hrun as <- <- _. split; reflexivity.
Defined.


Lemma mask_restore_consistent_witness :
  ∃ r, Decoder_restore (ex_decoder 0) [[ex_zero; [1; 2; 3]%Q]] [[0; 2; 3; 1]]
       = Ok r ∧ length r = 1.
Proof.
  destruct (mask_restore_consistent ex_rand (ex_decoder 0)
              [[ex_zero; ex_zero; ex_zero; ex_zero]] (3 # 4) 0 1
              [[ex_zero]] [[0; 1; 1; 1]%Q] [[0; 2; 3; 1]]
              [[ex_zero; [1; 2; 3]%Q]])
    as (r & Hr & Hl & _).
  - vm_compute. reflexivity.
  - repeat constructor.
  - exists r. split; [exact Hr | exact Hl].
Defined.

Lemma forward_draws_witness :
  4 = 0 + 4 ∧
  ∃ preds bz lr lc dmfl,
    forward_recons ex_rand ex_pow_half (ex_model 3) (ex_batch 3) (ex_batch 3)
      (3 # 4) 0 = Ok ((preds, bz, lr), 0 + 1) ∧
    forward_cycle ex_rand ex_pow_half (ex_model 3) (ex_batch 3) (3 # 4) bz preds
      (0 + 1) = Ok ((lc, dmfl), 0 + 4).
Proof.
  apply (forward_draws ex_rand ex_log_softmax ex_pow_half (ex_model 3)
           (ex_batch 3) (ex_batch 3) (3 # 4) 0 4
           (unOk (NonFinite, 0)
              (forward ex_rand ex_log_softmax ex_pow_half (ex_model 3)
                 (ex_batch 3) (ex_batch 3) (3 # 4) 0)).1).
  vm_compute. reflexivity.
Defined.

Lemma forward_loss_rows_witness :
  length (ex_first_loss 0) = length (ex_batch 3) ∧
  ∃ part,
    forward_loss ex_pow_half (ex_model 3) (py_slice 1 2 (ex_batch 3))
      (py_slice 1 2 (ex_first_decoded 0).1) []
    = Ok part ∧
    part = py_slice 1 2 (ex_first_loss 0) ∧
    ∀ i, i < 2 - 1 → part !! i = ex_first_loss 0 !! (1 + i).
Proof.
  apply (forward_loss_rows ex_pow_half (ex_model 3) (ex_batch 3)
           (ex_first_decoded 0).1 ex_first.1.2 [] (ex_first_loss 0) 2 1 2).
  - repeat constructor.
  - vm_compute. reflexivity.
  - vm_compute. reflexivity.
Defined.

Lemma forward_loss_sign_witness :
  Forall (Forall (λ v, (0 <= v)%Q)) (ex_first_loss 0) ∧
  ((ex_model 3).(norm_pix_loss) = false →
   patchify (ex_model 3) (ex_batch 3) = Ok (ex_first_decoded 0).1 →
   Forall (Forall (λ v, (v == 0)%Q)) (ex_first_loss 0)).
Proof.
  apply (forward_loss_sign ex_pow_half (ex_model 3) (ex_batch 3)
           (ex_first_decoded 0).1 ex_first.1.2 (ex_first_loss 0)).
  vm_compute. reflexivity.
Defined.

Lemma Decoder_forward_shapes_witness :
  length (ex_first_decoded 0).1 = length ex_first.1.1 ∧
  length (ex_first_decoded 0).2 = length ex_first.1.1 ∧
  Forall (λ p : list vec, length p = (ex_decoder 0).(num_patches))
    (ex_first_decoded 0).1 ∧
  Forall (λ s : list vec, length s = S (ex_decoder 0).(num_patches))
    (ex_first_decoded 0).2.
Proof.
  apply (Decoder_forward_shapes (ex_decoder 0) ex_first.1.1 ex_first.2
           (ex_first_decoded 0).1 (ex_first_decoded 0).2).
  - apply Forall_cons. split; [done | constructor].
  - reflexivity.
  - vm_compute. repeat constructor.
  - vm_compute. repeat (constructor; [discriminate|]). constructor.
  - vm_compute. reflexivity.
Defined.

Lemma Encoder_forward_tokens_witness :
  1 = 1 ∧
  ∃ x' xm,
    mapM (λ s, badd2 s (drop 1 ex_encoder.(pos_embed)))
      (ex_encoder.(patch_embed) <$> ex_batch 3) = Ok x' ∧
    random_masking ex_rand x' (3 # 4) 0 = Ok ((xm, ex_first.1.2, ex_first.2), 1) ∧
    length ex_first.1.1 = length (ex_batch 3) ∧
    Forall2 (λ s kept : list vec, length s = S (length kept)) ex_first.1.1 xm.
Proof.
  apply (Encoder_forward_tokens ex_rand ex_encoder (ex_batch 3) (3 # 4) 0 1
           ex_first.1.1 ex_first.1.2 ex_first.2).
  - apply Forall_cons. split; [done | constructor].
  - discriminate.
  - vm_compute. reflexivity.
Defined.
